(** * Wanderlight: a shallow embedding of [script.js]

    The script wires browser events to small handlers that mutate the
    document.  Every handler is embedded as a function on the part of
    the document it reads and writes; browser services (timers,
    animation frames, intersection observers) are modelled by explicit
    state machines over logical time. *)

From Stdlib Require Import ZArith QArith Qround Qminmax Lqa Lia Sorted.
From stdpp Require Import base decidable option list strings gmap pretty.

Local Open Scope Z_scope.

(* ================================================================== *)
(** ** JavaScript values used by the script *)
(* ================================================================== *)

(** A JavaScript string is a sequence of UTF-16 code units.  Class
    names, ids and attribute names are ASCII and kept as [string]. *)
Definition code_unit := N.
Definition jsstring := list code_unit.

Fixpoint of_string (s : string) : jsstring :=
  match s with
  | EmptyString => []
  | String a s' => Ascii.N_of_ascii a :: of_string s'
  end.

(** WhiteSpace and LineTerminator code units: the set removed by
    [String.prototype.trim], matched by [\s] and skipped by [parseInt]. *)
Definition is_whitespace (c : code_unit) : bool :=
  ((9 <=? c) && (c <=? 13) || (c =? 32) || (c =? 160) || (c =? 5760)
   || (8192 <=? c) && (c <=? 8202) || (c =? 8232) || (c =? 8233)
   || (c =? 8239) || (c =? 8287) || (c =? 12288) || (c =? 65279))%N.

Fixpoint trim_start (s : jsstring) : jsstring :=
  match s with
  | c :: s' => if is_whitespace c then trim_start s' else s
  | [] => []
  end.

Definition trim_end (s : jsstring) : jsstring := rev (trim_start (rev s)).

Definition trim (s : jsstring) : jsstring := trim_end (trim_start s).

(** The numbers the script computes with: results of [Math.floor] and
    of [parseInt].  They are doubles whose value is an integer, an
    infinity, or [NaN]. *)
Inductive number := NaN | Int (z : Z) | Infinity (negative : bool).

(** The double nearest to the natural number [v], ties going to the
    even significand; [None] when [v] rounds to infinity.  Below 2^53
    every integer is a double. *)
Definition round_double (v : Z) : option Z :=
  if v <? 2 ^ 53 then Some v
  else
    let e := Z.log2 v - 52 in
    let q := Z.shiftr v e in
    let r := v - Z.shiftl q e in
    let half := 2 ^ (e - 1) in
    let q' := if r <? half then q
              else if half <? r then q + 1
              else if Z.even q then q else q + 1 in
    let d := Z.shiftl q' e in
    if d <? 2 ^ 1024 then Some d else None.

(** The Number value of a mathematical integer. *)
Definition to_number (v : Z) : number :=
  match round_double (Z.abs v) with
  | Some d => Int (Z.sgn v * d)
  | None => Infinity (v <? 0)
  end.

(** [Number::toString] for a double [x] of at least 2^53.  The digits
    are those of the decimal with the fewest significant digits that
    rounds to [x], the nearest one when several do: with [k] digits
    kept of the [m] of [x], the candidates are the neighbours [lo] and
    [hi] of [x]. *)
Fixpoint shortest (fuel : nat) (k m x : Z) : Z :=
  match fuel with
  | O => x
  | S fuel' =>
      let p := 10 ^ (m - k) in
      let lo := x / p * p in
      let hi := lo + p in
      let ok_lo := bool_decide (round_double lo = Some x) in
      let ok_hi := bool_decide (round_double hi = Some x) in
      if ok_lo && ok_hi then
        if x - lo <? hi - x then lo
        else if hi - x <? x - lo then hi
        else if Z.even (x / p) then lo else hi
      else if ok_lo then lo
      else if ok_hi then hi
      else shortest fuel' (k + 1) m x
  end.

Fixpoint strip_zeros (fuel : nat) (d : Z) : Z :=
  match fuel with
  | O => d
  | S fuel' => if d mod 10 =? 0 then strip_zeros fuel' (d / 10) else d
  end.

(** Up to 21 digits the decimal is written out, the digits dropped
    read as zeros; from 10^21 on the text is in exponent notation. *)
Definition large_text (x : Z) : string :=
  let m := String.length (pretty x) in
  let d := shortest m 1 (Z.of_nat m) x in
  let n := String.length (pretty d) in
  if (n <=? 21)%nat then pretty d
  else
    match pretty (strip_zeros n d) with
    | String a rest =>
        String a (if bool_decide (rest = EmptyString) then EmptyString
                  else "." +:+ rest)
          +:+ "e+" +:+ pretty (Z.of_nat n - 1)
    | EmptyString => EmptyString
    end.

(** [ToString] on numbers, as performed by the [textContent] setter.
    An integer below 2^53 in magnitude reads as its decimal digits,
    with a leading minus sign when it is negative. *)
Definition ToString (n : number) : string :=
  match n with
  | NaN => "NaN"
  | Int z =>
      if Z.abs z <? 2 ^ 53 then pretty z
      else (if z <? 0 then "-" else "") +:+ large_text (Z.abs z)
  | Infinity negative => if negative then "-Infinity" else "Infinity"
  end.

(** Statement completion: a handler returns or throws a [TypeError]. *)
Inductive completion (A : Type) := Normal (a : A) | Throw.
Arguments Normal {A} a.
Arguments Throw {A}.

#[global] Instance completion_ret : MRet completion := λ A a, Normal a.
#[global] Instance completion_bind : MBind completion := λ A B f c,
  match c with
  | Normal a => f a
  | Throw => Throw
  end.

(** Reading a property of a reference that may be [null]. *)
Definition deref {A} (o : option A) : completion A :=
  match o with
  | Some a => Normal a
  | None => Throw
  end.

(* ================================================================== *)
(** ** The document *)
(* ================================================================== *)

(** [DOMTokenList]: the ordered set of class names of an element. *)
Module DOMTokenList.

Abbreviation t := (list string).

Definition contains (c : string) (cl : t) : bool := bool_decide (c ∈ cl).

Definition add (c : string) (cl : t) : t :=
  if contains c cl then cl else cl ++ [c].

Definition remove (c : string) (cl : t) : t := filter (λ x, x ≠ c) cl.

(** [toggle(c)] returns the new list and whether [c] is now present. *)
Definition toggle (c : string) (cl : t) : t * bool :=
  if contains c cl then (remove c cl, false) else (cl ++ [c], true).

(** [toggle(c, force)]. *)
Definition toggle_force (c : string) (force : bool) (cl : t) : t :=
  if force then add c cl else remove c cl.

End DOMTokenList.

Record Element := mkElement {
  classList : DOMTokenList.t;
  attributes : gmap string jsstring;
  textContent : string
}.

Definition set_classList (cl : DOMTokenList.t) (e : Element) : Element :=
  {| classList := cl; attributes := attributes e; textContent := textContent e |}.

Definition classList_add (c : string) (e : Element) : Element :=
  set_classList (DOMTokenList.add c (classList e)) e.

Definition classList_remove (c : string) (e : Element) : Element :=
  set_classList (DOMTokenList.remove c (classList e)) e.

Definition has_class (c : string) (e : Element) : bool :=
  DOMTokenList.contains c (classList e).

Definition getAttribute (k : string) (e : Element) : option jsstring :=
  attributes e !! k.

Definition setAttribute (k : string) (v : jsstring) (e : Element) : Element :=
  {| classList := classList e; attributes := <[k := v]> (attributes e);
     textContent := textContent e |}.

Definition set_textContent (s : string) (e : Element) : Element :=
  {| classList := classList e; attributes := attributes e; textContent := s |}.

(* ================================================================== *)
(** ** Configuration *)
(* ================================================================== *)

Module config.
Definition scrollThreshold : Q := 100%Q.
Definition animationDuration : Q := 600%Q.
Definition countAnimationDuration : Q := 2000%Q.
Definition intersectionThreshold : Q := (1 # 10)%Q.
End config.

(** [x < y] on numbers that are never [NaN] (scroll offsets, times). *)
Definition Qltb (x y : Q) : bool := if Qlt_le_dec x y then true else false.

(* ================================================================== *)
(** ** Utility functions *)
(* ================================================================== *)

(** [debounce(func, wait)].  Time is logical, in milliseconds.  The
    state gathers the closure variable [timeout], the browser's table
    of timers that are set and have neither fired nor been cleared, and
    a log of the calls made to [func]. *)
Module Debounce.
Section debounce.
Context {A : Type}.
Variable wait : Z.

Record timer := mkTimer { handle : nat; due : Z; args : A }.

Record state := mkState {
  timeout : option nat;
  timers : list timer;
  next_handle : nat;
  invoked : list (Z * A)
}.

Definition init : state :=
  {| timeout := None; timers := []; next_handle := 1; invoked := [] |}.

(** [clearTimeout(h)]; clearing [undefined] or a dead handle does nothing. *)
Definition clearTimeout (h : option nat) (ts : list timer) : list timer :=
  match h with
  | Some i => filter (λ t, handle t ≠ i) ts
  | None => ts
  end.

(** A call of the wrapper at time [now] with arguments [a]:
    [clearTimeout(timeout); timeout = setTimeout(later, wait)].
    [setTimeout] treats a negative delay as zero. *)
Definition executedFunction (now : Z) (a : A) (s : state) : state :=
  let h := next_handle s in
  {| timeout := Some h;
     timers := clearTimeout (timeout s) (timers s) ++ [mkTimer h (now + Z.max 0 wait) a];
     next_handle := S h;
     invoked := invoked s |}.

(** The timer callback: [clearTimeout(timeout); func(...args)]. *)
Definition later (now : Z) (a : A) (s : state) : state :=
  {| timeout := timeout s;
     timers := clearTimeout (timeout s) (timers s);
     next_handle := next_handle s;
     invoked := invoked s ++ [(now, a)] |}.

(** The timer to fire next: the least due time, the older timer on a tie. *)
Fixpoint earliest (ts : list timer) : option timer :=
  match ts with
  | [] => None
  | t :: ts' =>
      match earliest ts' with
      | Some u => if due u <? due t then Some u else Some t
      | None => Some t
      end
  end.

(** The browser takes a due timer out of its table and runs its callback. *)
Definition fire (t : timer) (s : state) : state :=
  later (due t) (args t)
    {| timeout := timeout s;
       timers := filter (λ u, handle u ≠ handle t) (timers s);
       next_handle := next_handle s;
       invoked := invoked s |}.

Fixpoint run_timers (fuel : nat) (now : Z) (s : state) : state :=
  match fuel with
  | O => s
  | S fuel' =>
      match earliest (timers s) with
      | Some t => if due t <=? now then run_timers fuel' now (fire t s) else s
      | None => s
      end
  end.

(** Let time pass until [now]: every timer due by then fires, in order.
    A callback sets no timer, so the table's length bounds the work. *)
Definition advance (now : Z) (s : state) : state :=
  run_timers (length (timers s)) now s.

(** One invocation is pending: that of the call made at [t] with [a]. *)
Definition pending (s : state) (t : Z) (a : A) : Prop :=
  ∃ h, timers s = [mkTimer h (t + wait) a] ∧ timeout s = Some h.

(** A sequence of calls of the wrapper, each with its arrival time. *)
Fixpoint run (calls : list (Z * A)) (s : state) : state :=
  match calls with
  | [] => s
  | (t, a) :: rest => run rest (executedFunction t a (advance t s))
  end.

(** Each call of [calls] arrives within [wait] of the one before it,
    the first one within [wait] of time [t0]. *)
Fixpoint within (t0 : Z) (calls : list (Z * A)) : Prop :=
  match calls with
  | [] => True
  | (t, _) :: rest => t0 ≤ t < t0 + wait ∧ within t rest
  end.

End debounce.
End Debounce.

(** [animateCount(element, target)].  The interpolation is computed in
    double precision: each arithmetic operation below is the exact
    operation followed by a rounding [rnd] of its result.  Timestamps
    are finite; [target] is what [parseInt] returned. *)
Module Count.
Section animateCount.
Variable rnd : Q → Q.

Definition duration : Q := config.countAnimationDuration.
Definition start : Q := 0%Q.

Definition elapsed (startTime currentTime : Q) : Q :=
  rnd (currentTime - startTime)%Q.

Definition progress (startTime currentTime : Q) : Q :=
  Qmin (rnd (elapsed startTime currentTime / duration)%Q) 1%Q.

Definition easeProgress (startTime currentTime : Q) : Q :=
  rnd (1 - rnd (rnd (1 - progress startTime currentTime) ^ 3))%Q.

(** [Math.floor(start + (target - start) * easeProgress)], for an
    integer target ... *)
Definition currentZ (z : Z) (startTime currentTime : Q) : Z :=
  Qfloor (rnd (start + rnd (rnd (inject_Z z - start)
                            * easeProgress startTime currentTime))%Q).

(** ... and in general: every operation on [NaN] yields [NaN]; an
    infinite target times the factor is infinite, of the sign of the
    product, and [NaN] when the factor is zero. *)
Definition current (target : number) (startTime currentTime : Q) : number :=
  match target with
  | NaN => NaN
  | Int z => Int (currentZ z startTime currentTime)
  | Infinity negative =>
      let e := easeProgress startTime currentTime in
      if Qeq_bool e 0 then NaN else Infinity (xorb negative (Qltb e 0))
  end.

(** One run of [updateCount]: the values assigned to
    [element.textContent], in order, and whether another animation
    frame is requested. *)
Definition updateCount (target : number) (startTime currentTime : Q)
  : list number * bool :=
  if Qltb (progress startTime currentTime) 1%Q
  then ([current target startTime currentTime], true)
  else ([current target startTime currentTime; target], false).

(** The values written over the successive animation frames whose
    timestamps are [frames]; the animation stops by itself. *)
Fixpoint animateCount (target : number) (startTime : Q) (frames : list Q)
  : list number :=
  match frames with
  | [] => []
  | currentTime :: rest =>
      let '(writes, again) := updateCount target startTime currentTime in
      writes ++ (if again then animateCount target startTime rest else [])
  end.

(** Whether the animation has run to completion within [frames]. *)
Definition completes (startTime : Q) (frames : list Q) : Prop :=
  Exists (λ t, (1 <= progress startTime t)%Q) frames.

(** The values written are integers that never decrease and never
    exceed [z]. *)
Definition nondecreasing_up_to (z : Z) (writes : list number) : Prop :=
  ∃ zs, writes = Int <$> zs ∧ Sorted Z.le zs ∧ Forall (λ w, w ≤ z) zs.

(** Each value is the target or the interpolation at some frame. *)
Definition interpolated (z : Z) (startTime : Q) (frames : list Q)
    (writes : list number) : Prop :=
  Forall (λ w, w = Int z
               ∨ ∃ t, t ∈ frames ∧ w = Int (currentZ z startTime t)) writes.

End animateCount.

(** The element's text after a sequence of assignments. *)
Definition display (writes : list number) (element : Element) : Element :=
  foldl (λ e w, set_textContent (ToString w) e) element writes.

End Count.

(* ================================================================== *)
(** ** Header scroll effect *)
(* ================================================================== *)

(** [handleHeaderScroll], on [window.scrollY] and the header element. *)
Definition handleHeaderScroll (scrollY : Q) (header : Element) : Element :=
  if Qltb config.scrollThreshold scrollY
  then classList_add "scrolled" header
  else classList_remove "scrolled" header.

(* ================================================================== *)
(** ** Mobile navigation *)
(* ================================================================== *)

Module Menu.

(** The elements the menu handlers touch; [getElementById] yields
    [null] for the first two when the markup lacks them. *)
Record state := mkState {
  navMenu : option Element;
  navToggle : option Element;
  body : Element
}.

Definition bool_string (b : bool) : jsstring :=
  of_string (if b then "true" else "false").

Definition toggleMobileMenu (s : state) : completion state :=
  menu ← deref (navMenu s);
  let '(cl, isOpen) := DOMTokenList.toggle "open" (classList menu) in
  toggle ← deref (navToggle s);
  mret {| navMenu := Some (set_classList cl menu);
          navToggle := Some (setAttribute "aria-expanded" (bool_string isOpen) toggle);
          body := set_classList
                    (DOMTokenList.toggle_force "menu-open" isOpen (classList (body s)))
                    (body s) |}.

Definition closeMobileMenu (s : state) : completion state :=
  menu ← deref (navMenu s);
  toggle ← deref (navToggle s);
  mret {| navMenu := Some (classList_remove "open" menu);
          navToggle := Some (setAttribute "aria-expanded" (of_string "false") toggle);
          body := classList_remove "menu-open" (body s) |}.

(** [initMobileNav] installs its listeners only when both elements exist. *)
Definition initMobileNav (s : state) : bool :=
  match navToggle s, navMenu s with
  | Some _, Some _ => true
  | _, _ => false
  end.

(** The [keydown] listener installed on the document. *)
Definition onKeydown (key : string) (s : state) : completion state :=
  if bool_decide (key = "Escape") then
    menu ← deref (navMenu s);
    if has_class "open" menu then closeMobileMenu s else mret s
  else mret s.

(** The [click] listener on the document; the two flags say whether the
    event target lies inside the menu and inside the toggle control. *)
Definition onDocumentClick (inMenu inToggle : bool) (s : state) : completion state :=
  menu ← deref (navMenu s);
  if has_class "open" menu && negb inMenu && negb inToggle
  then closeMobileMenu s
  else mret s.

(** Closed: no [open] class on the menu, [aria-expanded] is ["false"] on
    the toggle, and the body carries no scroll-lock class. *)
Definition closed (s : state) : Prop :=
  (∃ menu, navMenu s = Some menu ∧ has_class "open" menu = false)
  ∧ (∃ toggle, navToggle s = Some toggle
               ∧ getAttribute "aria-expanded" toggle = Some (of_string "false"))
  ∧ has_class "menu-open" (body s) = false.

End Menu.

(* ================================================================== *)
(** ** Active navigation link *)
(* ================================================================== *)

Module ActiveLink.

(** A [section[id]] element: its id and its layout box. *)
Record section := mkSection {
  id : jsstring;
  offsetTop : Z;
  offsetHeight : Z
}.

(** The id is pasted between the double quotes of the selector
    [.nav__link[href="#..."]] (line 174).  A quoted CSS string takes
    every code unit as it is, except the double quote, which ends it,
    the backslash, which starts an escape, a line break (line feed,
    form feed, carriage return), which makes the token a bad string,
    and NUL and surrogates, which the parser replaces. *)
Definition is_newline (c : code_unit) : bool :=
  ((c =? 10) || (c =? 12) || (c =? 13))%N.

Definition is_css_space (c : code_unit) : bool :=
  ((c =? 9) || (c =? 32))%N || is_newline c.

Definition is_surrogate (c : code_unit) : bool :=
  ((55296 <=? c) && (c <=? 57343))%N.

Fixpoint skip_space (s : jsstring) : jsstring :=
  match s with
  | c :: s' => if is_css_space c then skip_space s' else s
  | [] => []
  end.

(** What the selector made from an id amounts to: [Plain], the id is
    the string's value and the selector asks for that [href];
    [Malformed], the selector is no selector and [querySelector] throws
    a [SyntaxError]; [Engine], anything else, left to the browser's
    selector engine. *)
Inductive selector := Plain | Malformed | Engine.

(** After a double quote inside the id the attribute selector has its
    value; only white space, a comment, the modifier [i] or [s] and
    the closing bracket may follow.  Any other code unit, and the end
    of the id (what follows then is the quote the template adds),
    makes the selector malformed. *)
Definition after_quote (rest : jsstring) : selector :=
  match skip_space rest with
  | [] => Malformed
  | c :: _ =>
      if ((c =? 93) || (c =? 105) || (c =? 73) || (c =? 115) || (c =? 83)
          || (c =? 47) || (c =? 92) || (c =? 0))%N || is_surrogate c
      then Engine else Malformed
  end.

Fixpoint selector_kind (sectionId : jsstring) : selector :=
  match sectionId with
  | [] => Plain
  | c :: rest =>
      if (c =? 34)%N then after_quote rest
      else if is_newline c then Malformed
      else if ((c =? 92) || (c =? 0))%N || is_surrogate c then Engine
      else selector_kind rest
  end.

(** The first navigation link, in document order, whose [href]
    attribute is ["#"] followed by the id.  [navLinks] is the list of
    all [.nav__link] elements, as held by [elements.navLinks]. *)
Definition first_link (sectionId : jsstring) (navLinks : list Element)
  : option nat :=
  fst <$> list_find (λ e, getAttribute "href" e = Some (35%N :: sectionId)) navLinks.

(** What [document.querySelector] returns: a navigation link, an
    element that is none of them, or [null]. *)
Inductive found := Link (i : nat) | Elsewhere | Nothing.

(** [document.querySelector(`.nav__link[href="#${sectionId}"]`)], for
    the section at position [k].  [engine k] is the answer of the
    browser's selector engine for that section; it is consulted only
    for a selector that is neither plain nor surely malformed. *)
Definition querySelector (engine : nat → completion found) (k : nat)
    (sectionId : jsstring) (navLinks : list Element) : completion found :=
  match selector_kind sectionId with
  | Plain =>
      Normal (match first_link sectionId navLinks with
              | Some i => Link i
              | None => Nothing
              end)
  | Malformed => Throw
  | Engine => engine k
  end.

(** [scrollY > sectionTop && scrollY <= sectionTop + sectionHeight],
    with [sectionTop = offsetTop - header.offsetHeight - 100]. *)
Definition in_span (scrollY : Q) (headerHeight : Z) (sec : section) : bool :=
  let sectionHeight := offsetHeight sec in
  let sectionTop := offsetTop sec - headerHeight - 100 in
  Qltb (inject_Z sectionTop) scrollY
  && negb (Qltb (inject_Z (sectionTop + sectionHeight)) scrollY).

(** The body of the [sections.forEach] callback, for the section at
    position [k]. *)
Definition visit (engine : nat → completion found) (scrollY : Q)
    (headerHeight : Z) (k : nat) (navLinks : list Element) (sec : section)
  : completion (list Element) :=
  navLink ← querySelector engine k (id sec) navLinks;
  match navLink with
  | Link i =>
      if in_span scrollY headerHeight sec
      then Normal (alter (classList_add "active") i
                     (classList_remove "active" <$> navLinks))
      else Normal navLinks
  | Elsewhere =>
      if in_span scrollY headerHeight sec
      then Normal (classList_remove "active" <$> navLinks)
      else Normal navLinks
  | Nothing => Normal navLinks
  end.

(** [sections.forEach], from position [k] on: the links as the loop
    leaves them, and whether it ended in an exception.  An exception
    ends the loop; what the sections before it did stays done. *)
Fixpoint forEach (engine : nat → completion found) (scrollY : Q)
    (headerHeight : Z) (k : nat) (sections : list section)
    (navLinks : list Element) : list Element * bool :=
  match sections with
  | [] => (navLinks, false)
  | sec :: rest =>
      match visit engine scrollY headerHeight k navLinks sec with
      | Normal navLinks' => forEach engine scrollY headerHeight (S k) rest navLinks'
      | Throw => (navLinks, true)
      end
  end.

(** [updateActiveLink], on [window.pageYOffset], the [offsetHeight] of
    the header element, the sections in document order and the
    navigation links. *)
Definition updateActiveLink (engine : nat → completion found) (scrollY : Q)
    (headerHeight : Z) (sections : list section) (navLinks : list Element)
  : list Element * bool :=
  forEach engine scrollY headerHeight 0 sections navLinks.

(** Every section's selector is plain. *)
Definition plain (sections : list section) : Prop :=
  Forall (λ sec, selector_kind (id sec) = Plain) sections.

(** A section that has a navigation link and whose span holds the offset. *)
Definition hit (scrollY : Q) (headerHeight : Z) (navLinks : list Element)
    (sec : section) : bool :=
  bool_decide (is_Some (first_link (id sec) navLinks))
  && in_span scrollY headerHeight sec.

(** The sections that hit, in document order. *)
Definition hits (scrollY : Q) (headerHeight : Z) (navLinks : list Element)
    (sections : list section) : list section :=
  filter (λ sec, hit scrollY headerHeight navLinks sec = true) sections.

(** The positions of the links that carry the [active] class. *)
Fixpoint active_from (k : nat) (navLinks : list Element) : list nat :=
  match navLinks with
  | [] => []
  | e :: rest =>
      (if has_class "active" e then [k] else []) ++ active_from (S k) rest
  end.

Definition active_links (navLinks : list Element) : list nat :=
  active_from 0 navLinks.

End ActiveLink.

(* ================================================================== *)
(** ** Scroll reveal animation *)
(* ================================================================== *)

(** An [IntersectionObserverEntry] as the callbacks read it; the target
    is named by its position in the observed node list. *)
Record entry := mkEntry { target : nat; isIntersecting : bool }.

(** The options an observer is created with; the root margin is given
    in pixels: top, right, bottom, left. *)
Record observer_options := mkOptions {
  threshold : Q;
  rootMargin : Z * Z * Z * Z
}.

Module Reveal.

Record state := mkState {
  revealElements : list Element;
  observed : gset nat
}.

Definition options : observer_options :=
  {| threshold := config.intersectionThreshold; rootMargin := (0, 0, -50, 0) |}.

(** The body of the [entries.forEach] callback. *)
Definition on_entry (s : state) (e : entry) : state :=
  if isIntersecting e
  then {| revealElements :=
            alter (classList_add "visible") (target e) (revealElements s);
          observed := observed s ∖ {[target e]} |}
  else s.

(** The observer's callback, on one batch of entries. *)
Definition callback (entries : list entry) (s : state) : state :=
  foldl on_entry s entries.

(** [initScrollReveal]: tag every element and observe it. *)
Definition initScrollReveal (els : list Element) : state :=
  {| revealElements := classList_add "reveal" <$> els;
     observed := list_to_set (seq 0 (length els)) |}.

(** The batches the browser delivers, one after the other. *)
Definition run (batches : list (list entry)) (s : state) : state :=
  foldl (λ s b, callback b s) s batches.

Definition visible (i : nat) (s : state) : bool :=
  match revealElements s !! i with
  | Some el => has_class "visible" el
  | None => false
  end.

(** How many entries took element [i] from not visible to visible. *)
Fixpoint additions (i : nat) (entries : list entry) (s : state) : nat :=
  match entries with
  | [] => 0
  | e :: rest =>
      let s' := on_entry s e in
      ((if negb (visible i s) && visible i s' then 1 else 0)
       + additions i rest s')%nat
  end.

End Reveal.

(* ================================================================== *)
(** ** Statistics counter *)
(* ================================================================== *)

Definition is_digit (c : code_unit) : bool := ((48 <=? c) && (c <=? 57))%N.

(** The value of the longest prefix of decimal digits. *)
Fixpoint digits_value (acc : Z) (s : jsstring) : Z :=
  match s with
  | c :: s' =>
      if is_digit c then digits_value (10 * acc + (Z.of_N c - 48)) s' else acc
  | [] => acc
  end.

(** [parseInt(s, 10)]: skip leading white space, read an optional sign,
    then the longest prefix of decimal digits; [NaN] if there is none.
    The result is the double nearest to the integer read, as the
    common engines compute it for any number of digits. *)
Definition parseInt (s : jsstring) : number :=
  let s1 := trim_start s in
  let '(sign, s2) :=
    match s1 with
    | 45%N :: r => (-1, r)
    | 43%N :: r => (1, r)
    | _ => (1, s1)
    end in
  match s2 with
  | c :: _ => if is_digit c then to_number (sign * digits_value 0 s2) else NaN
  | [] => NaN
  end.

(** The numbers that read back from their text: [NaN] and the
    integers below 2^53 in magnitude. *)
Definition safe_integer (n : number) : Prop :=
  match n with
  | NaN => True
  | Int z => Z.abs z < 2 ^ 53
  | Infinity _ => False
  end.

(** [ToString] of the result of [getAttribute]: [null] reads ["null"]. *)
Definition attribute_string (o : option jsstring) : jsstring :=
  match o with
  | Some s => s
  | None => of_string "null"
  end.

Module StatsCounter.

(** A count animation that has been started: the element it writes
    to, its target, and the time [performance.now()] gave at its start. *)
Record animation := mkAnimation {
  element : nat;
  anim_target : number;
  startTime : Q
}.

Record state := mkState {
  statNumbers : list Element;
  observed : gset nat;
  animations : list animation
}.

Definition options : observer_options :=
  {| threshold := (1 # 2)%Q; rootMargin := (0, 0, 0, 0) |}.

(** The body of the [entries.forEach] callback, run at time [now]. *)
Definition on_entry (now : Q) (s : state) (e : entry) : state :=
  if isIntersecting e then
    match statNumbers s !! target e with
    | Some el =>
        let tgt := parseInt (attribute_string (getAttribute "data-count" el)) in
        {| statNumbers := statNumbers s;
           observed := observed s ∖ {[target e]};
           animations := animations s ++ [mkAnimation (target e) tgt now] |}
    | None => s
    end
  else s.

Definition callback (now : Q) (entries : list entry) (s : state) : state :=
  foldl (on_entry now) s entries.

(** [initStatsCounter]: nothing is set up for an empty node list. *)
Definition initStatsCounter (els : list Element) : option state :=
  if bool_decide (length els = 0%nat) then None
  else Some {| statNumbers := els;
               observed := list_to_set (seq 0 (length els));
               animations := [] |}.

End StatsCounter.

(* ================================================================== *)
(** ** Contact form *)
(* ================================================================== *)

(** The regular expressions of the script all have the shape
    [/^ c1{l1,h1} c2{l2,h2} ... $/]: a sequence of character classes,
    each with a repetition range, anchored at both ends (there is no
    [m] flag, so [$] only matches at the end of the input). *)
Module Regex.

Record item := mkItem {
  class : code_unit → bool;
  lo : nat;
  hi : option nat
}.

Definition may_take (hi : option nat) : bool :=
  match hi with
  | Some O => false
  | _ => true
  end.

(** Match [class{lo,hi}] at the head of [s], then [k] on the rest:
    the greedy choice first, a shorter repetition on backtracking. *)
Fixpoint rep (p : code_unit → bool) (lo : nat) (hi : option nat)
    (k : jsstring → bool) (s : jsstring) : bool :=
  let stop := bool_decide (lo = O) && k s in
  match s with
  | c :: s' =>
      if p c && may_take hi
      then rep p (pred lo) (pred <$> hi) k s' || stop
      else stop
  | [] => stop
  end.

Fixpoint matches (items : list item) : jsstring → bool :=
  match items with
  | [] => λ s, bool_decide (s = [])
  | it :: rest => rep (class it) (lo it) (hi it) (matches rest)
  end.

Definition test (items : list item) (s : jsstring) : bool := matches items s.

Definition in_range (a b : N) (c : code_unit) : bool := ((a <=? c) && (c <=? b))%N.
Definition char (a : N) (c : code_unit) : bool := (c =? a)%N.

(** [.]: any code unit but a line terminator. *)
Definition dot (c : code_unit) : bool :=
  negb ((c =? 10) || (c =? 13) || (c =? 8232) || (c =? 8233))%N.

End Regex.

Module ContactForm.

(** [[a-zA-ZÀ-ÿ\s]] *)
Definition name_class (c : code_unit) : bool :=
  Regex.in_range 97 122 c || Regex.in_range 65 90 c
  || Regex.in_range 192 255 c || is_whitespace c.

(** [[a-zA-Z0-9._%+-]] *)
Definition local_class (c : code_unit) : bool :=
  Regex.in_range 97 122 c || Regex.in_range 65 90 c || Regex.in_range 48 57 c
  || Regex.char 46 c || Regex.char 95 c || Regex.char 37 c
  || Regex.char 43 c || Regex.char 45 c.

(** [[a-zA-Z0-9.-]] *)
Definition domain_class (c : code_unit) : bool :=
  Regex.in_range 97 122 c || Regex.in_range 65 90 c || Regex.in_range 48 57 c
  || Regex.char 46 c || Regex.char 45 c.

(** [[a-zA-Z]] *)
Definition alpha_class (c : code_unit) : bool :=
  Regex.in_range 97 122 c || Regex.in_range 65 90 c.

Definition name_pattern : list Regex.item :=
  [Regex.mkItem name_class 2 (Some 50%nat)].

Definition email_pattern : list Regex.item :=
  [Regex.mkItem local_class 1 None;
   Regex.mkItem (Regex.char 64) 1 (Some 1%nat);
   Regex.mkItem domain_class 1 None;
   Regex.mkItem (Regex.char 46) 1 (Some 1%nat);
   Regex.mkItem alpha_class 2 None].

Definition message_pattern : list Regex.item :=
  [Regex.mkItem Regex.dot 10 (Some 1000%nat)].

(** What reading [patterns[fieldName]] gives: one of the object's own
    patterns, a member inherited from [Object.prototype] (truthy, and
    without a [test] method), or [undefined]. *)
Inductive property := Own (r : list Regex.item) | Inherited | Undefined.

Definition Object_prototype : list string :=
  ["constructor"; "hasOwnProperty"; "isPrototypeOf"; "propertyIsEnumerable";
   "toLocaleString"; "toString"; "valueOf"; "__defineGetter__";
   "__defineSetter__"; "__lookupGetter__"; "__lookupSetter__"; "__proto__"].

Definition patterns (fieldName : string) : property :=
  if bool_decide (fieldName = "name") then Own name_pattern
  else if bool_decide (fieldName = "email") then Own email_pattern
  else if bool_decide (fieldName = "message") then Own message_pattern
  else if bool_decide (fieldName ∈ Object_prototype) then Inherited
  else Undefined.

(** [errorMessages[fieldName] || 'Campo non valido'], for the names
    that reach it. *)
Definition errorMessages (fieldName : string) : string :=
  if bool_decide (fieldName = "name")
  then "Inserisci un nome valido (almeno 2 caratteri)"
  else if bool_decide (fieldName = "email")
  then "Inserisci un indirizzo email valido"
  else if bool_decide (fieldName = "message")
  then "Il messaggio deve contenere almeno 10 caratteri"
  else "Campo non valido".

(** A form control ([.form__input] or [.form__textarea]) together with
    the [.form__error] element of its parent, if there is one. *)
Record Field := mkField {
  name : string;
  value : jsstring;
  required : bool;
  node : Element;
  errorElement : option Element
}.

Definition set_node (f : Field) (n : Element) (err : option Element) : Field :=
  {| name := name f; value := value f; required := required f;
     node := n; errorElement := err |}.

Definition validateField (field : Field) : completion (bool * Field) :=
  let fieldName := name field in
  let value := trim (value field) in
  if bool_decide (fieldName = "subject") then mret (true, field) else
  isValid ← match patterns fieldName with
            | Own r => mret (Regex.test r value)
            | Inherited => Throw
            | Undefined =>
                mret (negb (required field && bool_decide (value = [])))
            end;
  if negb isValid then
    mret (isValid,
          set_node field (classList_add "error" (node field))
            ((λ e, classList_add "visible"
                     (set_textContent (errorMessages fieldName) e))
             <$> errorElement field))
  else
    mret (isValid,
          set_node field (classList_remove "error" (node field))
            ((λ e, classList_remove "visible" (set_textContent "" e))
             <$> errorElement field)).

(** [validateForm]: every field is validated, in document order. *)
Fixpoint validateForm_from (isFormValid : bool) (fields : list Field)
  : completion (bool * list Field) :=
  match fields with
  | [] => mret (isFormValid, [])
  | field :: rest =>
      '(ok, field') ← validateField field;
      '(v, rest') ← validateForm_from (if negb ok then false else isFormValid) rest;
      mret (v, field' :: rest')
  end.

Definition validateForm (fields : list Field) : completion (bool * list Field) :=
  validateForm_from true fields.

Record Button := mkButton { button : Element; disabled : bool }.

(** The form: its controls in document order, the submit button and
    the success message (either may be missing), the control that has
    the focus, and whether the simulated submission has been started. *)
Record form := mkForm {
  fields : list Field;
  submitBtn : option Button;
  successMessage : option Element;
  focused : option nat;
  submitting : bool
}.

(** [form.querySelector('.error')], over the controls. *)
Definition firstError (fs : list Field) : option nat :=
  fst <$> list_find (λ f, has_class "error" (node f) = true) fs.

(** The [submit] listener, up to its first [await]. *)
Definition onSubmit (fm : form) : completion form :=
  '(ok, fs) ← validateForm (fields fm);
  if negb ok then
    mret {| fields := fs;
            submitBtn := submitBtn fm;
            successMessage := successMessage fm;
            focused := match firstError fs with
                       | Some i => Some i
                       | None => focused fm
                       end;
            submitting := submitting fm |}
  else
    btn ← deref (submitBtn fm);
    mret {| fields := fs;
            submitBtn := Some {| button := classList_add "loading" (button btn);
                                 disabled := true |};
            successMessage := successMessage fm;
            focused := focused fm;
            submitting := true |}.

(** The trimmed value is a run of 2 to 50 code units, each an ASCII
    letter, an accented letter of Latin-1 or a white-space character. *)
Definition is_ascii_letter (c : code_unit) : bool :=
  Regex.in_range 97 122 c || Regex.in_range 65 90 c.

Definition is_latin1_letter (c : code_unit) : bool :=
  Regex.in_range 192 255 c && negb (Regex.char 215 c) && negb (Regex.char 247 c).

Definition name_ok (v : jsstring) : Prop :=
  (2 ≤ length v ≤ 50)%nat
  ∧ Forall (λ c, is_ascii_letter c || is_latin1_letter c || is_whitespace c = true) v.

(** As the specification words it: 2 to 50 characters, each a letter
    (accented Latin letters included, here those of Latin-1 and of
    Latin Extended-A and B) or a space. *)
Definition is_accented_latin_letter (c : code_unit) : bool :=
  is_latin1_letter c || Regex.in_range 256 591 c.

Definition letters_or_spaces (v : jsstring) : Prop :=
  (2 ≤ length v ≤ 50)%nat
  ∧ Forall (λ c, is_ascii_letter c || is_accented_latin_letter c
                 || Regex.char 32 c = true) v.

End ContactForm.

(* ================================================================== *)
(** ** Further handlers of the script *)
(* ================================================================== *)

(** The calls of a debounced wrapper that lead to a call of [func]:
    those not followed by another call before their timer is due.
    Each is listed with the time at which [func] runs. *)
Module Survivors.
Section survivors.
Context {A : Type}.
Variable wait : Z.

Fixpoint survivors (calls : list (Z * A)) : list (Z * A) :=
  match calls with
  | [] => []
  | (t, a) :: rest =>
      match rest with
      | (t', _) :: _ =>
          if t + wait <=? t' then (t + wait, a) :: survivors rest
          else survivors rest
      | [] => [(t + wait, a)]
      end
  end.

(** Arrival times never decrease. *)
Fixpoint ordered (t0 : Z) (calls : list (Z * A)) : Prop :=
  match calls with
  | [] => True
  | (t, _) :: rest => t0 ≤ t ∧ ordered t rest
  end.

(** At most one timer is set, and [timeout] holds its handle. *)
Definition single (s : @Debounce.state A) : Prop :=
  Debounce.timers s = []
  ∨ ∃ h d a, Debounce.timers s = [Debounce.mkTimer h d a]
             ∧ Debounce.timeout s = Some h.

End survivors.
End Survivors.

(** [initBackToTop]. *)
Module MenuEvents.

(** Where a click lands: inside the toggle control, inside a
    navigation link, inside the menu.  When the target lies in the
    toggle control and in a link at once, [linkInside] says that the
    link is the inner of the two. *)
Record click_target := mkTarget {
  inToggle : bool;
  inLink : bool;
  linkInside : bool;
  inMenu : bool
}.

(** One click, taken through the listeners [initMobileNav] installed
    (lines 123 to 146): the event bubbles from its target, so the
    listener of the toggle control and that of the link run first, the
    inner element's before the outer's, and the document's runs last. *)
Definition click (t : click_target) (s : Menu.state) : completion Menu.state :=
  if Menu.initMobileNav s then
    let onToggle s := if inToggle t then Menu.toggleMobileMenu s else mret s in
    let onLink s := if inLink t then Menu.closeMobileMenu s else mret s in
    s1 ← (if linkInside t then onLink s ≫= onToggle else onToggle s ≫= onLink);
    Menu.onDocumentClick (inMenu t) (inToggle t) s1
  else mret s.

End MenuEvents.

Module BackToTop.

(** [toggleBackToTop], on [window.scrollY] and the button. *)
Definition toggleBackToTop (scrollY : Q) (backToTop : Element) : Element :=
  if Qltb (config.scrollThreshold * 3)%Q scrollY
  then classList_add "visible" backToTop
  else classList_remove "visible" backToTop.

End BackToTop.

(** The scroll listeners of [init] and [initBackToTop]: each scroll
    event calls a debounced wrapper; when the wrapper's timer fires the
    handler reads the scroll offset the window has by then. *)
Module ScrollCoordinator.

(** The window's scroll offset at time [T]: that of the last scroll
    event so far, [initial] before the first one. *)
Definition scrollY_at (initial : Q) (events : list (Z * Q)) (T : Z) : Q :=
  foldl (λ y e, if e.1 <=? T then e.2 else y) initial events.

(** The element after the handler has run at each time of [log]. *)
Definition replay (handler : Q → Element → Element) (initial : Q)
    (events : list (Z * Q)) (log : list (Z * Q)) (el : Element) : Element :=
  foldl (λ e call, handler (scrollY_at initial events call.1) e) el log.

(** The header at time [T]: [handleHeaderScroll] has run once at load
    and then whenever its debounced wrapper (wait 10) fired. *)
Definition header_at (initial : Q) (events : list (Z * Q)) (T : Z)
    (header : Element) : Element :=
  replay handleHeaderScroll initial events
    (Debounce.invoked (Debounce.advance T (Debounce.run 10 events Debounce.init)))
    (handleHeaderScroll initial header).

(** The back-to-top button at time [T] (wait 50, no run at load). *)
Definition backToTop_at (initial : Q) (events : list (Z * Q)) (T : Z)
    (btn : Element) : Element :=
  replay BackToTop.toggleBackToTop initial events
    (Debounce.invoked (Debounce.advance T (Debounce.run 50 events Debounce.init)))
    btn.

End ScrollCoordinator.

(** The [input] and [blur] listeners of the form controls, and the
    part of the [submit] listener that runs after the simulated delay. *)
Module FormEvents.
Import ContactForm.

Definition onBlur (field : Field) : completion Field :=
  '(_, field') ← validateField field; mret field'.

Definition onInput (field : Field) : completion Field :=
  if has_class "error" (node field)
  then '(_, field') ← validateField field; mret field'
  else mret field.

(** What [validateField] leaves of a field other than the subject,
    according to the validity it found. *)
Definition validated (ok : bool) (f : Field) : Field :=
  if ok then
    set_node f (classList_remove "error" (node f))
      ((λ e, classList_remove "visible" (set_textContent "" e)) <$> errorElement f)
  else
    set_node f (classList_add "error" (node f))
      ((λ e, classList_add "visible" (set_textContent (errorMessages (name f)) e))
       <$> errorElement f).

(** [form.reset()]: every control takes its default value again;
    [defaults] gives the default value of the control at each position. *)
Definition reset (defaults : nat → jsstring) (fs : list Field) : list Field :=
  imap (λ i f, {| name := name f; value := defaults i; required := required f;
                  node := node f; errorElement := errorElement f |}) fs.

(** What the continuation leaves behind: the form, whether [alert] was
    called, and whether the 5000ms timer that hides the success message
    was set. *)
Record outcome := mkOutcome {
  after : form;
  alerted : bool;
  hide_scheduled : bool
}.

(** [form.reset] names the method only if no control of the form does:
    a control whose name or id is [reset] is what the form returns for
    that property, and calling it throws a [TypeError].  [others] says
    whether a control besides the fields and the submit button is so
    named. *)
Definition reset_shadowed (others : bool) (fm : form) : bool :=
  others
  || existsb (λ f, bool_decide (name f = "reset")
                   || bool_decide (getAttribute "id" (node f)
                                   = Some (of_string "reset")))
       (fields fm)
  || match submitBtn fm with
     | Some btn =>
         bool_decide (getAttribute "name" (button btn) = Some (of_string "reset"))
         || bool_decide (getAttribute "id" (button btn) = Some (of_string "reset"))
     | None => false
     end.

(** The [try]/[catch]/[finally] of the [submit] listener, resumed when
    the 1500ms delay is over.  A missing success message makes the
    [try] block throw at once, a shadowed [form.reset] makes it throw
    once the message is shown; the [catch] block reports either. *)
Definition onSubmitResume (defaults : nat → jsstring) (others : bool) (fm : form)
  : completion outcome :=
  let tried :=
    match successMessage fm with
    | Some msg =>
        if reset_shadowed others fm then
          ({| fields := fields fm;
              submitBtn := submitBtn fm;
              successMessage := Some (classList_add "visible" msg);
              focused := focused fm;
              submitting := false |}, true, false)
        else
          ({| fields := reset defaults (fields fm);
              submitBtn := submitBtn fm;
              successMessage := Some (classList_add "visible" msg);
              focused := focused fm;
              submitting := false |}, false, true)
    | None =>
        ({| fields := fields fm;
            submitBtn := submitBtn fm;
            successMessage := None;
            focused := focused fm;
            submitting := false |}, true, false)
    end in
  let '(fm', alert, hide) := tried in
  btn ← deref (submitBtn fm');
  mret {| after := {| fields := fields fm';
                      submitBtn := Some {| button := classList_remove "loading" (button btn);
                                           disabled := false |};
                      successMessage := successMessage fm';
                      focused := focused fm';
                      submitting := submitting fm' |};
          alerted := alert;
          hide_scheduled := hide |}.

(** The callback of the 5000ms timer. *)
Definition onHideSuccess (fm : form) : completion form :=
  msg ← deref (successMessage fm);
  mret {| fields := fields fm;
          submitBtn := submitBtn fm;
          successMessage := Some (classList_remove "visible" msg);
          focused := focused fm;
          submitting := submitting fm |}.

(** A repetition count that the upper bound of a quantifier allows. *)
Definition allowed (n : nat) (hi : option nat) : Prop :=
  match hi with
  | Some h => (n ≤ h)%nat
  | None => True
  end.

(** The shape the e-mail pattern asks for: [local@domain.tld]. *)
Definition email_shape (v : jsstring) : Prop :=
  ∃ loc dom tld,
    v = loc ++ [64%N] ++ dom ++ [46%N] ++ tld
    ∧ loc ≠ [] ∧ Forall (λ c, local_class c = true) loc
    ∧ dom ≠ [] ∧ Forall (λ c, domain_class c = true) dom
    ∧ (2 ≤ length tld)%nat ∧ Forall (λ c, alpha_class c = true) tld.

End FormEvents.

(** [initKeyboardNav]: the [keydown] listener of the link at position
    [index] among [length] links gives the position of the link to
    focus, or [None] for a key it leaves alone.  [%] is the remainder
    that takes the sign of the dividend. *)
Module KeyboardNav.

Definition onKeydown (key : string) (index length : nat) : option nat :=
  if bool_decide (key = "ArrowRight") || bool_decide (key = "ArrowDown") then
    Some (Z.to_nat (Z.rem (Z.of_nat index + 1) (Z.of_nat length)))
  else if bool_decide (key = "ArrowLeft") || bool_decide (key = "ArrowUp") then
    Some (Z.to_nat (Z.rem (Z.of_nat index - 1 + Z.of_nat length) (Z.of_nat length)))
  else None.

End KeyboardNav.

(** [initParallax]: scroll events request at most one animation frame
    at a time; the frame callback moves the particles by 0.3 times the
    scroll offset it reads, kept here as that offset. *)
Module Parallax.

Record state := mkState {
  ticking : bool;
  requested : nat;
  moved_for : option Q
}.

Inductive event := Scroll | Frame (pageYOffset : Q).

Definition init : state :=
  {| ticking := false; requested := 0; moved_for := None |}.

Definition onScroll (s : state) : state :=
  if negb (ticking s)
  then {| ticking := true; requested := S (requested s); moved_for := moved_for s |}
  else s.

(** An animation frame: the browser runs the callbacks requested so
    far; each reads the offset and clears the flag. *)
Definition onFrame (scrolled : Q) (s : state) : state :=
  match requested s with
  | O => s
  | S _ => {| ticking := false; requested := 0; moved_for := Some scrolled |}
  end.

Definition step (s : state) (e : event) : state :=
  match e with
  | Scroll => onScroll s
  | Frame y => onFrame y s
  end.

Definition run (events : list event) (s : state) : state := foldl step s events.

End Parallax.

(** The batches an intersection observer delivers: an entry is only
    made for a target that is observed, and a target has one entry in
    a batch. *)
Module Delivery.

Definition deliverable (observed : gset nat) (entries : list entry) : Prop :=
  NoDup (target <$> entries) ∧ Forall (λ e, target e ∈ observed) entries.

Fixpoint stats_run (batches : list (Q * list entry)) (s : StatsCounter.state)
  : StatsCounter.state :=
  match batches with
  | [] => s
  | (now, b) :: rest => stats_run rest (StatsCounter.callback now b s)
  end.

Fixpoint stats_wellformed (batches : list (Q * list entry))
    (s : StatsCounter.state) : Prop :=
  match batches with
  | [] => True
  | (now, b) :: rest =>
      deliverable (StatsCounter.observed s) b
      ∧ stats_wellformed rest (StatsCounter.callback now b s)
  end.

(** The animations started on the element at position [i]. *)
Definition started (i : nat) (s : StatsCounter.state) : list StatsCounter.animation :=
  filter (λ a, StatsCounter.element a = i) (StatsCounter.animations s).

(** What ties the animations to the observation: an element that is
    still observed has no animation, no element has more than one, and
    every animation aims at what [parseInt] reads in [data-count]. *)
Definition stats_inv (els : list Element) (s : StatsCounter.state) : Prop :=
  StatsCounter.statNumbers s = els
  ∧ (∀ i, i ∈ StatsCounter.observed s → started i s = [])
  ∧ (∀ i, (length (started i s) ≤ 1)%nat)
  ∧ Forall (λ a, ∃ el, els !! StatsCounter.element a = Some el
                       ∧ StatsCounter.anim_target a
                         = parseInt (attribute_string (getAttribute "data-count" el)))
      (StatsCounter.animations s).

(** No entry of [entries] is an intersecting entry for element [i]. *)
Definition untriggered (i : nat) (entries : list entry) : Prop :=
  Forall (λ e, ¬ (target e = i ∧ isIntersecting e = true)) entries.

End Delivery.

(* ================================================================== *)
(** * Properties *)
(* ================================================================== *)

Section DOMTokenList_facts.
Implicit Types (c d : string) (cl : DOMTokenList.t).

Lemma contains_true c cl : DOMTokenList.contains c cl = true ↔ c ∈ cl.
Proof. unfold DOMTokenList.contains. apply bool_decide_eq_true. Qed.

Lemma contains_false c cl : DOMTokenList.contains c cl = false ↔ c ∉ cl.
Proof. unfold DOMTokenList.contains. apply bool_decide_eq_false. Qed.

Lemma elem_of_add c d cl : d ∈ DOMTokenList.add c cl ↔ d = c ∨ d ∈ cl.
Proof.
  unfold DOMTokenList.add.
  destruct (DOMTokenList.contains c cl) eqn:E.
  - apply contains_true in E. split; [tauto | by intros [-> | ?]].
  - rewrite elem_of_app, list_elem_of_singleton. tauto.
Qed.

Lemma elem_of_remove c d cl : d ∈ DOMTokenList.remove c cl ↔ d ≠ c ∧ d ∈ cl.
Proof. unfold DOMTokenList.remove. by rewrite list_elem_of_filter. Qed.

Lemma remove_absent c cl : c ∉ cl → DOMTokenList.remove c cl = cl.
Proof.
  unfold DOMTokenList.remove. induction cl as [|x cl IH]; intros H; [done|].
  rewrite not_elem_of_cons in H. destruct H as [Hx Hcl].
  rewrite filter_cons_True by congruence. by rewrite IH.
Qed.

Lemma contains_add c cl : DOMTokenList.contains c (DOMTokenList.add c cl) = true.
Proof. apply contains_true, elem_of_add. auto. Qed.

Lemma contains_remove c cl :
  DOMTokenList.contains c (DOMTokenList.remove c cl) = false.
Proof. apply contains_false. rewrite elem_of_remove. tauto. Qed.

End DOMTokenList_facts.

Lemma Qltb_true x y : Qltb x y = true ↔ (x < y)%Q.
Proof.
  unfold Qltb. destruct (Qlt_le_dec x y) as [H|H]; split; try done.
  intros H'. exfalso. eapply Qlt_not_le; eauto.
Qed.

Lemma Qltb_false x y : Qltb x y = false ↔ (y <= x)%Q.
Proof.
  unfold Qltb. destruct (Qlt_le_dec x y) as [H|H]; split; try done.
  intros H'. exfalso. eapply Qlt_not_le; eauto.
Qed.

(** C8. After [handleHeaderScroll] runs, the header carries the
    [scrolled] class exactly when the scroll offset is strictly greater
    than the 100px threshold, whatever classes it carried before. *)
Theorem handleHeaderScroll_scrolled_iff (scrollY : Q) (header : Element) :
  config.scrollThreshold = 100%Q
  ∧ (has_class "scrolled" (handleHeaderScroll scrollY header) = true
     ↔ (100 < scrollY)%Q)
  ∧ ((scrollY <= 100)%Q →
     has_class "scrolled" (handleHeaderScroll scrollY header) = false).
Proof.
  split; [reflexivity|].
  unfold handleHeaderScroll, has_class.
  destruct (Qltb config.scrollThreshold scrollY) eqn:E.
  - apply Qltb_true in E. change config.scrollThreshold with 100%Q in E.
    cbn [classList_add set_classList classList].
    rewrite contains_add. split; [tauto|].
    intros H. exfalso. eapply Qlt_not_le; eauto.
  - apply Qltb_false in E. change config.scrollThreshold with 100%Q in E.
    cbn [classList_remove set_classList classList].
    rewrite contains_remove. split; [|done].
    split; [done|]. intros H. exfalso. eapply Qlt_not_le; eauto.
Qed.

Lemma bind_Normal {A B} (f : A → completion B) (a : A) :
  (Normal a ≫= f) = f a.
Proof. reflexivity. Qed.

Lemma setAttribute_same k v e :
  attributes e !! k = Some v → setAttribute k v e = e.
Proof.
  intros H. destruct e as [cl ats tc]. unfold setAttribute. cbn in *.
  by rewrite insert_id.
Qed.

Lemma has_class_add_ne c d el :
  c ≠ d → has_class c (classList_add d el) = has_class c el.
Proof.
  intros Hne. unfold has_class, classList_add. cbn.
  apply bool_decide_ext. rewrite elem_of_add. intuition congruence.
Qed.

Lemma has_class_remove_ne c d el :
  c ≠ d → has_class c (classList_remove d el) = has_class c el.
Proof.
  intros Hne. unfold has_class, classList_remove. cbn.
  apply bool_decide_ext. rewrite elem_of_remove. intuition congruence.
Qed.

Lemma classList_add_idem c el :
  classList_add c (classList_add c el) = classList_add c el.
Proof.
  unfold classList_add, set_classList. cbn [classList attributes textContent].
  f_equal. unfold DOMTokenList.add at 1. by rewrite contains_add.
Qed.

Lemma classList_remove_idem c el :
  classList_remove c (classList_remove c el) = classList_remove c el.
Proof.
  unfold classList_remove, set_classList. cbn [classList attributes textContent].
  f_equal. apply remove_absent. rewrite elem_of_remove. tauto.
Qed.

Lemma classList_remove_absent c e :
  has_class c e = false → classList_remove c e = e.
Proof.
  intros H. apply contains_false in H. destruct e as [cl ats tc].
  unfold classList_remove, set_classList, has_class in *.
  cbn [classList attributes textContent] in *.
  by rewrite remove_absent.
Qed.

Lemma closeMobileMenu_closed s :
  Menu.closed s → Menu.closeMobileMenu s = Normal s.
Proof.
  intros ([menu [Hm Ho]] & [toggle [Ht Ha]] & Hb).
  unfold Menu.closeMobileMenu. rewrite Hm, Ht. cbn.
  rewrite !classList_remove_absent, setAttribute_same by done.
  destruct s; cbn in *; by subst.
Qed.

Lemma onKeydown_closed key s :
  Menu.closed s → Menu.onKeydown key s = Normal s.
Proof.
  intros Hc. pose proof Hc as ([menu [Hm Ho]] & _).
  unfold Menu.onKeydown. case_bool_decide; [|done].
  rewrite Hm. cbn. by rewrite Ho.
Qed.

Lemma closeMobileMenu_makes_closed s s' :
  Menu.closeMobileMenu s = Normal s' → Menu.closed s'.
Proof.
  unfold Menu.closeMobileMenu.
  destruct (Menu.navMenu s) as [menu |]; [| done].
  destruct (Menu.navToggle s) as [toggle |]; [| done].
  cbn [deref]. rewrite !bind_Normal. intros H. injection H as <-.
  split; [| split].
  - eexists. split; [reflexivity |]. apply contains_remove.
  - eexists. split; [reflexivity |]. apply lookup_insert_eq.
  - apply contains_remove.
Qed.

(** C6. Closing is idempotent.  Where the menu listeners are installed,
    [closeMobileMenu] returns normally with the menu closed, and closing
    again changes nothing.  On an already-closed menu it returns
    normally and leaves the state as it was, and so does the Escape
    listener, pressed once or twice: it acts only on an open menu. *)
Theorem closeMobileMenu_idempotent (s : Menu.state) :
  Menu.initMobileNav s = true →
  (∃ s', Menu.closeMobileMenu s = Normal s'
         ∧ Menu.closed s'
         ∧ Menu.closeMobileMenu s' = Normal s')
  ∧ (Menu.closed s →
     Menu.closeMobileMenu s = Normal s
     ∧ Menu.onKeydown "Escape" s = Normal s
     ∧ (Menu.onKeydown "Escape" s ≫= Menu.onKeydown "Escape") = Normal s).
Proof.
  intros Hinit. split.
  - unfold Menu.initMobileNav in Hinit.
    destruct (Menu.closeMobileMenu s) as [s' |] eqn:E.
    + pose proof (closeMobileMenu_makes_closed s s' E) as Hc.
      exists s'. split; [done |]. split; [done |]. by apply closeMobileMenu_closed.
    + unfold Menu.closeMobileMenu in E.
      destruct (Menu.navToggle s), (Menu.navMenu s); done.
  - intros Hc. rewrite closeMobileMenu_closed, onKeydown_closed by done.
    rewrite !bind_Normal. by rewrite onKeydown_closed.
Qed.

(* ------------------------------------------------------------------ *)
(** ** Debounce *)
(* ------------------------------------------------------------------ *)

Section debounce_facts.
Context {A : Type}.
Variable wait : Z.
Hypothesis wait_nonneg : 0 ≤ wait.

Abbreviation state := (@Debounce.state A).
Abbreviation pending := (@Debounce.pending A wait).

Lemma advance_idle now (s : state) :
  Debounce.timers s = [] → Debounce.advance now s = s.
Proof. intros H. unfold Debounce.advance. by rewrite H. Qed.

Lemma advance_pending_before now (s : state) t a :
  pending s t a → now < t + wait → Debounce.advance now s = s.
Proof.
  intros (h & Ht & _) Hlt. unfold Debounce.advance. rewrite Ht. cbn.
  rewrite Ht. cbn. destruct (Z.leb_spec (t + wait) now); [lia | done].
Qed.

Lemma advance_pending_after now (s : state) t a :
  pending s t a → t + wait ≤ now →
  Debounce.advance now s =
    Debounce.mkState (Debounce.timeout s) [] (Debounce.next_handle s)
                     (Debounce.invoked s ++ [(t + wait, a)]).
Proof.
  intros (h & Ht & Hh) Hle. unfold Debounce.advance. rewrite Ht. cbn.
  rewrite Ht. cbn. destruct (Z.leb_spec (t + wait) now); [| lia].
  unfold Debounce.fire, Debounce.later. cbn. rewrite Ht, Hh. cbn.
  rewrite decide_False by (intros Hne; by apply Hne). done.
Qed.

Lemma executedFunction_pending t a (s : state) :
  Debounce.timers s = [] ∨ (∃ t0 a0, pending s t0 a0) →
  pending (Debounce.executedFunction wait t a s) t a
  ∧ Debounce.invoked (Debounce.executedFunction wait t a s) = Debounce.invoked s.
Proof.
  intros H. split; [| done]. exists (Debounce.next_handle s).
  unfold Debounce.executedFunction. cbn. split; [| done].
  rewrite Z.max_r by done.
  destruct H as [H | (t0 & a0 & h & Ht & Hh)].
  - rewrite H. by destruct (Debounce.timeout s).
  - rewrite Ht, Hh. cbn.
    rewrite decide_False by (intros Hne; by apply Hne). done.
Qed.

Lemma run_burst (rest : list (Z * A)) : ∀ t a (s : state),
  pending s t a → Debounce.within wait t rest →
  ∃ tn an, last ((t, a) :: rest) = Some (tn, an)
           ∧ pending (Debounce.run wait rest s) tn an
           ∧ Debounce.invoked (Debounce.run wait rest s) = Debounce.invoked s.
Proof.
  induction rest as [| [t' a'] rest IH]; intros t a s Hp Hw.
  - exists t, a. done.
  - destruct Hw as [Hgap Hw]. cbn [Debounce.run].
    rewrite (advance_pending_before t' s t a) by (done || lia).
    destruct (executedFunction_pending t' a' s) as [Hp' Hi'].
    { right. eauto. }
    destruct (IH t' a' _ Hp' Hw) as (tn & an & Hl & Hpn & Hin).
    exists tn, an. split; [| split; [done | congruence]].
    by rewrite last_cons_cons.
Qed.

End debounce_facts.

(** C3. Start with no timer pending.  A burst of calls of the debounced
    wrapper, each arriving within [wait] of the previous one, leaves
    exactly one timer pending (every call cleared the timer of the call
    before it); [func] is not called while the burst lasts, and is
    called exactly once afterwards, [wait] after the last call of the
    burst and with that call's arguments. *)
Theorem debounce_burst_once {A : Type} (wait t1 : Z) (a1 : A)
    (rest : list (Z * A)) (tn : Z) (an : A) (T : Z) (s0 : Debounce.state) :
  0 ≤ wait →
  Debounce.timers s0 = [] →
  Debounce.within wait t1 rest →
  last ((t1, a1) :: rest) = Some (tn, an) →
  let s := Debounce.run wait ((t1, a1) :: rest) s0 in
  (∃ h, Debounce.timers s = [Debounce.mkTimer h (tn + wait) an]
        ∧ Debounce.timeout s = Some h)
  ∧ Debounce.invoked s = Debounce.invoked s0
  ∧ Debounce.invoked (Debounce.advance T s)
    = Debounce.invoked s0
      ++ (if bool_decide (tn + wait ≤ T) then [(tn + wait, an)] else [])
  ∧ (tn + wait ≤ T → Debounce.timers (Debounce.advance T s) = []).
Proof.
  intros Hw Hidle Hburst Hlast s.
  assert (Hs : Debounce.pending wait s tn an
               ∧ Debounce.invoked s = Debounce.invoked s0).
  { subst s. cbn [Debounce.run].
    rewrite advance_idle by done.
    destruct (executedFunction_pending wait Hw t1 a1 s0) as [Hp Hi].
    { by left. }
    destruct (run_burst wait Hw rest t1 a1 _ Hp Hburst) as (tn' & an' & Hl & Hpn & Hin).
    rewrite Hlast in Hl. injection Hl as <- <-.
    split; [done |]. by rewrite Hin, Hi. }
  clearbody s. destruct Hs as [Hp Hi]. split; [exact Hp |]. split; [exact Hi |].
  case_bool_decide as HT.
  - rewrite (advance_pending_after wait T s tn an) by done. cbn.
    split; [by rewrite Hi | done].
  - rewrite (advance_pending_before wait T s tn an) by (done || lia).
    split; [by rewrite Hi, app_nil_r | lia].
Qed.

Lemma debounce_burst_once_witness :
  0 ≤ 50
  ∧ Debounce.within 50 0 [(10, "b"); (40, "c")]
  ∧ last ((0, "a") :: [(10, "b"); (40, "c")]) = Some (40, "c")
  ∧ Debounce.invoked
      (Debounce.advance 100
         (Debounce.run 50 ((0, "a") :: [(10, "b"); (40, "c")]) Debounce.init))
    = [(90, "c")].
Proof.
  assert (H1 : 0 ≤ 50) by lia.
  assert (H2 : Debounce.within 50 0 [(10, "b"); (40, "c")]) by (cbn; lia).
  assert (H3 : last ((0, "a") :: [(10, "b"); (40, "c")]) = Some (40, "c"))
    by reflexivity.
  split; [exact H1 |]. split; [exact H2 |]. split; [exact H3 |].
  exact (proj1 (proj2 (proj2
    (debounce_burst_once 50 0 "a" [(10, "b"); (40, "c")] 40 "c" 100
       Debounce.init H1 eq_refl H2 H3)))).
Defined.

(* ------------------------------------------------------------------ *)
(** ** Count animation *)
(* ------------------------------------------------------------------ *)

Lemma square_nonneg (x : Q) : (0 <= x * x)%Q.
Proof.
  destruct (Qlt_le_dec x 0) as [H | H].
  - assert (E : (x * x == (- x) * (- x))%Q) by ring.
    rewrite E. apply Qmult_le_0_compat; lra.
  - by apply Qmult_le_0_compat.
Qed.

Lemma cube_mono (x y : Q) : (x <= y → x ^ 3 <= y ^ 3)%Q.
Proof.
  intros H. simpl.
  assert (H0 : (0 <= (y - x) * ((x + y) * (x + y) + x * x + y * y))%Q).
  { apply Qmult_le_0_compat; [lra |].
    pose proof (square_nonneg (x + y)). pose proof (square_nonneg x).
    pose proof (square_nonneg y). lra. }
  assert (E : ((y - x) * ((x + y) * (x + y) + x * x + y * y)
               == 2 * (y * y * y - x * x * x))%Q) by ring.
  rewrite E in H0. lra.
Qed.

Lemma cube_nonneg (x : Q) : (0 <= x → 0 <= x ^ 3)%Q.
Proof.
  intros H. simpl. apply Qmult_le_0_compat; [done |].
  by apply Qmult_le_0_compat.
Qed.

Lemma div_duration_mono (x y : Q) : (x <= y → x / Count.duration <= y / Count.duration)%Q.
Proof.
  intros H. unfold Qdiv. apply Qmult_le_compat_r; [done |].
  by vm_compute.
Qed.

Section count_facts.
Variable rnd : Q → Q.
Hypothesis rnd_mono : ∀ x y, (x <= y → rnd x <= rnd y)%Q.
Hypothesis rnd_0 : (rnd 0 == 0)%Q.
Hypothesis rnd_1 : (rnd 1 == 1)%Q.

Abbreviation progress := (Count.progress rnd).
Abbreviation easeProgress := (Count.easeProgress rnd).

Lemma rnd_nonneg x : (0 <= x → 0 <= rnd x)%Q.
Proof.
  intros H. apply Qle_trans with (rnd 0); [| by apply rnd_mono].
  rewrite rnd_0. apply Qle_refl.
Qed.

Lemma rnd_le_1 x : (x <= 1 → rnd x <= 1)%Q.
Proof.
  intros H. apply Qle_trans with (rnd 1); [by apply rnd_mono |].
  rewrite rnd_1. apply Qle_refl.
Qed.

Lemma progress_le_1 st t : (progress st t <= 1)%Q.
Proof. unfold Count.progress. apply Q.le_min_r. Qed.

Lemma progress_mono st t1 t2 : (t1 <= t2 → progress st t1 <= progress st t2)%Q.
Proof.
  intros H. unfold Count.progress, Count.elapsed.
  apply Q.min_le_compat_r, rnd_mono, div_duration_mono, rnd_mono. lra.
Qed.

Lemma progress_nonneg st t : (st <= t → 0 <= progress st t)%Q.
Proof.
  intros H. unfold Count.progress, Count.elapsed.
  apply Q.min_glb; [| lra]. apply rnd_nonneg.
  assert (E : (0 == 0 / Count.duration)%Q) by reflexivity.
  rewrite E. apply div_duration_mono, rnd_nonneg. lra.
Qed.

Lemma easeProgress_mono st t1 t2 :
  (t1 <= t2 → easeProgress st t1 <= easeProgress st t2)%Q.
Proof.
  intros H. unfold Count.easeProgress. apply rnd_mono.
  pose proof (progress_mono st t1 t2 H) as Hp.
  assert (Hc : (rnd (rnd (1 - progress st t2) ^ 3)
                <= rnd (rnd (1 - progress st t1) ^ 3))%Q).
  { apply rnd_mono, cube_mono, rnd_mono. lra. }
  lra.
Qed.

Lemma easeProgress_le_1 st t : (easeProgress st t <= 1)%Q.
Proof.
  unfold Count.easeProgress. apply rnd_le_1.
  assert (Hc : (0 <= rnd (rnd (1 - progress st t) ^ 3))%Q).
  { apply rnd_nonneg, cube_nonneg, rnd_nonneg.
    pose proof (progress_le_1 st t). lra. }
  lra.
Qed.

Lemma easeProgress_nonneg st t : (st <= t → 0 <= easeProgress st t)%Q.
Proof.
  intros H. unfold Count.easeProgress. apply rnd_nonneg.
  assert (Hc : (rnd (rnd (1 - progress st t) ^ 3) <= 1)%Q).
  { apply rnd_le_1. pose proof (progress_nonneg st t H) as Hp.
    assert (Hr : (rnd (1 - progress st t) <= 1)%Q) by (apply rnd_le_1; lra).
    apply Qle_trans with (1 ^ 3)%Q; [by apply cube_mono | by vm_compute]. }
  lra.
Qed.

(** The integer [updateCount] computes for an integer target. *)
Lemma current_Int z st t :
  ∃ c, Count.current rnd (Int z) st t = Int c.
Proof. eexists. reflexivity. Qed.

Section target.
Variable z : Z.
Hypothesis target_nonneg : (0 <= z)%Z.
Hypothesis target_exact : (rnd (inject_Z z) == inject_Z z)%Q.

Abbreviation currentZ := (Count.currentZ rnd z).

Lemma target_Q_nonneg : (0 <= inject_Z z)%Q.
Proof. change 0%Q with (inject_Z 0). by rewrite <- Zle_Qle. Qed.

Lemma scaled_mono (e1 e2 : Q) :
  (e1 <= e2)%Q →
  (Qfloor (rnd (Count.start + rnd (rnd (inject_Z z - Count.start) * e1))%Q)
   <= Qfloor (rnd (Count.start + rnd (rnd (inject_Z z - Count.start) * e2))%Q))%Z.
Proof.
  intros H. apply Qfloor_resp_le, rnd_mono.
  assert (Hz : (0 <= rnd (inject_Z z - Count.start))%Q).
  { apply rnd_nonneg. unfold Count.start.
    pose proof target_Q_nonneg. lra. }
  assert (Hm : (rnd (rnd (inject_Z z - Count.start) * e1)
                <= rnd (rnd (inject_Z z - Count.start) * e2))%Q).
  { apply rnd_mono. rewrite !(Qmult_comm (rnd _)).
    by apply Qmult_le_compat_r. }
  lra.
Qed.

Lemma currentZ_mono st t1 t2 : (t1 <= t2)%Q → (currentZ st t1 <= currentZ st t2)%Z.
Proof. intros H. by apply scaled_mono, easeProgress_mono. Qed.

Lemma currentZ_le_target st t : (currentZ st t <= z)%Z.
Proof.
  unfold Count.currentZ.
  assert (E : z = Qfloor (inject_Z z)) by (by rewrite Qfloor_Z).
  rewrite E at 2. apply Qfloor_resp_le.
  pose proof target_Q_nonneg as Hz0.
  assert (Hz : (rnd (inject_Z z - Count.start) == inject_Z z)%Q).
  { apply Qle_antisym.
    - apply Qle_trans with (rnd (inject_Z z)).
      + apply rnd_mono. unfold Count.start. lra.
      + rewrite target_exact. apply Qle_refl.
    - apply Qle_trans with (rnd (inject_Z z)).
      + rewrite target_exact. apply Qle_refl.
      + apply rnd_mono. unfold Count.start. lra. }
  assert (Hm : (rnd (rnd (inject_Z z - Count.start) * easeProgress st t)
                <= inject_Z z)%Q).
  { apply Qle_trans with (rnd (inject_Z z)).
    - apply rnd_mono. rewrite Hz.
      pose proof (easeProgress_le_1 st t) as He.
      assert (E1 : (inject_Z z == inject_Z z * 1)%Q) by ring.
      rewrite E1 at 2. rewrite !(Qmult_comm (inject_Z z)).
      by apply Qmult_le_compat_r.
    - rewrite target_exact. apply Qle_refl. }
  apply Qle_trans with (rnd (inject_Z z)).
  - apply rnd_mono. unfold Count.start in *. lra.
  - rewrite target_exact. apply Qle_refl.
Qed.

End target.
End count_facts.

Section animation_runs.
Variable rnd : Q → Q.

Lemma updateCount_final target st t :
  (1 <= Count.progress rnd st t)%Q →
  Count.updateCount rnd target st t
  = ([Count.current rnd target st t; target], false).
Proof.
  intros H. unfold Count.updateCount.
  by rewrite (proj2 (Qltb_false _ _) H).
Qed.


Lemma animateCount_cons target st t rest :
  Count.animateCount rnd target st (t :: rest)
  = if Qltb (Count.progress rnd st t) 1
    then Count.current rnd target st t :: Count.animateCount rnd target st rest
    else [Count.current rnd target st t; target].
Proof.
  cbn [Count.animateCount]. unfold Count.updateCount.
  destruct (Qltb _ _); [done | by rewrite app_nil_r].
Qed.

Lemma animateCount_app_running target st (pre : list Q) rest :
  Forall (λ t, (Count.progress rnd st t < 1)%Q) pre →
  Count.animateCount rnd target st (pre ++ rest)
  = (Count.current rnd target st <$> pre) ++ Count.animateCount rnd target st rest.
Proof.
  induction pre as [| t pre IH]; intros H; [done |].
  apply Forall_cons in H as [Ht Hpre].
  cbn [app]. rewrite animateCount_cons, (proj2 (Qltb_true _ _) Ht), IH by done.
  done.
Qed.

Lemma animateCount_completes_last target st frames :
  Count.completes rnd st frames →
  last (Count.animateCount rnd target st frames) = Some target.
Proof.
  unfold Count.completes. induction frames as [| t rest IH]; intros H.
  - by apply Exists_nil in H.
  - rewrite animateCount_cons.
    destruct (Qltb (Count.progress rnd st t) 1) eqn:E; [| done].
    apply Qltb_true in E. apply Exists_cons in H as [H | H].
    + exfalso. eapply Qlt_not_le; eauto.
    + specialize (IH H).
      destruct (Count.animateCount rnd target st rest) as [| w ws]; [done |].
      by rewrite last_cons_cons.
Qed.



End animation_runs.

Lemma display_last (writes : list number) (w : number) (e : Element) :
  last writes = Some w →
  textContent (Count.display writes e) = ToString w.
Proof.
  intros H. apply last_Some in H as [ws ->].
  unfold Count.display. by rewrite foldl_app.
Qed.

Lemma ToString_safe (z : Z) : Z.abs z < 2 ^ 53 → ToString (Int z) = pretty z.
Proof.
  intros H. cbn [ToString]. by rewrite (proj2 (Z.ltb_lt _ _) H).
Qed.

(** C5. Whatever the rounding of the intermediate arithmetic, on the
    frame where progress reaches 1 [updateCount] assigns the target
    itself last and requests no further frame; an animation that runs
    to completion therefore ends with the target as its last write, and
    the element displays the target: the text is [ToString] of it, which
    for a target below 2^53 in magnitude is the decimal notation of the
    integer. *)
Theorem animateCount_final_exact (rnd : Q → Q) (z : Z) (startTime : Q)
    (frames : list Q) (element : Element) :
  Count.completes rnd startTime frames →
  (∀ t, (1 <= Count.progress rnd startTime t)%Q →
        Count.updateCount rnd (Int z) startTime t
        = ([Count.current rnd (Int z) startTime t; Int z], false))
  ∧ last (Count.animateCount rnd (Int z) startTime frames) = Some (Int z)
  ∧ textContent
      (Count.display (Count.animateCount rnd (Int z) startTime frames) element)
    = ToString (Int z)
  ∧ (Z.abs z < 2 ^ 53 →
     textContent
       (Count.display (Count.animateCount rnd (Int z) startTime frames) element)
     = pretty z).
Proof.
  intros H. split; [intros t; apply updateCount_final |].
  pose proof (animateCount_completes_last rnd (Int z) startTime frames H) as Hl.
  split; [done |]. rewrite (display_last _ _ _ Hl).
  split; [done |]. apply ToString_safe.
Qed.

Lemma animateCount_final_exact_witness :
  Count.completes (λ x, x) 0 [1000%Q; 2000%Q]
  ∧ textContent
      (Count.display (Count.animateCount (λ x, x) (Int 250) 0 [1000%Q; 2000%Q])
         (mkElement ["stat__number"] ∅ "0"))
    = "250".
Proof.
  assert (H : Count.completes (λ x, x) 0 [1000%Q; 2000%Q]).
  { apply Exists_cons_tl, Exists_cons_hd. by vm_compute. }
  split; [exact H |].
  refine (proj2 (proj2 (proj2 (animateCount_final_exact (λ x, x) 250 0
                         [1000%Q; 2000%Q] (mkElement ["stat__number"] ∅ "0") H))) _).
  by vm_compute.
Defined.

Section animation_values.
Variable rnd : Q → Q.
Hypothesis rnd_mono : ∀ x y, (x <= y → rnd x <= rnd y)%Q.
Hypothesis rnd_0 : (rnd 0 == 0)%Q.
Hypothesis rnd_1 : (rnd 1 == 1)%Q.
Variable z : Z.
Hypothesis target_nonneg : 0 ≤ z.
Hypothesis target_exact : (rnd (inject_Z z) == inject_Z z)%Q.

Lemma animateCount_values st frames :
  StronglySorted Qle frames →
  ∃ zs, Count.animateCount rnd (Int z) st frames = Int <$> zs
        ∧ Forall (λ w, w = z ∨ ∃ t, t ∈ frames ∧ w = Count.currentZ rnd z st t) zs
        ∧ StronglySorted Z.le zs.
Proof.
  induction frames as [| t rest IH]; intros Hs.
  - exists []. repeat split; constructor.
  - apply StronglySorted_inv in Hs as [Hrest Ht].
    rewrite animateCount_cons. cbn [Count.current].
    destruct (Qltb (Count.progress rnd st t) 1).
    + destruct (IH Hrest) as (zs & Heq & Hin & Hsorted).
      exists (Count.currentZ rnd z st t :: zs). split; [by rewrite Heq |]. split.
      * constructor; [right; exists t; split; [left | done] |].
        eapply Forall_impl; [exact Hin |]. intros w [-> | (t' & Ht' & ->)]; [by left |].
        right. exists t'. split; [by right | done].
      * constructor; [done |].
        eapply Forall_impl; [exact Hin |]. intros w [-> | (t' & Ht' & ->)].
        -- by apply currentZ_le_target.
        -- apply currentZ_mono; [done.. |].
           rewrite Forall_forall in Ht. by apply Ht.
    + exists [Count.currentZ rnd z st t; z]. split; [done |]. split.
      * constructor; [| constructor; [by left | constructor]].
        right. exists t. split; [left | done].
      * repeat constructor. by apply currentZ_le_target.
Qed.

End animation_values.

(** C9, as stated, fails on a frame whose timestamp lies before the
    start time: line 88 clamps progress from above only, so two
    milliseconds before the start the ease factor is negative and the
    value written for target 100 is -1. *)
Lemma animateCount_early_frame :
  Sorted Qle [0%Q]
  ∧ (Count.easeProgress (λ x, x) 2 0 < 0)%Q
  ∧ Count.animateCount (λ x, x) (Int 100) 2 [0%Q] = [Int (-1)].
Proof.
  split; [repeat constructor |]. split; [by vm_compute | by vm_compute].
Qed.

(** C9, amended. For a nonnegative integer target and nondecreasing
    frame timestamps, the values [animateCount] writes are integers
    that never decrease and never exceed the target; each is the target
    or the floor of the interpolation at a frame, whose ease factor is
    at most 1, nondecreasing in time and nonnegative from the start
    time on; and once the animation completes the last write is the
    target.  The double-precision arithmetic enters through its
    rounding, which is monotone and exact on 0, 1 and the target. *)
Theorem animateCount_nondecreasing (rnd : Q → Q) (z : Z) (startTime : Q)
    (frames : list Q) :
  (∀ x y, (x <= y)%Q → (rnd x <= rnd y)%Q) →
  (rnd 0 == 0)%Q → (rnd 1 == 1)%Q → (rnd (inject_Z z) == inject_Z z)%Q →
  0 ≤ z →
  Sorted Qle frames →
  Count.nondecreasing_up_to z (Count.animateCount rnd (Int z) startTime frames)
  ∧ Count.interpolated rnd z startTime frames
      (Count.animateCount rnd (Int z) startTime frames)
  ∧ (∀ t, (Count.easeProgress rnd startTime t <= 1)%Q)
  ∧ (∀ t, (startTime <= t)%Q → (0 <= Count.easeProgress rnd startTime t)%Q)
  ∧ (∀ t1 t2, (t1 <= t2)%Q →
       (Count.easeProgress rnd startTime t1 <= Count.easeProgress rnd startTime t2)%Q)
  ∧ (Count.completes rnd startTime frames →
     last (Count.animateCount rnd (Int z) startTime frames) = Some (Int z)).
Proof.
  intros Hmono H0 H1 Hz Hnn Hsorted.
  assert (Hss : StronglySorted Qle frames).
  { apply Sorted_StronglySorted; [| done]. intros a b c. apply Qle_trans. }
  destruct (animateCount_values rnd Hmono H0 H1 z Hnn Hz startTime frames Hss)
    as (zs & Heq & Hin & Hzs).
  split; [| split; [| split; [| split; [| split]]]].
  - exists zs. split; [done |]. split; [by apply StronglySorted_Sorted |].
    eapply Forall_impl; [exact Hin |]. intros w [-> | (t & _ & ->)]; [lia |].
    by apply currentZ_le_target.
  - unfold Count.interpolated. rewrite Heq. apply Forall_fmap.
    eapply Forall_impl; [exact Hin |]. intros w [-> | (t & Ht & ->)]; [by left |].
    right. by exists t.
  - intros t. by apply easeProgress_le_1.
  - intros t. by apply easeProgress_nonneg.
  - intros t1 t2. by apply easeProgress_mono.
  - apply animateCount_completes_last.
Qed.

Lemma animateCount_nondecreasing_witness :
  Sorted Qle [0%Q; 1000%Q; 2000%Q]
  ∧ Count.nondecreasing_up_to 100
      (Count.animateCount (λ x, x) (Int 100) 0 [0%Q; 1000%Q; 2000%Q])
  ∧ Count.animateCount (λ x, x) (Int 100) 0 [0%Q; 1000%Q; 2000%Q]
    = [Int 0; Int 87; Int 100; Int 100].
Proof.
  assert (Hs : Sorted Qle [0%Q; 1000%Q; 2000%Q]).
  { repeat constructor; by vm_compute. }
  split; [exact Hs |]. split; [| reflexivity].
  refine (proj1 (animateCount_nondecreasing (λ x, x) 100 0 [0%Q; 1000%Q; 2000%Q]
                   _ _ _ _ _ Hs)).
  - intros x y H. exact H.
  - reflexivity.
  - reflexivity.
  - reflexivity.
  - lia.
Defined.

(* ------------------------------------------------------------------ *)
(** ** Statistics counter *)
(* ------------------------------------------------------------------ *)

Lemma parseInt_null : parseInt (attribute_string None) = NaN.
Proof. reflexivity. Qed.



(* ------------------------------------------------------------------ *)
(** ** Scroll reveal *)
(* ------------------------------------------------------------------ *)

Section reveal_facts.
Implicit Types (s : Reveal.state) (e : entry) (i : nat).

Lemma has_class_add c el : has_class c (classList_add c el) = true.
Proof. unfold has_class, classList_add. cbn. apply contains_add. Qed.

Lemma has_class_add_mono c d el :
  has_class c el = true → has_class c (classList_add d el) = true.
Proof.
  unfold has_class, classList_add. cbn. rewrite !contains_true, elem_of_add. auto.
Qed.

Lemma on_entry_length s e :
  length (Reveal.revealElements (Reveal.on_entry s e))
  = length (Reveal.revealElements s).
Proof.
  unfold Reveal.on_entry. destruct (isIntersecting e); [| done].
  cbn. apply length_alter.
Qed.

Lemma on_entry_visible_mono i s e :
  Reveal.visible i s = true → Reveal.visible i (Reveal.on_entry s e) = true.
Proof.
  unfold Reveal.visible, Reveal.on_entry. destruct (isIntersecting e); [| done].
  cbn. destruct (decide (target e = i)) as [-> | Hne].
  - rewrite list_lookup_alter_eq. destruct (Reveal.revealElements s !! i); [| done].
    cbn. apply has_class_add_mono.
  - by rewrite list_lookup_alter_ne.
Qed.

Lemma on_entry_observed_mono i s e :
  i ∉ Reveal.observed s → i ∉ Reveal.observed (Reveal.on_entry s e).
Proof.
  unfold Reveal.on_entry. destruct (isIntersecting e); [| done]. cbn.
  rewrite elem_of_difference. tauto.
Qed.

Lemma on_entry_trigger i s e :
  target e = i → isIntersecting e = true →
  (i < length (Reveal.revealElements s))%nat →
  Reveal.visible i (Reveal.on_entry s e) = true
  ∧ i ∉ Reveal.observed (Reveal.on_entry s e).
Proof.
  intros <- Hi Hlt. unfold Reveal.visible, Reveal.on_entry. rewrite Hi. cbn.
  split; [| rewrite elem_of_difference, elem_of_singleton; tauto].
  rewrite list_lookup_alter_eq.
  destruct (lookup_lt_is_Some_2 _ _ Hlt) as [el ->]. cbn. apply has_class_add.
Qed.

Lemma callback_visible_mono i entries : ∀ s,
  Reveal.visible i s = true → Reveal.visible i (Reveal.callback entries s) = true.
Proof.
  unfold Reveal.callback. induction entries as [| e rest IH]; intros s H; [done |].
  cbn. by apply IH, on_entry_visible_mono.
Qed.

Lemma callback_observed_mono i entries : ∀ s,
  i ∉ Reveal.observed s → i ∉ Reveal.observed (Reveal.callback entries s).
Proof.
  unfold Reveal.callback. induction entries as [| e rest IH]; intros s H; [done |].
  cbn. by apply IH, on_entry_observed_mono.
Qed.

Lemma callback_length entries : ∀ s,
  length (Reveal.revealElements (Reveal.callback entries s))
  = length (Reveal.revealElements s).
Proof.
  unfold Reveal.callback. induction entries as [| e rest IH]; intros s; [done |].
  cbn. by rewrite IH, on_entry_length.
Qed.

Lemma run_callback batches : ∀ s,
  Reveal.run batches s = Reveal.callback (concat batches) s.
Proof.
  unfold Reveal.run, Reveal.callback.
  induction batches as [| b rest IH]; intros s; [done |].
  cbn. by rewrite foldl_app, IH.
Qed.

Lemma callback_trigger i entries : ∀ s,
  (i < length (Reveal.revealElements s))%nat →
  (∃ e, e ∈ entries ∧ target e = i ∧ isIntersecting e = true) →
  Reveal.visible i (Reveal.callback entries s) = true
  ∧ i ∉ Reveal.observed (Reveal.callback entries s).
Proof.
  induction entries as [| e rest IH]; intros s Hlt (e' & Hin & Ht & Hi).
  - by apply elem_of_nil in Hin.
  - change (Reveal.callback (e :: rest) s)
      with (Reveal.callback rest (Reveal.on_entry s e)).
    apply elem_of_cons in Hin as [-> | Hin].
    + destruct (on_entry_trigger i s e Ht Hi Hlt) as [Hv Ho].
      split; [by apply callback_visible_mono | by apply callback_observed_mono].
    + apply IH; [by rewrite on_entry_length | eauto].
Qed.

Lemma additions_bound i entries : ∀ s,
  (Reveal.additions i entries s
   ≤ if Reveal.visible i s then 0 else 1)%nat.
Proof.
  induction entries as [| e rest IH]; intros s.
  - cbn. destruct (Reveal.visible i s); lia.
  - cbn [Reveal.additions]. specialize (IH (Reveal.on_entry s e)).
    destruct (Reveal.visible i s) eqn:Hv.
    + rewrite (on_entry_visible_mono i s e Hv) in *. cbn. lia.
    + destruct (Reveal.visible i (Reveal.on_entry s e)); cbn; lia.
Qed.

End reveal_facts.

Section reveal_more.
Implicit Types (s : Reveal.state) (e : entry) (i : nat).

Abbreviation untriggered := Delivery.untriggered.

Lemma on_entry_other i s e :
  ¬ (target e = i ∧ isIntersecting e = true) →
  Reveal.revealElements (Reveal.on_entry s e) !! i = Reveal.revealElements s !! i
  ∧ (i ∈ Reveal.observed (Reveal.on_entry s e) ↔ i ∈ Reveal.observed s).
Proof.
  intros H. unfold Reveal.on_entry. destruct (isIntersecting e) eqn:E; [| done].
  assert (Hne : target e ≠ i) by tauto. cbn.
  split; [by apply list_lookup_alter_ne |].
  rewrite elem_of_difference, elem_of_singleton. intuition congruence.
Qed.

Lemma callback_other i entries : ∀ s,
  untriggered i entries →
  Reveal.revealElements (Reveal.callback entries s) !! i = Reveal.revealElements s !! i
  ∧ (i ∈ Reveal.observed (Reveal.callback entries s) ↔ i ∈ Reveal.observed s).
Proof.
  unfold Delivery.untriggered.
  induction entries as [| e rest IH]; intros s H; [done |].
  apply Forall_cons in H as [He Hrest].
  change (Reveal.callback (e :: rest) s)
    with (Reveal.callback rest (Reveal.on_entry s e)).
  destruct (IH (Reveal.on_entry s e) Hrest) as [H1 H2].
  destruct (on_entry_other i s e He) as [H3 H4].
  split; [by rewrite H1 | by rewrite H2].
Qed.

Lemma callback_app l1 l2 s :
  Reveal.callback (l1 ++ l2) s = Reveal.callback l2 (Reveal.callback l1 s).
Proof. unfold Reveal.callback. apply foldl_app. Qed.

Lemma additions_app i l1 : ∀ l2 s,
  Reveal.additions i (l1 ++ l2) s
  = (Reveal.additions i l1 s + Reveal.additions i l2 (Reveal.callback l1 s))%nat.
Proof.
  induction l1 as [| e l1 IH]; intros l2 s; [done |].
  cbn [app Reveal.additions]. rewrite IH.
  change (Reveal.callback (e :: l1) s)
    with (Reveal.callback l1 (Reveal.on_entry s e)).
  lia.
Qed.

Lemma additions_visible i entries s :
  Reveal.visible i s = true → Reveal.additions i entries s = 0%nat.
Proof.
  intros H. pose proof (additions_bound i entries s) as Hb.
  rewrite H in Hb. lia.
Qed.

Lemma additions_untriggered i entries : ∀ s,
  untriggered i entries → Reveal.additions i entries s = 0%nat.
Proof.
  unfold Delivery.untriggered.
  induction entries as [| e rest IH]; intros s H; [done |].
  apply Forall_cons in H as [He Hrest]. cbn [Reveal.additions].
  rewrite IH by done. destruct (on_entry_other i s e He) as [Hl _].
  unfold Reveal.visible. rewrite Hl.
  by destruct (match Reveal.revealElements s !! i with
               | Some el => has_class "visible" el
               | None => false
               end).
Qed.

End reveal_more.

(** C4. The reveal observer is created with a threshold of 10% and a
    root margin that takes 50px off the bottom.  An entry that does not
    intersect changes nothing.  Over any sequence of batches each
    element goes from not visible to visible at most once, and a
    visible element stays visible, an unobserved one unobserved,
    through whatever batches follow.  For an element that starts
    without the [visible] class the class is added on its first
    intersecting entry and only then: before that entry the element is
    not visible and observed, from that entry on it is visible and no
    longer observed, and the class was added exactly once; without such
    an entry it stays not visible and observed. *)
Theorem initScrollReveal_once (els : list Element)
    (batches more : list (list entry)) (i : nat) :
  let s0 := Reveal.initScrollReveal els in
  let s := Reveal.run batches s0 in
  Reveal.options = {| threshold := (1 # 10)%Q; rootMargin := (0, 0, -50, 0) |}
  ∧ (∀ s' e, isIntersecting e = false → Reveal.on_entry s' e = s')
  ∧ (Reveal.additions i (concat batches) s0 ≤ 1)%nat
  ∧ (Reveal.visible i s = true → Reveal.visible i (Reveal.run more s) = true)
  ∧ (i ∉ Reveal.observed s → i ∉ Reveal.observed (Reveal.run more s))
  ∧ (∀ el, els !! i = Some el → has_class "visible" el = false →
       (Delivery.untriggered i (concat batches) →
        Reveal.visible i s = false
        ∧ (i ∈ Reveal.observed s)
        ∧ Reveal.additions i (concat batches) s0 = 0%nat)
       ∧ (∀ pre e post,
            concat batches = pre ++ e :: post →
            Delivery.untriggered i pre →
            target e = i → isIntersecting e = true →
            Reveal.visible i (Reveal.callback pre s0) = false
            ∧ (i ∈ Reveal.observed (Reveal.callback pre s0))
            ∧ Reveal.visible i (Reveal.callback (pre ++ [e]) s0) = true
            ∧ (i ∉ Reveal.observed (Reveal.callback (pre ++ [e]) s0))
            ∧ Reveal.visible i s = true
            ∧ (i ∉ Reveal.observed s)
            ∧ Reveal.additions i (concat batches) s0 = 1%nat)).
Proof.
  intros s0 s. split; [reflexivity |]. split.
  { intros s' e He. unfold Reveal.on_entry. by rewrite He. }
  split.
  { pose proof (additions_bound i (concat batches) s0) as H.
    destruct (Reveal.visible i s0); lia. }
  split; [intros H; rewrite run_callback; by apply callback_visible_mono |].
  split; [intros H; rewrite run_callback; by apply callback_observed_mono |].
  intros el Hel Hv.
  assert (Hlt : (i < length els)%nat) by (by eapply lookup_lt_Some).
  assert (Hfresh : ∀ entries, Delivery.untriggered i entries →
            Reveal.visible i (Reveal.callback entries s0) = false
            ∧ i ∈ Reveal.observed (Reveal.callback entries s0)).
  { intros entries Hu. destruct (callback_other i entries s0 Hu) as [H1 H2].
    unfold Reveal.visible. rewrite H1, H2. subst s0. cbn.
    rewrite list_lookup_fmap, Hel. cbn. rewrite has_class_add_ne by done.
    split; [done |]. apply elem_of_list_to_set, elem_of_seq. lia. }
  split.
  - intros Hu. subst s. rewrite run_callback.
    destruct (Hfresh _ Hu) as [H1 H2]. split; [done |]. split; [done |].
    by apply additions_untriggered.
  - intros pre e post Hsplit Hu Ht Hi.
    destruct (Hfresh _ Hu) as [H1 H2].
    assert (Hlen : (i < length (Reveal.revealElements (Reveal.callback pre s0)))%nat).
    { rewrite callback_length. subst s0. cbn. by rewrite length_fmap. }
    destruct (on_entry_trigger i (Reveal.callback pre s0) e Ht Hi Hlen) as [H3 H4].
    assert (Estep : Reveal.callback (pre ++ [e]) s0
                    = Reveal.on_entry (Reveal.callback pre s0) e).
    { by rewrite callback_app. }
    assert (Es : s = Reveal.callback post (Reveal.callback (pre ++ [e]) s0)).
    { subst s. rewrite run_callback, Hsplit, <- callback_app.
      by rewrite <- app_assoc. }
    rewrite Estep in *.
    split; [done |]. split; [done |]. split; [done |]. split; [done |].
    split; [rewrite Es; by apply callback_visible_mono |].
    split; [rewrite Es; by apply callback_observed_mono |].
    rewrite Hsplit, additions_app. cbn [Reveal.additions].
    rewrite (additions_untriggered i pre s0 Hu), H1, H3.
    rewrite (additions_visible i post _ H3). done.
Qed.

Lemma initScrollReveal_once_witness :
  let els := [mkElement ["service-card"] ∅ ""; mkElement ["feature"] ∅ ""] in
  let batches := [[mkEntry 0 false; mkEntry 1 true]; [mkEntry 0 true; mkEntry 0 true]] in
  let s0 := Reveal.initScrollReveal els in
  Delivery.untriggered 0 [mkEntry 0 false; mkEntry 1 true]
  ∧ Reveal.visible 0 (Reveal.callback [mkEntry 0 false; mkEntry 1 true] s0) = false
  ∧ Reveal.visible 0 (Reveal.run batches s0) = true
  ∧ (0%nat ∉ Reveal.observed (Reveal.run batches s0))
  ∧ Reveal.additions 0 (concat batches) s0 = 1%nat.
Proof.
  intros els batches s0.
  assert (H1 : Delivery.untriggered 0 [mkEntry 0 false; mkEntry 1 true]).
  { repeat constructor; by intros [? ?]. }
  destruct (proj2 (proj2 (proj2 (proj2 (proj2
              (initScrollReveal_once els batches [] 0)))))
              (mkElement ["service-card"] ∅ "") eq_refl eq_refl)
    as [_ Hfirst].
  destruct (Hfirst [mkEntry 0 false; mkEntry 1 true] (mkEntry 0 true)
              [mkEntry 0 true] eq_refl H1 eq_refl eq_refl)
    as (Ha & _ & _ & _ & Hb & Hc & Hd).
  split; [exact H1 |]. split; [exact Ha |]. split; [exact Hb |].
  split; [exact Hc | exact Hd].
Defined.

(* ------------------------------------------------------------------ *)
(** ** Active navigation link *)
(* ------------------------------------------------------------------ *)

Section active_link_facts.
Variables (engine : nat → completion ActiveLink.found).
Variables (scrollY : Q) (headerHeight : Z).

Abbreviation hrefs := (fmap (M:=list) (getAttribute "href")).

(** The links with the [active] class taken off each. *)
Abbreviation strip := (fmap (M:=list) (classList_remove "active")).

Lemma first_link_hrefs sectionId (l1 l2 : list Element) :
  hrefs l1 = hrefs l2 →
  ActiveLink.first_link sectionId l1 = ActiveLink.first_link sectionId l2.
Proof.
  intros H. unfold ActiveLink.first_link.
  assert (E : ∀ l : list Element,
    fst <$> list_find (λ e, getAttribute "href" e = Some (35%N :: sectionId)) l
    = fst <$> list_find (λ o, o = Some (35%N :: sectionId)) (hrefs l)).
  { intros l. rewrite list_find_fmap.
    by destruct (list_find _ l) as [[]|]. }
  by rewrite !E, H.
Qed.


Lemma hrefs_remove (l : list Element) : hrefs (strip l) = hrefs l.
Proof. rewrite <- list_fmap_compose. by apply list_fmap_ext. Qed.

Lemma hrefs_alter_add i (l : list Element) :
  hrefs (alter (classList_add "active") i l) = hrefs l.
Proof.
  rewrite (list_fmap_alter _ _ id) by (by apply Forall_true).
  by apply list_alter_id.
Qed.

Lemma classList_remove_add c el :
  classList_remove c (classList_add c el) = classList_remove c el.
Proof.
  unfold classList_remove, classList_add, set_classList.
  cbn [classList attributes textContent]. f_equal.
  unfold DOMTokenList.add. destruct (DOMTokenList.contains c (classList el)); [done |].
  unfold DOMTokenList.remove. rewrite filter_app, filter_cons_False by (by intros H).
  by rewrite filter_nil, app_nil_r.
Qed.

Lemma strip_strip (l : list Element) : strip (strip l) = strip l.
Proof.
  rewrite <- list_fmap_compose. apply list_fmap_ext. intros i x _.
  apply classList_remove_idem.
Qed.

Lemma strip_alter_add i (l : list Element) :
  strip (alter (classList_add "active") i l) = strip l.
Proof.
  rewrite (list_fmap_alter _ _ id).
  - by apply list_alter_id.
  - apply Forall_true. intros x. apply classList_remove_add.
Qed.

(** A visit that returns leaves every [href] in place and changes the
    links in their [active] class at most. *)
Lemma visit_Normal k (l l' : list Element) sec :
  ActiveLink.visit engine scrollY headerHeight k l sec = Normal l' →
  hrefs l' = hrefs l ∧ strip l' = strip l.
Proof.
  unfold ActiveLink.visit.
  destruct (ActiveLink.querySelector engine k (ActiveLink.id sec) l) as [[i | |] |];
    cbn; [| | | done].
  - destruct (ActiveLink.in_span _ _ _); intros [= <-]; [| done].
    by rewrite hrefs_alter_add, hrefs_remove, strip_alter_add, strip_strip.
  - destruct (ActiveLink.in_span _ _ _); intros [= <-]; [| done].
    by rewrite hrefs_remove, strip_strip.
  - by intros [= <-].
Qed.

Lemma forEach_invariant sections : ∀ k (l : list Element),
  hrefs (ActiveLink.forEach engine scrollY headerHeight k sections l).1 = hrefs l
  ∧ strip (ActiveLink.forEach engine scrollY headerHeight k sections l).1 = strip l.
Proof.
  induction sections as [| sec sections IH]; intros k l; [done |].
  cbn [ActiveLink.forEach].
  destruct (ActiveLink.visit engine scrollY headerHeight k l sec) as [l' |] eqn:E;
    [| done].
  apply visit_Normal in E as [Eh Es]. destruct (IH (S k) l') as [IHh IHs].
  by rewrite IHh, IHs.
Qed.

(** The visit of a section whose selector is plain. *)
Lemma visit_plain k (l : list Element) sec :
  ActiveLink.selector_kind (ActiveLink.id sec) = ActiveLink.Plain →
  ActiveLink.visit engine scrollY headerHeight k l sec
  = Normal (match ActiveLink.first_link (ActiveLink.id sec) l with
            | Some i =>
                if ActiveLink.in_span scrollY headerHeight sec
                then alter (classList_add "active") i (strip l)
                else l
            | None => l
            end).
Proof.
  intros H. unfold ActiveLink.visit, ActiveLink.querySelector. rewrite H.
  rewrite bind_Normal.
  destruct (ActiveLink.first_link _ l); [| done].
  by destruct (ActiveLink.in_span _ _ _).
Qed.

(** The loop stops at the first section whose visit throws. *)
Lemma forEach_app pre : ∀ k (l : list Element) post,
  ActiveLink.forEach engine scrollY headerHeight k (pre ++ post) l
  = let r := ActiveLink.forEach engine scrollY headerHeight k pre l in
    if r.2 then r
    else ActiveLink.forEach engine scrollY headerHeight (k + length pre) post r.1.
Proof.
  induction pre as [| sec pre IH]; intros k l post.
  - cbn. by rewrite Nat.add_0_r.
  - cbn [app ActiveLink.forEach].
    destruct (ActiveLink.visit engine scrollY headerHeight k l sec) as [l' |];
      [| done].
    rewrite IH. cbn [length]. by rewrite Nat.add_succ_r.
Qed.

(** The outcome of the loop over sections with plain selectors, in
    closed form. *)
Lemma forEach_closed_form sections : ∀ k (l : list Element),
  ActiveLink.plain sections →
  ActiveLink.forEach engine scrollY headerHeight k sections l
  = (match last (ActiveLink.hits scrollY headerHeight l sections) with
     | Some sec =>
         match ActiveLink.first_link (ActiveLink.id sec) l with
         | Some i => alter (classList_add "active") i (strip l)
         | None => l
         end
     | None => l
     end, false).
Proof.
  induction sections as [| sec sections IH] using rev_ind; intros k l Hp; [done |].
  apply Forall_app in Hp as [Hp Hsec]. apply Forall_cons in Hsec as [Hsec _].
  rewrite forEach_app. cbn zeta.
  destruct (forEach_invariant sections k l) as [Hh Hs].
  rewrite (IH k l Hp) in *. cbn [fst snd] in *.
  set (l' := match last (ActiveLink.hits scrollY headerHeight l sections) with
             | Some sec0 =>
                 match ActiveLink.first_link (ActiveLink.id sec0) l with
                 | Some i => alter (classList_add "active") i (strip l)
                 | None => l
                 end
             | None => l
             end) in *.
  cbn [ActiveLink.forEach]. rewrite visit_plain by done.
  rewrite (first_link_hrefs (ActiveLink.id sec) l' l Hh).
  unfold ActiveLink.hits. rewrite filter_app, last_app, filter_cons, filter_nil.
  unfold ActiveLink.hit.
  destruct (ActiveLink.first_link (ActiveLink.id sec) l) as [i |] eqn:Eq.
  - destruct (ActiveLink.in_span scrollY headerHeight sec).
    + rewrite decide_True by (by rewrite bool_decide_eq_true_2). cbn [last].
      by rewrite Eq, Hs.
    + rewrite decide_False by (rewrite andb_false_r; done). done.
  - rewrite decide_False by (rewrite bool_decide_eq_false_2; [done |]; by intros [? ?]).
    done.
Qed.

Lemma has_class_remove c el : has_class c (classList_remove c el) = false.
Proof. unfold has_class, classList_remove. cbn. apply contains_remove. Qed.



End active_link_facts.




(* ------------------------------------------------------------------ *)
(** ** Contact form *)
(* ------------------------------------------------------------------ *)

(** A pattern made of one class with a bounded repetition matches the
    strings over the class whose length lies within the bounds. *)
Lemma rep_bounded (p : code_unit → bool) (s : jsstring) : ∀ lo hi,
  Regex.rep p lo (Some hi) (λ r, bool_decide (r = [])) s = true
  ↔ (lo ≤ length s ≤ hi)%nat ∧ Forall (λ c, p c = true) s.
Proof.
  induction s as [| c s IH]; intros lo hi.
  - cbn. rewrite andb_true_r, bool_decide_eq_true. split.
    + intros ->. split; [lia | constructor].
    + intros [H _]. lia.
  - cbn [Regex.rep]. rewrite (bool_decide_eq_false_2 (c :: s = [])) by done.
    rewrite andb_false_r. rewrite Forall_cons. cbn [length].
    destruct (p c) eqn:Ep; cbn [andb].
    + destruct hi as [| hi]; cbn [Regex.may_take].
      * split; [done | intros [H _]; lia].
      * rewrite orb_false_r. cbn [fmap option_fmap option_map]. rewrite IH.
        cbn [pred]. split; intros [H1 H2]; (split; [lia | tauto]).
    + split; [done | intros [_ [H _]]; done].
Qed.

Lemma test_name_pattern (v : jsstring) :
  Regex.test ContactForm.name_pattern v = true
  ↔ (2 ≤ length v ≤ 50)%nat ∧ Forall (λ c, ContactForm.name_class c = true) v.
Proof. unfold Regex.test, ContactForm.name_pattern. cbn [Regex.matches Regex.class Regex.lo Regex.hi]. apply rep_bounded. Qed.

Lemma validateField_on_name (field : ContactForm.Field) :
  ContactForm.name field = "name" →
  ∃ field',
    ContactForm.validateField field
    = Normal (Regex.test ContactForm.name_pattern (trim (ContactForm.value field)),
              field').
Proof.
  intros Hn. unfold ContactForm.validateField. rewrite Hn.
  rewrite (bool_decide_eq_false_2 ("name" = "subject")) by done.
  change (ContactForm.patterns "name") with (ContactForm.Own ContactForm.name_pattern).
  unfold mret, completion_ret. rewrite bind_Normal.
  destruct (Regex.test _ _); eexists; reflexivity.
Qed.

Lemma name_class_letters (c : code_unit) :
  c ≠ 215%N → c ≠ 247%N →
  ContactForm.name_class c
  = ContactForm.is_ascii_letter c || ContactForm.is_latin1_letter c || is_whitespace c.
Proof.
  intros H1 H2. unfold ContactForm.name_class, ContactForm.is_ascii_letter,
    ContactForm.is_latin1_letter, Regex.char.
  rewrite (proj2 (N.eqb_neq c 215) H1), (proj2 (N.eqb_neq c 247) H2).
  cbn [negb]. by rewrite !andb_true_r.
Qed.

(** C2 (amended). On the field named [name], for a trimmed value that
    holds neither the multiplication sign nor the division sign,
    [validateField] returns true exactly when the trimmed value has 2
    to 50 code units, each an ASCII letter, an accented letter of
    Latin-1 or a white-space character; otherwise it returns false. *)
Theorem validateField_name (field : ContactForm.Field) :
  ContactForm.name field = "name" →
  Forall (λ c, c ≠ 215%N ∧ c ≠ 247%N) (trim (ContactForm.value field)) →
  ∃ isValid field',
    ContactForm.validateField field = Normal (isValid, field')
    ∧ (isValid = true ↔ ContactForm.name_ok (trim (ContactForm.value field)))
    ∧ (isValid = false ↔ ¬ ContactForm.name_ok (trim (ContactForm.value field))).
Proof.
  intros Hn Hfree.
  destruct (validateField_on_name field Hn) as [field' Hv].
  eexists _, field'. split; [exact Hv |].
  assert (E : Regex.test ContactForm.name_pattern (trim (ContactForm.value field)) = true
              ↔ ContactForm.name_ok (trim (ContactForm.value field))).
  { rewrite test_name_pattern. unfold ContactForm.name_ok.
    split; intros [Hl Hc]; (split; [exact Hl |]);
      rewrite Forall_forall in *; intros c Hin;
      destruct (Hfree c Hin) as [H1 H2]; specialize (Hc c Hin);
      by rewrite name_class_letters in *. }
  split; [exact E |].
  rewrite <- E. by destruct (Regex.test _ _).
Qed.

Lemma validateField_name_witness :
  let field := ContactForm.mkField "name" (of_string "  Al Bo ") true
                 (mkElement ["form__input"] ∅ "") None in
  ContactForm.name field = "name"
  ∧ Forall (λ c, c ≠ 215%N ∧ c ≠ 247%N) (trim (ContactForm.value field))
  ∧ ContactForm.name_ok (trim (ContactForm.value field))
  ∧ ∃ field', ContactForm.validateField field = Normal (true, field').
Proof.
  intros field.
  assert (H1 : ContactForm.name field = "name") by reflexivity.
  assert (H2 : Forall (λ c, c ≠ 215%N ∧ c ≠ 247%N) (trim (ContactForm.value field))).
  { vm_compute. repeat constructor; discriminate. }
  assert (H3 : ContactForm.name_ok (trim (ContactForm.value field))).
  { split; [vm_compute; lia |]. vm_compute. repeat constructor. }
  split; [exact H1 |]. split; [exact H2 |]. split; [exact H3 |].
  destruct (validateField_name field H1 H2) as (isValid & field' & Hv & Ht & _).
  exists field'. by rewrite Hv, (proj2 Ht H3).
Defined.

(** The property as first worded fails: a value with a tab between two
    letters validates, although a tab is neither a letter nor a space. *)
Lemma name_field_accepts_tab :
  let field := ContactForm.mkField "name" [97; 9; 98]%N true
                 (mkElement ["form__input"] ∅ "") None in
  (∃ field', ContactForm.validateField field = Normal (true, field'))
  ∧ ¬ ContactForm.letters_or_spaces (trim (ContactForm.value field)).
Proof.
  intros field. split.
  - eexists. by vm_compute.
  - intros [_ H]. vm_compute in H.
    apply Forall_cons in H as [_ H]. apply Forall_cons in H as [H _].
    discriminate.
Qed.

(** The range [À-ÿ] of the class also takes in the multiplication and
    division signs, which lie between the accented letters. *)
Lemma name_field_accepts_times :
  ∃ field',
    ContactForm.validateField
      (ContactForm.mkField "name" [97; 215; 98]%N true
         (mkElement ["form__input"] ∅ "") None)
    = Normal (true, field').
Proof. eexists. by vm_compute. Qed.

Section submit_facts.
Import ContactForm.


(** [validateForm] visits every field, and answers false exactly when
    some field is invalid. *)
Lemma validateForm_from_spec (fs : list Field) : ∀ b v fs',
  validateForm_from b fs = Normal (v, fs') →
  Forall2 (λ f f', ∃ ok, validateField f = Normal (ok, f')) fs fs'
  ∧ (v = false ↔
     b = false ∨ Exists (λ f, ∃ f', validateField f = Normal (false, f')) fs).
Proof.
  induction fs as [| f fs IH]; intros b v fs' H.
  - injection H as <- <-. split; [constructor |].
    rewrite Exists_nil. tauto.
  - cbn [validateForm_from] in H.
    destruct (validateField f) as [[ok f1] |] eqn:Ef; [| done].
    rewrite bind_Normal in H.
    destruct (validateForm_from (if negb ok then false else b) fs)
      as [[v1 fs1] |] eqn:Er; [| done].
    rewrite bind_Normal in H. injection H as <- <-.
    destruct (IH _ _ _ Er) as [Hall Hv]. split.
    + constructor; [by exists ok | done].
    + rewrite Hv, Exists_cons. destruct ok; cbn [negb].
      * split; [intros [? | ?]; auto |].
        intros [? | [[f2 Hf2] | ?]]; auto. congruence.
      * split; [intros _; right; left; by exists f1 | auto].
Qed.



End submit_facts.




(* ------------------------------------------------------------------ *)
(** ** Concrete runs of the header and menu handlers *)
(* ------------------------------------------------------------------ *)

Lemma closeMobileMenu_idempotent_witness :
  let s := Menu.mkState
             (Some (mkElement ["nav__menu"] ∅ ""))
             (Some (mkElement ["nav__toggle"]
                      {["aria-expanded" := of_string "false"]} ""))
             (mkElement [] ∅ "") in
  Menu.initMobileNav s = true
  ∧ Menu.closed s
  ∧ (Menu.onKeydown "Escape" s ≫= Menu.onKeydown "Escape") = Normal s.
Proof.
  intros s.
  assert (H0 : Menu.initMobileNav s = true) by reflexivity.
  assert (H : Menu.closed s).
  { split; [eexists; split; [reflexivity | by vm_compute] |].
    split; [eexists; split; [reflexivity | by vm_compute] | by vm_compute]. }
  split; [exact H0 |]. split; [exact H |].
  exact (proj2 (proj2 (proj2 (closeMobileMenu_idempotent s H0) H))).
Defined.

Lemma handleHeaderScroll_scrolled_iff_witness :
  (100 <= 100)%Q
  ∧ has_class "scrolled"
      (handleHeaderScroll 100 (mkElement ["header"; "scrolled"] ∅ "")) = false.
Proof.
  assert (H : (100 <= 100)%Q) by (by vm_compute).
  split; [exact H |].
  exact (proj2 (proj2 (handleHeaderScroll_scrolled_iff 100
                         (mkElement ["header"; "scrolled"] ∅ ""))) H).
Defined.

(* ================================================================== *)
(** * Further properties *)
(* ================================================================== *)

(* ------------------------------------------------------------------ *)
(** ** Debounce, in general *)
(* ------------------------------------------------------------------ *)

Section debounce_general.
Context {A : Type}.
Variable wait : Z.
Hypothesis wait_nonneg : 0 ≤ wait.

Abbreviation dstate := (@Debounce.state A).

Abbreviation single := (@Survivors.single A).

Lemma advance_single now (s : dstate) : single s → single (Debounce.advance now s).
Proof.
  intros [H | (h & d & a & Ht & Hh)].
  - rewrite advance_idle by done. by left.
  - unfold Debounce.advance. rewrite Ht. cbn. rewrite Ht. cbn.
    destruct (d <=? now); [| right; exists h, d, a; by split].
    left. unfold Debounce.fire, Debounce.later. cbn. rewrite Ht, Hh. cbn.
    by rewrite decide_False by (intros Hne; by apply Hne).
Qed.

Lemma executedFunction_single t a (s : dstate) :
  single s → single (Debounce.executedFunction wait t a s).
Proof.
  intros Hs. right. exists (Debounce.next_handle s), (t + Z.max 0 wait), a.
  split; [| done]. unfold Debounce.executedFunction. cbn.
  destruct Hs as [H | (h & d & a0 & Ht & Hh)].
  - rewrite H. by destruct (Debounce.timeout s).
  - rewrite Ht, Hh. cbn. by rewrite decide_False by (intros Hne; by apply Hne).
Qed.

Lemma run_single calls : ∀ s : dstate, single s → single (Debounce.run wait calls s).
Proof.
  induction calls as [| [t a] rest IH]; intros s Hs; [done |].
  cbn [Debounce.run]. by apply IH, executedFunction_single, advance_single.
Qed.

Lemma run_survivors (rest : list (Z * A)) : ∀ t a (s : dstate) T,
  Debounce.pending wait s t a →
  Survivors.ordered t rest →
  Forall (λ c, c.1 + wait ≤ T) ((t, a) :: rest) →
  Debounce.invoked (Debounce.advance T (Debounce.run wait rest s))
  = Debounce.invoked s ++ Survivors.survivors wait ((t, a) :: rest).
Proof.
  induction rest as [| [t' a'] rest IH]; intros t a s T Hp Hord HT.
  - cbn [Debounce.run Survivors.survivors].
    apply Forall_cons in HT as [HT _]. cbn in HT.
    by rewrite (advance_pending_after wait T s t a).
  - destruct Hord as [Hle Hord]. apply Forall_cons in HT as [_ HT].
    cbn [Debounce.run]. cbn [Survivors.survivors].
    destruct (Z.leb_spec (t + wait) t') as [Hdue | Hdue].
    + rewrite (advance_pending_after wait t' s t a) by done.
      set (s1 := Debounce.mkState _ _ _ _).
      destruct (executedFunction_pending wait wait_nonneg t' a' s1) as [Hp' Hi'].
      { by left. }
      rewrite (IH t' a' _ T Hp' Hord HT), Hi'. subst s1. cbn [Debounce.invoked].
      by rewrite <- app_assoc.
    + rewrite (advance_pending_before wait t' s t a) by done.
      destruct (executedFunction_pending wait wait_nonneg t' a' s) as [Hp' Hi'].
      { right. eauto. }
      by rewrite (IH t' a' _ T Hp' Hord HT), Hi'.
Qed.

End debounce_general.



(** X2. Whatever the calls and their times, after each of them exactly
    one timer is set, the one the call has just started: a call always
    clears the timer of the call before it. *)
Theorem debounce_single_timer {A : Type} (wait : Z) (calls : list (Z * A))
    (t : Z) (a : A) (s0 : Debounce.state) :
  Debounce.timers s0 = [] →
  ∃ h, Debounce.timers (Debounce.run wait (calls ++ [(t, a)]) s0)
       = [Debounce.mkTimer h (t + Z.max 0 wait) a]
       ∧ Debounce.timeout (Debounce.run wait (calls ++ [(t, a)]) s0) = Some h.
Proof.
  intros Hidle.
  assert (Hrun : ∀ (cs : list (Z * A)) c s,
    Debounce.run wait (cs ++ [c]) s
    = Debounce.run wait [c] (Debounce.run wait cs s)).
  { induction cs as [| [t' a'] cs IH]; intros c s; [done |]. cbn. apply IH. }
  rewrite Hrun. cbn [Debounce.run].
  assert (Hs : Survivors.single (Debounce.advance t (Debounce.run wait calls s0))).
  { apply advance_single, run_single. by left. }
  set (s := Debounce.advance t (Debounce.run wait calls s0)) in *.
  exists (Debounce.next_handle s). split; [| done].
  unfold Debounce.executedFunction. cbn.
  destruct Hs as [H | (h & d & a0 & Ht & Hh)].
  - rewrite H. by destruct (Debounce.timeout s).
  - rewrite Ht, Hh. cbn. by rewrite decide_False by (intros Hne; by apply Hne).
Qed.

Lemma debounce_single_timer_witness :
  ∃ h, Debounce.timers (Debounce.run 50 ([(5, "x"); (3, "y")] ++ [(400, "z")])
                          Debounce.init)
       = [Debounce.mkTimer h 450 "z"].
Proof.
  destruct (debounce_single_timer 50 [(5, "x"); (3, "y")] 400 "z"
              Debounce.init eq_refl) as (h & Ht & _).
  exists h. exact Ht.
Defined.

(* ------------------------------------------------------------------ *)
(** ** Scroll handlers behind their debounced wrappers *)
(* ------------------------------------------------------------------ *)

Lemma handleHeaderScroll_class y el :
  has_class "scrolled" (handleHeaderScroll y el) = Qltb 100 y.
Proof.
  unfold handleHeaderScroll. change config.scrollThreshold with 100%Q.
  destruct (Qltb 100 y); [apply has_class_add | apply has_class_remove].
Qed.

Lemma toggleBackToTop_class y el :
  has_class "visible" (BackToTop.toggleBackToTop y el) = Qltb 300 y.
Proof.
  unfold BackToTop.toggleBackToTop.
  assert (E : Qltb (config.scrollThreshold * 3) y = Qltb 300 y).
  { apply eq_true_iff_eq. rewrite !Qltb_true.
    assert (E : (config.scrollThreshold * 3 == 300)%Q) by reflexivity.
    by rewrite E. }
  rewrite E. destruct (Qltb 300 y); [apply has_class_add | apply has_class_remove].
Qed.

Section scroll_facts.
Context {A : Type}.

Lemma survivors_last wait (rest : list (Z * A)) : ∀ t a tn an,
  last ((t, a) :: rest) = Some (tn, an) →
  last (Survivors.survivors wait ((t, a) :: rest)) = Some (tn + wait, an).
Proof.
  induction rest as [| [t' a'] rest IH]; intros t a tn an Hl.
  - injection Hl as <- <-. done.
  - rewrite last_cons_cons in Hl. specialize (IH t' a' tn an Hl).
    cbn [Survivors.survivors] in *. destruct (t + wait <=? t'); [| done].
    destruct rest as [| [t'' a''] rest]; [done |].
    destruct (t' + wait <=? t''); by rewrite last_cons, IH.
Qed.

Lemma ordered_le_last (rest : list (Z * A)) : ∀ t a tn an,
  Survivors.ordered t rest →
  last ((t, a) :: rest) = Some (tn, an) →
  Forall (λ c, c.1 ≤ tn) ((t, a) :: rest).
Proof.
  induction rest as [| [t' a'] rest IH]; intros t a tn an Hord Hl.
  - injection Hl as <- <-. by repeat constructor.
  - destruct Hord as [Hle Hord]. rewrite last_cons_cons in Hl.
    specialize (IH t' a' tn an Hord Hl). constructor; [| done].
    apply Forall_cons in IH as [H _]. cbn in *. lia.
Qed.

End scroll_facts.

Lemma scrollY_at_last initial (events : list (Z * Q)) T tn yn :
  last events = Some (tn, yn) →
  Forall (λ c, c.1 ≤ T) events →
  ScrollCoordinator.scrollY_at initial events T = yn.
Proof.
  intros Hl Hall. apply last_Some in Hl as [pre ->].
  rewrite Forall_app, Forall_singleton in Hall. destruct Hall as [_ Hn]. cbn in Hn.
  unfold ScrollCoordinator.scrollY_at. rewrite foldl_app. cbn.
  by rewrite (proj2 (Z.leb_le tn T) Hn).
Qed.

Lemma replay_last handler initial events (log : list (Z * Q)) c el :
  last log = Some c →
  ∃ el', ScrollCoordinator.replay handler initial events log el
         = handler (ScrollCoordinator.scrollY_at initial events c.1) el'.
Proof.
  intros Hl. apply last_Some in Hl as [pre ->].
  unfold ScrollCoordinator.replay. rewrite foldl_app. cbn. eauto.
Qed.

(** The handler's last run, after a series of scroll events, read the
    offset of the last event. *)
Lemma coordinator_last_run handler wait initial t1 y1 rest tn yn T el :
  0 ≤ wait →
  Survivors.ordered t1 rest →
  last ((t1, y1) :: rest) = Some (tn, yn) →
  tn + wait ≤ T →
  ∃ el',
    ScrollCoordinator.replay handler initial ((t1, y1) :: rest)
      (Debounce.invoked
         (Debounce.advance T (Debounce.run wait ((t1, y1) :: rest) Debounce.init)))
      el
    = handler yn el'.
Proof.
  intros Hw Hord Hl HT.
  pose proof (ordered_le_last rest t1 y1 tn yn Hord Hl) as Hle.
  cbn [Debounce.run]. rewrite (advance_idle t1 Debounce.init) by done.
  destruct (executedFunction_pending wait Hw t1 y1 Debounce.init) as [Hp Hi].
  { by left. }
  rewrite (run_survivors wait Hw rest t1 y1 _ T Hp Hord), Hi.
  2: { eapply Forall_impl; [exact Hle |]. intros c Hc. cbn in Hc. lia. }
  cbn [Debounce.invoked Debounce.init app].
  pose proof (survivors_last wait rest t1 y1 tn yn Hl) as Hs.
  destruct (replay_last handler initial ((t1, y1) :: rest) _ _ el Hs) as [el' ->].
  exists el'. f_equal. cbn [fst]. apply (scrollY_at_last _ _ _ tn); [done |].
  eapply Forall_impl; [exact Hle |]. intros c Hc. cbn in Hc. lia.
Qed.

(** X3. The header follows the last scroll position: once 10ms have
    passed since the last scroll event of a series, however long and
    however spaced, the header carries [scrolled] exactly when the
    offset of that last event exceeds 100, whatever the offsets before. *)
Theorem header_follows_last_scroll (initial : Q) (t1 : Z) (y1 : Q)
    (rest : list (Z * Q)) (tn : Z) (yn : Q) (T : Z) (header : Element) :
  Survivors.ordered t1 rest →
  last ((t1, y1) :: rest) = Some (tn, yn) →
  tn + 10 ≤ T →
  has_class "scrolled"
    (ScrollCoordinator.header_at initial ((t1, y1) :: rest) T header) = true
  ↔ (100 < yn)%Q.
Proof.
  intros Hord Hl HT. unfold ScrollCoordinator.header_at.
  destruct (coordinator_last_run handleHeaderScroll 10 initial t1 y1 rest tn yn T
              (handleHeaderScroll initial header)) as [el' ->]; try done.
  rewrite handleHeaderScroll_class. apply Qltb_true.
Qed.

Lemma header_follows_last_scroll_witness :
  Survivors.ordered 0 [(4, 250%Q); (30, 40%Q)]
  ∧ last ((0, 120%Q) :: [(4, 250%Q); (30, 40%Q)]) = Some (30, 40%Q)
  ∧ has_class "scrolled"
      (ScrollCoordinator.header_at 0 ((0, 120%Q) :: [(4, 250%Q); (30, 40%Q)]) 40
         (mkElement ["header"] ∅ "")) = false.
Proof.
  assert (H1 : Survivors.ordered 0 [(4, 250%Q); (30, 40%Q)]) by (cbn; lia).
  assert (H2 : last ((0, 120%Q) :: [(4, 250%Q); (30, 40%Q)]) = Some (30, 40%Q))
    by reflexivity.
  assert (H3 : 30 + 10 ≤ 40) by lia.
  split; [exact H1 |]. split; [exact H2 |].
  apply not_true_is_false. intros H.
  apply (header_follows_last_scroll 0 0 120 [(4, 250%Q); (30, 40%Q)] 30 40 40
           (mkElement ["header"] ∅ "") H1 H2 H3) in H.
  by vm_compute in H.
Defined.

(** X4. The back-to-top button shows exactly when the last scroll
    offset exceeds 300, three times the header's threshold, once 50ms
    have passed since the last scroll event; and whenever it shows,
    the header is in its scrolled state. *)
Theorem backToTop_follows_last_scroll (initial : Q) (t1 : Z) (y1 : Q)
    (rest : list (Z * Q)) (tn : Z) (yn : Q) (T : Z) (btn header : Element) :
  Survivors.ordered t1 rest →
  last ((t1, y1) :: rest) = Some (tn, yn) →
  tn + 50 ≤ T →
  (has_class "visible"
     (ScrollCoordinator.backToTop_at initial ((t1, y1) :: rest) T btn) = true
   ↔ (300 < yn)%Q)
  ∧ (has_class "visible"
       (ScrollCoordinator.backToTop_at initial ((t1, y1) :: rest) T btn) = true →
     has_class "scrolled"
       (ScrollCoordinator.header_at initial ((t1, y1) :: rest) T header) = true).
Proof.
  intros Hord Hl HT.
  assert (Hb : has_class "visible"
                 (ScrollCoordinator.backToTop_at initial ((t1, y1) :: rest) T btn) = true
               ↔ (300 < yn)%Q).
  { unfold ScrollCoordinator.backToTop_at.
    destruct (coordinator_last_run BackToTop.toggleBackToTop 50 initial t1 y1 rest
                tn yn T btn) as [el' ->]; try done.
    rewrite toggleBackToTop_class. apply Qltb_true. }
  split; [exact Hb |]. intros Hv. apply Hb in Hv.
  unfold ScrollCoordinator.header_at.
  destruct (coordinator_last_run handleHeaderScroll 10 initial t1 y1 rest tn yn T
              (handleHeaderScroll initial header)) as [el' ->]; try done; [lia |].
  rewrite handleHeaderScroll_class. apply Qltb_true.
  apply Qlt_trans with 300%Q; [by vm_compute | done].
Qed.

Lemma backToTop_follows_last_scroll_witness :
  Survivors.ordered 0 [(20, 900%Q)]
  ∧ last ((0, 10%Q) :: [(20, 900%Q)]) = Some (20, 900%Q)
  ∧ has_class "visible"
      (ScrollCoordinator.backToTop_at 0 ((0, 10%Q) :: [(20, 900%Q)]) 70
         (mkElement ["back-to-top"] ∅ "")) = true.
Proof.
  assert (H1 : Survivors.ordered 0 [(20, 900%Q)]) by (cbn; lia).
  assert (H2 : last ((0, 10%Q) :: [(20, 900%Q)]) = Some (20, 900%Q)) by reflexivity.
  assert (H3 : 20 + 50 ≤ 70) by lia.
  split; [exact H1 |]. split; [exact H2 |].
  apply (proj1 (backToTop_follows_last_scroll 0 0 10 [(20, 900%Q)] 20 900 70
                  (mkElement ["back-to-top"] ∅ "") (mkElement [] ∅ "") H1 H2 H3)).
  by vm_compute.
Defined.

(** X5. The two scroll handlers touch nothing but their own class:
    every other class of the element, its attributes and its text are
    as before, and running a handler again at the same offset changes
    nothing more. *)
Theorem scroll_handlers_touch_one_class (y : Q) (el : Element) (c : string) :
  (c ≠ "scrolled" → has_class c (handleHeaderScroll y el) = has_class c el)
  ∧ (c ≠ "visible" → has_class c (BackToTop.toggleBackToTop y el) = has_class c el)
  ∧ attributes (handleHeaderScroll y el) = attributes el
  ∧ textContent (handleHeaderScroll y el) = textContent el
  ∧ attributes (BackToTop.toggleBackToTop y el) = attributes el
  ∧ textContent (BackToTop.toggleBackToTop y el) = textContent el
  ∧ handleHeaderScroll y (handleHeaderScroll y el) = handleHeaderScroll y el
  ∧ BackToTop.toggleBackToTop y (BackToTop.toggleBackToTop y el)
    = BackToTop.toggleBackToTop y el.
Proof.
  unfold handleHeaderScroll, BackToTop.toggleBackToTop.
  destruct (Qltb config.scrollThreshold y), (Qltb (config.scrollThreshold * 3) y);
    repeat split;
    try (intros H; by (apply has_class_add_ne || apply has_class_remove_ne));
    apply classList_add_idem || apply classList_remove_idem.
Qed.

(* ------------------------------------------------------------------ *)
(** ** Count animation, further *)
(* ------------------------------------------------------------------ *)

(** X6. The animation ends by itself: once a frame has reached
    progress 1 no later frame writes anything.  The frames before it
    write one value each, the completing frame writes two, so a run
    over [n] frames makes at most [n + 1] assignments. *)
Theorem animateCount_stops (rnd : Q → Q) (target : number) (startTime : Q)
    (pre : list Q) (t : Q) (post : list Q) :
  Forall (λ t', (Count.progress rnd startTime t' < 1)%Q) pre →
  (1 <= Count.progress rnd startTime t)%Q →
  Count.animateCount rnd target startTime (pre ++ t :: post)
  = (Count.current rnd target startTime <$> pre)
    ++ [Count.current rnd target startTime t; target]
  ∧ (length (Count.animateCount rnd target startTime (pre ++ t :: post))
     ≤ length (pre ++ t :: post) + 1)%nat.
Proof.
  intros Hpre Ht.
  assert (E : Count.animateCount rnd target startTime (pre ++ t :: post)
              = (Count.current rnd target startTime <$> pre)
                ++ [Count.current rnd target startTime t; target]).
  { rewrite animateCount_app_running by done. f_equal.
    by rewrite animateCount_cons, (proj2 (Qltb_false _ _) Ht). }
  split; [exact E |]. rewrite E, !length_app, length_fmap. cbn. lia.
Qed.

Lemma animateCount_stops_witness :
  Forall (λ t', (Count.progress (λ x, x) 0 t' < 1)%Q) [500%Q]
  ∧ (1 <= Count.progress (λ x, x) 0 2500)%Q
  ∧ Count.animateCount (λ x, x) (Int 64) 0 ([500%Q] ++ 2500%Q :: [2516%Q; 2533%Q])
    = [Int 37; Int 64; Int 64].
Proof.
  assert (H1 : Forall (λ t', (Count.progress (λ x, x) 0 t' < 1)%Q) [500%Q])
    by (repeat constructor).
  assert (H2 : (1 <= Count.progress (λ x, x) 0 2500)%Q) by (by vm_compute).
  split; [exact H1 |]. split; [exact H2 |].
  exact (proj1 (animateCount_stops (λ x, x) (Int 64) 0 [500%Q] 2500
                  [2516%Q; 2533%Q] H1 H2)).
Defined.

Section endpoints.
Variable rnd : Q → Q.
Hypothesis rnd_mono : ∀ x y, (x <= y → rnd x <= rnd y)%Q.
Hypothesis rnd_0 : (rnd 0 == 0)%Q.
Hypothesis rnd_1 : (rnd 1 == 1)%Q.

Lemma rnd_proper x y : (x == y → rnd x == rnd y)%Q.
Proof.
  intros H. apply Qle_antisym; apply rnd_mono; rewrite H; apply Qle_refl.
Qed.

Lemma rnd_exact x v : (x == v → rnd v == v → rnd x == v)%Q.
Proof. intros Hx Hv. rewrite <- Hv. by apply rnd_proper. Qed.

Lemma easeProgress_at (p : Q) st t :
  (Count.progress rnd st t == p)%Q → (p == 0 ∨ p == 1)%Q →
  (Count.easeProgress rnd st t == p)%Q.
Proof.
  intros Hp Hcase. unfold Count.easeProgress.
  destruct Hcase as [E | E]; rewrite E in *.
  - assert (H1 : (rnd (1 - Count.progress rnd st t) == 1)%Q).
    { apply rnd_exact; [| done]. rewrite Hp. reflexivity. }
    assert (H2 : (rnd (rnd (1 - Count.progress rnd st t) ^ 3) == 1)%Q).
    { apply rnd_exact; [| done]. rewrite H1. reflexivity. }
    apply rnd_exact; [| done]. rewrite H2. reflexivity.
  - assert (H1 : (rnd (1 - Count.progress rnd st t) == 0)%Q).
    { apply rnd_exact; [| done]. rewrite Hp. reflexivity. }
    assert (H2 : (rnd (rnd (1 - Count.progress rnd st t) ^ 3) == 0)%Q).
    { apply rnd_exact; [| done]. rewrite H1. reflexivity. }
    apply rnd_exact; [| done]. rewrite H2. reflexivity.
Qed.

Lemma currentZ_at (z : Z) (e : Q) (r : Z) st t :
  (rnd (inject_Z z) == inject_Z z)%Q →
  (rnd (inject_Z r) == inject_Z r)%Q →
  (Count.easeProgress rnd st t == e)%Q →
  (inject_Z z * e == inject_Z r)%Q →
  Count.currentZ rnd z st t = r.
Proof.
  intros Hz Hr He Hprod. unfold Count.currentZ.
  assert (H1 : (rnd (inject_Z z - Count.start) == inject_Z z)%Q).
  { apply rnd_exact; [| done]. unfold Count.start. ring. }
  assert (H2 : (rnd (rnd (inject_Z z - Count.start) * Count.easeProgress rnd st t)
                == inject_Z r)%Q).
  { apply rnd_exact; [| done]. by rewrite H1, He. }
  assert (H3 : (rnd (Count.start
                     + rnd (rnd (inject_Z z - Count.start)
                            * Count.easeProgress rnd st t))
                == inject_Z r)%Q).
  { apply rnd_exact; [| done]. rewrite H2. unfold Count.start. ring. }
  rewrite <- (Qfloor_Z r). by apply Qfloor_comp.
Qed.

End endpoints.

(** X7. The interpolation starts at 0 and ends on the target: for a
    rounding that is monotone and exact on 0, 1 and the target, a frame
    at the start time writes 0, and a frame at progress 1 computes the
    target already in its first assignment, so the assignment that
    follows it writes the same value again. *)
Theorem animateCount_endpoints (rnd : Q → Q) (z : Z) (startTime t : Q) :
  (∀ x y, (x <= y)%Q → (rnd x <= rnd y)%Q) →
  (rnd 0 == 0)%Q → (rnd 1 == 1)%Q → (rnd (inject_Z z) == inject_Z z)%Q →
  Count.current rnd (Int z) startTime startTime = Int 0
  ∧ ((1 <= Count.progress rnd startTime t)%Q →
     Count.updateCount rnd (Int z) startTime t = ([Int z; Int z], false)).
Proof.
  intros Hmono H0 H1 Hz. split.
  - cbn [Count.current]. f_equal.
    apply (currentZ_at rnd Hmono z 0 0); [done | exact H0 | | ring].
    apply (easeProgress_at rnd Hmono H0 H1); [| by left].
    unfold Count.progress, Count.elapsed.
    assert (E1 : (rnd (startTime - startTime) == 0)%Q).
    { apply (rnd_exact rnd Hmono); [ring | done]. }
    assert (E2 : (rnd (rnd (startTime - startTime) / Count.duration) == 0)%Q).
    { apply (rnd_exact rnd Hmono); [| done]. rewrite E1. reflexivity. }
    rewrite E2. reflexivity.
  - intros Hp. rewrite updateCount_final by done. cbn [Count.current].
    do 3 f_equal.
    apply (currentZ_at rnd Hmono z 1 z); [done | done | | ring].
    apply (easeProgress_at rnd Hmono H0 H1); [| by right].
    apply Qle_antisym; [apply Q.le_min_r | done].
Qed.

Lemma animateCount_endpoints_witness :
  (1 <= Count.progress (λ x, x) 10 2010)%Q
  ∧ Count.current (λ x, x) (Int 1250) 10 10 = Int 0
  ∧ Count.updateCount (λ x, x) (Int 1250) 10 2010 = ([Int 1250; Int 1250], false).
Proof.
  assert (Hp : (1 <= Count.progress (λ x, x) 10 2010)%Q) by (by vm_compute).
  assert (Hm : ∀ x y : Q, (x <= y)%Q → (x <= y)%Q) by (intros x y H; exact H).
  split; [exact Hp |].
  destruct (animateCount_endpoints (λ x, x) 1250 10 2010 Hm
              (Qeq_refl _) (Qeq_refl _) (Qeq_refl _)) as [Ha Hb].
  split; [exact Ha | exact (Hb Hp)].
Defined.

(* ------------------------------------------------------------------ *)
(** ** Strings: [trim] and [parseInt] *)
(* ------------------------------------------------------------------ *)

Lemma rev_reverse {A} (l : list A) : rev l = reverse l.
Proof. unfold reverse. apply rev_alt. Qed.

Lemma trim_start_spec (s : jsstring) :
  ∃ ws, s = ws ++ trim_start s
        ∧ Forall (λ c, is_whitespace c = true) ws
        ∧ ∀ c, head (trim_start s) = Some c → is_whitespace c = false.
Proof.
  induction s as [| c s (ws & Heq & Hws & Hhd)].
  - exists []. repeat split; [constructor | done].
  - cbn [trim_start]. destruct (is_whitespace c) eqn:E.
    + exists (c :: ws). split; [cbn; by f_equal |]. split; [by constructor | done].
    + exists []. split; [done |]. split; [constructor |].
      intros c' Hc'. injection Hc' as <-. done.
Qed.

Lemma trim_start_id (s : jsstring) :
  (∀ c, head s = Some c → is_whitespace c = false) → trim_start s = s.
Proof.
  destruct s as [| c s]; [done |]. intros H. cbn. by rewrite (H c eq_refl).
Qed.

Lemma trim_start_whitespace (ws s : jsstring) :
  Forall (λ c, is_whitespace c = true) ws → trim_start (ws ++ s) = trim_start s.
Proof.
  induction ws as [| c ws IH]; intros H; [done |].
  apply Forall_cons in H as [Hc Hws]. cbn. rewrite Hc. by apply IH.
Qed.

Lemma trim_facts (s : jsstring) :
  (∃ pre post,
     s = pre ++ trim s ++ post
     ∧ Forall (λ c, is_whitespace c = true) pre
     ∧ Forall (λ c, is_whitespace c = true) post)
  ∧ (∀ c, head (trim s) = Some c → is_whitespace c = false)
  ∧ (∀ c, last (trim s) = Some c → is_whitespace c = false)
  ∧ trim (trim s) = trim s
  ∧ (trim s = [] ↔ Forall (λ c, is_whitespace c = true) s).
Proof.
  destruct (trim_start_spec s) as (pre & Hs & Hpre & Hhd).
  destruct (trim_start_spec (rev (trim_start s))) as (ws & Hr & Hws & Hhd').
  assert (Ht : trim_start s = trim s ++ rev ws).
  { unfold trim, trim_end. rewrite <- rev_app_distr, <- Hr. by rewrite rev_involutive. }
  assert (Hlast : ∀ c, last (trim s) = Some c → is_whitespace c = false).
  { intros c. unfold trim, trim_end. rewrite rev_reverse, last_reverse. apply Hhd'. }
  assert (Hhead : ∀ c, head (trim s) = Some c → is_whitespace c = false).
  { intros c Hc. apply Hhd. rewrite Ht.
    destruct (trim s); [done |]. exact Hc. }
  split; [| split; [exact Hhead | split; [exact Hlast | split]]].
  - exists pre, (rev ws). split; [by rewrite <- Ht |]. split; [done |].
    by apply Forall_rev.
  - unfold trim at 1. rewrite (trim_start_id (trim s)) by done.
    unfold trim_end. rewrite trim_start_id; [by rewrite rev_involutive |].
    intros c. rewrite rev_reverse, head_reverse. apply Hlast.
  - split.
    + intros E. rewrite E in Ht. cbn in Ht. rewrite Hs, Ht.
      apply Forall_app. split; [done | by apply Forall_rev].
    + intros Hall. destruct (trim s) as [| c r] eqn:E; [done |].
      specialize (Hhead c eq_refl).
      assert (Hin : c ∈ s).
      { rewrite Hs, Ht. cbn. apply elem_of_app. right. left. }
      rewrite Forall_forall in Hall. rewrite (Hall c Hin) in Hhead. done.
Qed.

(** X8. [trim] removes exactly the white space at both ends: the value
    is its trimmed form between two runs of white-space code units, and
    the trimmed form neither starts nor ends with one.  Trimming again
    changes nothing, and a value trims to the empty string exactly when
    it holds nothing but white space. *)
Theorem trim_spec (s : jsstring) :
  (∃ pre post,
     s = pre ++ trim s ++ post
     ∧ Forall (λ c, is_whitespace c = true) pre
     ∧ Forall (λ c, is_whitespace c = true) post)
  ∧ (∀ c, head (trim s) = Some c → is_whitespace c = false)
  ∧ (∀ c, last (trim s) = Some c → is_whitespace c = false)
  ∧ trim (trim s) = trim s
  ∧ (trim s = [] ↔ Forall (λ c, is_whitespace c = true) s).
Proof. apply trim_facts. Qed.

Lemma digit_cases (c : code_unit) :
  is_digit c = true →
  (c = 48 ∨ c = 49 ∨ c = 50 ∨ c = 51 ∨ c = 52
   ∨ c = 53 ∨ c = 54 ∨ c = 55 ∨ c = 56 ∨ c = 57)%N.
Proof.
  unfold is_digit. rewrite andb_true_iff, N.leb_le, N.leb_le. lia.
Qed.

Lemma digits_value_app (l1 l2 : jsstring) : ∀ acc,
  Forall (λ c, is_digit c = true) l1 →
  digits_value acc (l1 ++ l2) = digits_value (digits_value acc l1) l2.
Proof.
  induction l1 as [| c l1 IH]; intros acc H; [by destruct l2 |].
  apply Forall_cons in H as [Hc Hl]. cbn. rewrite Hc. by apply IH.
Qed.

Lemma digits_value_stop (rest : jsstring) acc :
  (∀ c, head rest = Some c → is_digit c = false) → digits_value acc rest = acc.
Proof.
  destruct rest as [| c r]; [done |]. intros H. cbn. by rewrite (H c eq_refl).
Qed.

Lemma digits_value_nonneg (l : jsstring) : ∀ acc, 0 ≤ acc → 0 ≤ digits_value acc l.
Proof.
  induction l as [| c l IH]; intros acc H; [done |]. cbn.
  destruct (is_digit c) eqn:E; [| done]. apply IH.
  unfold is_digit in E. rewrite andb_true_iff, N.leb_le, N.leb_le in E. lia.
Qed.

Lemma to_number_safe (z : Z) : Z.abs z < 2 ^ 53 → to_number z = Int z.
Proof.
  intros H. unfold to_number, round_double.
  rewrite (proj2 (Z.ltb_lt _ _) H). f_equal. destruct z; lia.
Qed.

Lemma parseInt_digits (c : code_unit) (s : jsstring) :
  is_digit c = true →
  parseInt (c :: s) = to_number (digits_value 0 (c :: s))
  ∧ parseInt (45%N :: c :: s) = to_number (- digits_value 0 (c :: s)).
Proof.
  intros Hc. pose proof (digit_cases c Hc) as Hcases.
  assert (E : ∀ z, -1 * z = - z) by (intros; lia).
  assert (E' : ∀ z, 1 * z = z) by (intros; lia).
  unfold parseInt.
  repeat (destruct Hcases as [-> | Hcases]); try subst c;
    cbn [trim_start is_whitespace]; cbv [is_whitespace];
    cbn -[digits_value Z.mul to_number];
    by rewrite E, E'.
Qed.

(** X9. [parseInt] reads a leading integer and ignores the rest: white
    space before it and everything from the first code unit that is
    not a digit on do not count, a minus sign negates, and the digits
    alone give a nonnegative value.  The result is the double nearest
    to the integer read, hence the integer itself below 2^53. *)
Theorem parseInt_prefix (ws ds rest : jsstring) :
  Forall (λ c, is_whitespace c = true) ws →
  ds ≠ [] →
  Forall (λ c, is_digit c = true) ds →
  (∀ c, head rest = Some c → is_digit c = false) →
  parseInt (ws ++ ds ++ rest) = to_number (digits_value 0 ds)
  ∧ parseInt (ws ++ 45%N :: ds ++ rest) = to_number (- digits_value 0 ds)
  ∧ 0 ≤ digits_value 0 ds
  ∧ (digits_value 0 ds < 2 ^ 53 →
     parseInt (ws ++ ds ++ rest) = Int (digits_value 0 ds)
     ∧ parseInt (ws ++ 45%N :: ds ++ rest) = Int (- digits_value 0 ds)).
Proof.
  intros Hws Hne Hds Hrest.
  destruct ds as [| c ds]; [done |].
  pose proof Hds as Hds'. apply Forall_cons in Hds' as [Hc _].
  destruct (parseInt_digits c (ds ++ rest) Hc) as [Hpos Hneg].
  assert (Ev : digits_value 0 (c :: ds ++ rest) = digits_value 0 (c :: ds)).
  { change (c :: ds ++ rest) with ((c :: ds) ++ rest).
    rewrite digits_value_app by done. by apply digits_value_stop. }
  assert (Et : ∀ s, parseInt (ws ++ s) = parseInt s).
  { intros s. unfold parseInt. by rewrite trim_start_whitespace. }
  assert (Hnn : 0 ≤ digits_value 0 (c :: ds)) by by apply digits_value_nonneg.
  assert (E1 : parseInt (ws ++ (c :: ds) ++ rest) = to_number (digits_value 0 (c :: ds))).
  { change (ws ++ (c :: ds) ++ rest) with (ws ++ c :: ds ++ rest).
    by rewrite Et, Hpos, Ev. }
  assert (E2 : parseInt (ws ++ 45%N :: (c :: ds) ++ rest)
               = to_number (- digits_value 0 (c :: ds))).
  { change (ws ++ 45%N :: (c :: ds) ++ rest) with (ws ++ 45%N :: c :: ds ++ rest).
    by rewrite Et, Hneg, Ev. }
  split; [exact E1 |]. split; [exact E2 |]. split; [exact Hnn |].
  intros Hsafe. rewrite E1, E2. split; apply to_number_safe; lia.
Qed.

Lemma parseInt_prefix_witness :
  Forall (λ c, is_whitespace c = true) (of_string "  ")
  ∧ Forall (λ c, is_digit c = true) (of_string "1500")
  ∧ parseInt (of_string "  " ++ of_string "1500" ++ of_string "+ clients")
    = Int 1500.
Proof.
  assert (H1 : Forall (λ c, is_whitespace c = true) (of_string "  "))
    by (repeat constructor).
  assert (H2 : of_string "1500" ≠ []) by done.
  assert (H3 : Forall (λ c, is_digit c = true) (of_string "1500"))
    by (repeat constructor).
  assert (H4 : ∀ c, head (of_string "+ clients") = Some c → is_digit c = false).
  { intros c Hc. injection Hc as <-. reflexivity. }
  split; [exact H1 |]. split; [exact H3 |].
  refine (proj1 (proj2 (proj2 (proj2 (parseInt_prefix (of_string "  ")
            (of_string "1500") (of_string "+ clients") H1 H2 H3 H4))) _)).
  by vm_compute.
Defined.

(** Beyond 2^53 the value read is rounded, and a long enough run of
    digits reads as infinity. *)
Lemma parseInt_rounds :
  parseInt (of_string "9007199254740993") = Int 9007199254740992
  ∧ parseInt (of_string "-9007199254740995") = Int (-9007199254740996)
  ∧ parseInt (replicate 310 57%N) = Infinity false.
Proof. split; [| split]; by vm_compute. Qed.

Lemma of_string_pretty_char (d : N) :
  (d < 10)%N → Ascii.N_of_ascii (pretty_N_char d) = (48 + d)%N.
Proof.
  intros H.
  assert (Hc : (d = 0 ∨ d = 1 ∨ d = 2 ∨ d = 3 ∨ d = 4
                ∨ d = 5 ∨ d = 6 ∨ d = 7 ∨ d = 8 ∨ d = 9)%N) by lia.
  repeat (destruct Hc as [-> | Hc]); try subst d; reflexivity.
Qed.

(** The digits [pretty] prints for [x], in front of what it was given. *)
Lemma pretty_N_go_digits (x : N) : ∀ s,
  ∃ ds, of_string (pretty_N_go x s) = ds ++ of_string s
        ∧ Forall (λ c, is_digit c = true) ds
        ∧ (∀ acc, digits_value acc ds = acc * 10 ^ Z.of_nat (length ds) + Z.of_N x)
        ∧ ((0 < x)%N → ds ≠ []).
Proof.
  induction (N.lt_wf_0 x) as [x _ IH]. intros s.
  destruct (decide (x = 0%N)) as [-> | Hx].
  - exists []. rewrite pretty_N_go_0. repeat split; [constructor | | lia].
    intros acc. cbn. lia.
  - assert (Hpos : (0 < x)%N) by lia.
    rewrite pretty_N_go_step by done.
    destruct (IH (x `div` 10)%N (N.div_lt x 10 Hpos eq_refl)
                (String (pretty_N_char (x `mod` 10)) s))
      as (ds & Heq & Hds & Hval & _).
    assert (Hmod : (x `mod` 10 < 10)%N) by (apply N.mod_lt; lia).
    pose proof (of_string_pretty_char _ Hmod) as Hchar.
    exists (ds ++ [(48 + x `mod` 10)%N]). split; [| split; [| split]].
    + rewrite Heq. cbn [of_string]. rewrite Hchar. by rewrite <- app_assoc.
    + apply Forall_app. split; [done |]. constructor; [| constructor].
      unfold is_digit. rewrite andb_true_iff, N.leb_le, N.leb_le. clear -Hmod. revert Hmod. generalize (x `mod` 10)%N. lia.
    + intros acc. rewrite digits_value_app by done. rewrite Hval.
      cbn [digits_value].
      assert (Hdig : is_digit (48 + x `mod` 10)%N = true).
      { unfold is_digit. rewrite andb_true_iff, N.leb_le, N.leb_le. clear -Hmod. revert Hmod. generalize (x `mod` 10)%N. lia. }
      rewrite Hdig, length_app. cbn [length].
      rewrite Nat2Z.inj_add, Z.pow_add_r by lia.
      rewrite N2Z.inj_add, N2Z.inj_mod, N2Z.inj_div.
      pose proof (Z.div_mod (Z.of_N x) 10 ltac:(lia)) as Hdm.
      change (Z.of_N 10) with 10 in *. change (Z.of_N 48) with 48.
      change (10 ^ Z.of_nat 1) with 10.
      revert Hdm. generalize (Z.of_N x `div` 10) (Z.of_N x `mod` 10).
      generalize (10 ^ Z.of_nat (length ds)). intros P q r Hdm. lia.
    + intros _. by destruct ds.
Qed.

Lemma parseInt_pretty_pos (p : positive) :
  ∃ c ds, of_string (pretty (N.pos p)) = c :: ds
          ∧ is_digit c = true
          ∧ digits_value 0 (c :: ds) = Z.pos p.
Proof.
  unfold pretty, pretty_N. rewrite decide_False by done.
  destruct (pretty_N_go_digits (N.pos p) "") as (ds & Heq & Hds & Hval & Hne).
  cbn [of_string] in Heq. rewrite app_nil_r in Heq.
  destruct ds as [| c ds]; [by destruct Hne |].
  exists c, ds. split; [done |]. apply Forall_cons in Hds as [Hc _].
  split; [done |]. rewrite Hval. cbn [Z.mul]. done.
Qed.

(** X10. What the counter displays reads back as the number it shows,
    as long as that number is [NaN] or an integer below 2^53 in
    magnitude: [parseInt] of the text [ToString] gives is then the
    number itself.  From 10^21 on the text is in exponent notation and
    reads back as its leading digit; an infinity reads back as [NaN]. *)
Theorem parseInt_ToString (n : number) :
  safe_integer n →
  parseInt (of_string (ToString n)) = n
  ∧ parseInt (of_string (ToString (Int (10 ^ 21)))) = Int 1
  ∧ parseInt (of_string (ToString (Infinity false))) = NaN.
Proof.
  intros Hn. split; [| split; by vm_compute].
  destruct n as [| z | b]; [reflexivity | | done]. cbn [safe_integer] in Hn.
  rewrite ToString_safe by done.
  destruct z as [| p | p].
  - reflexivity.
  - change (pretty (Z.pos p)) with (pretty (N.pos p)).
    destruct (parseInt_pretty_pos p) as (c & ds & -> & Hc & Hv).
    rewrite (proj1 (parseInt_digits c ds Hc)), Hv. by apply to_number_safe.
  - change (pretty (Z.neg p)) with ("-" +:+ pretty (N.pos p)).
    change (of_string ("-" +:+ pretty (N.pos p)))
      with (45%N :: of_string (pretty (N.pos p))).
    destruct (parseInt_pretty_pos p) as (c & ds & -> & Hc & Hv).
    rewrite (proj2 (parseInt_digits c ds Hc)), Hv. by apply to_number_safe.
Qed.

Lemma parseInt_ToString_witness :
  safe_integer (Int (-1250))
  ∧ parseInt (of_string (ToString (Int (-1250)))) = Int (-1250).
Proof.
  assert (H : safe_integer (Int (-1250))) by (by vm_compute).
  split; [exact H |]. exact (proj1 (parseInt_ToString (Int (-1250)) H)).
Defined.

(* ------------------------------------------------------------------ *)
(** ** Mobile menu, further *)
(* ------------------------------------------------------------------ *)

Section menu_facts.
Import Menu.

Lemma toggleMobileMenu_run s menu toggle :
  navMenu s = Some menu → navToggle s = Some toggle →
  toggleMobileMenu s
  = Normal
      (let '(cl, isOpen) := DOMTokenList.toggle "open" (classList menu) in
       {| navMenu := Some (set_classList cl menu);
          navToggle := Some (setAttribute "aria-expanded" (bool_string isOpen) toggle);
          body := set_classList
                    (DOMTokenList.toggle_force "menu-open" isOpen (classList (body s)))
                    (body s) |}).
Proof.
  intros Hm Ht. unfold toggleMobileMenu. rewrite Hm. cbn [deref].
  rewrite bind_Normal. destruct (DOMTokenList.toggle _ _) as [cl isOpen].
  rewrite Ht. cbn [deref]. by rewrite bind_Normal.
Qed.

End menu_facts.

(** X11. One click on the toggle control flips the menu and brings the
    three indicators in line, whatever they were before: afterwards the
    menu carries [open] exactly when it did not before, [aria-expanded]
    reads ["true"] or ["false"] accordingly, and the body carries
    [menu-open] exactly when the menu is open. *)
Theorem toggleMobileMenu_in_sync (s : Menu.state) (menu toggle : Element) :
  Menu.navMenu s = Some menu →
  Menu.navToggle s = Some toggle →
  ∃ s' menu' toggle',
    Menu.toggleMobileMenu s = Normal s'
    ∧ Menu.navMenu s' = Some menu' ∧ Menu.navToggle s' = Some toggle'
    ∧ has_class "open" menu' = negb (has_class "open" menu)
    ∧ getAttribute "aria-expanded" toggle'
      = Some (Menu.bool_string (has_class "open" menu'))
    ∧ has_class "menu-open" (Menu.body s') = has_class "open" menu'.
Proof.
  intros Hm Ht. rewrite (toggleMobileMenu_run s menu toggle Hm Ht).
  unfold DOMTokenList.toggle, has_class, getAttribute.
  destruct (DOMTokenList.contains "open" (classList menu)) eqn:E.
  - eexists _, _, _. split; [reflexivity |].
    cbn [Menu.navMenu Menu.navToggle Menu.body].
    split; [reflexivity |]. split; [reflexivity |].
    unfold setAttribute, set_classList, DOMTokenList.toggle_force.
    cbn [classList attributes negb].
    rewrite !contains_remove. split; [done |].
    split; [by rewrite lookup_insert_eq | done].
  - eexists _, _, _. split; [reflexivity |].
    cbn [Menu.navMenu Menu.navToggle Menu.body].
    split; [reflexivity |]. split; [reflexivity |].
    unfold setAttribute, set_classList, DOMTokenList.toggle_force.
    cbn [classList attributes negb].
    rewrite contains_add.
    assert (Ho : DOMTokenList.contains "open" (classList menu ++ ["open"]) = true).
    { apply contains_true, elem_of_app. right. left. }
    rewrite Ho. split; [done |]. split; [by rewrite lookup_insert_eq | done].
Qed.

Lemma toggleMobileMenu_in_sync_witness :
  let s := Menu.mkState (Some (mkElement ["nav__menu"] ∅ ""))
             (Some (mkElement ["nav__toggle"] ∅ ""))
             (mkElement ["menu-open"] ∅ "") in
  ∃ s', Menu.toggleMobileMenu s = Normal s'
        ∧ has_class "menu-open" (Menu.body s') = true.
Proof.
  intros s.
  destruct (toggleMobileMenu_in_sync s (mkElement ["nav__menu"] ∅ "")
              (mkElement ["nav__toggle"] ∅ "") eq_refl eq_refl)
    as (s' & menu' & toggle' & Hs & _ & _ & Ho & _ & Hb).
  exists s'. split; [exact Hs |]. by rewrite Hb, Ho.
Defined.

(** X12. What closes the menu, with a click taken through every
    listener it reaches.  A key other than Escape does nothing, and
    Escape closes an open menu.  A click on a navigation link leaves
    the menu closed.  A click on the toggle control flips the menu: the
    document's listener, which runs after the control's, leaves the
    menu as the control's listener left it.  Any other click closes an
    open menu when it lands outside the menu and changes nothing when
    it lands inside; on a closed menu it changes nothing. *)
Theorem menu_closes_on_escape_or_outside (s : Menu.state) (menu toggle : Element)
    (key : string) (inside inner : bool) :
  Menu.navMenu s = Some menu →
  Menu.navToggle s = Some toggle →
  (key ≠ "Escape" → Menu.onKeydown key s = Normal s)
  ∧ (∃ s', MenuEvents.click (MenuEvents.mkTarget false true inner inside) s = Normal s'
           ∧ Menu.closed s')
  ∧ MenuEvents.click (MenuEvents.mkTarget true false inner inside) s
    = Menu.toggleMobileMenu s
  ∧ (has_class "open" menu = true →
     (∃ s', Menu.onKeydown "Escape" s = Normal s' ∧ Menu.closed s')
     ∧ (∃ s', MenuEvents.click (MenuEvents.mkTarget false false inner false) s
              = Normal s'
              ∧ Menu.closed s')
     ∧ MenuEvents.click (MenuEvents.mkTarget false false inner true) s = Normal s)
  ∧ (has_class "open" menu = false →
     Menu.onKeydown "Escape" s = Normal s
     ∧ MenuEvents.click (MenuEvents.mkTarget false false inner inside) s = Normal s).
Proof.
  intros Hm Ht.
  assert (Hc : ∃ s', Menu.closeMobileMenu s = Normal s' ∧ Menu.closed s').
  { destruct (Menu.closeMobileMenu s) as [s' |] eqn:E.
    - exists s'. split; [done |]. by eapply closeMobileMenu_makes_closed.
    - unfold Menu.closeMobileMenu in E. by rewrite Hm, Ht in E. }
  assert (Hinit : Menu.initMobileNav s = true).
  { unfold Menu.initMobileNav. by rewrite Hm, Ht. }
  assert (Hdoc : ∀ s1 a b, Menu.closed s1 → Menu.onDocumentClick a b s1 = Normal s1).
  { intros s1 a b ([menu1 [Hm1 Ho1]] & _). unfold Menu.onDocumentClick.
    rewrite Hm1. cbn [deref]. by rewrite bind_Normal, Ho1. }
  assert (Hplain : ∀ a, MenuEvents.click (MenuEvents.mkTarget false false inner a) s
                        = Menu.onDocumentClick a false s).
  { intros a. unfold MenuEvents.click. rewrite Hinit.
    cbn [MenuEvents.inToggle MenuEvents.inLink MenuEvents.linkInside MenuEvents.inMenu].
    unfold mret, completion_ret. by destruct inner; rewrite !bind_Normal. }
  split; [| split; [| split; [| split]]].
  - intros Hk. unfold Menu.onKeydown. by rewrite bool_decide_eq_false_2.
  - destruct Hc as (s' & Hs' & Hcl). exists s'. split; [| done].
    unfold MenuEvents.click. rewrite Hinit.
    cbn [MenuEvents.inToggle MenuEvents.inLink MenuEvents.linkInside MenuEvents.inMenu].
    unfold mret, completion_ret.
    destruct inner; rewrite ?bind_Normal, Hs', ?bind_Normal; by apply Hdoc.
  - unfold MenuEvents.click. rewrite Hinit.
    cbn [MenuEvents.inToggle MenuEvents.inLink MenuEvents.linkInside MenuEvents.inMenu].
    unfold mret, completion_ret.
    assert (E : ∀ s1, Menu.toggleMobileMenu s = Normal s1 →
                      Menu.onDocumentClick inside true s1 = Normal s1).
    { intros s1. rewrite (toggleMobileMenu_run s menu toggle Hm Ht).
      destruct (DOMTokenList.toggle "open" (classList menu)) as [cl isOpen].
      intros [= <-]. unfold Menu.onDocumentClick. cbn [Menu.navMenu deref].
      by rewrite bind_Normal, andb_false_r. }
    destruct inner; rewrite ?bind_Normal;
      (destruct (Menu.toggleMobileMenu s) as [s1 |] eqn:Et; [| done]);
      rewrite ?bind_Normal; exact (E s1 eq_refl).
  - intros Ho. split; [| split].
    + unfold Menu.onKeydown. rewrite bool_decide_eq_true_2 by done.
      rewrite Hm. cbn [deref]. rewrite bind_Normal, Ho. exact Hc.
    + rewrite Hplain. unfold Menu.onDocumentClick. rewrite Hm. cbn [deref].
      rewrite bind_Normal, Ho. exact Hc.
    + rewrite Hplain. unfold Menu.onDocumentClick. rewrite Hm. cbn [deref].
      by rewrite bind_Normal, Ho.
  - intros Ho. split.
    + unfold Menu.onKeydown. case_bool_decide; [| done].
      rewrite Hm. cbn [deref]. by rewrite bind_Normal, Ho.
    + rewrite Hplain. unfold Menu.onDocumentClick. rewrite Hm. cbn [deref].
      by rewrite bind_Normal, Ho.
Qed.

Lemma menu_closes_on_escape_or_outside_witness :
  let s := Menu.mkState (Some (mkElement ["nav__menu"; "open"] ∅ ""))
             (Some (mkElement ["nav__toggle"] {["aria-expanded" := of_string "true"]} ""))
             (mkElement ["menu-open"] ∅ "") in
  (∃ s', Menu.onKeydown "Escape" s = Normal s' ∧ Menu.closed s')
  ∧ MenuEvents.click (MenuEvents.mkTarget true false false false) s
    = Normal (Menu.mkState (Some (mkElement ["nav__menu"] ∅ ""))
                (Some (mkElement ["nav__toggle"]
                         {["aria-expanded" := of_string "false"]} ""))
                (mkElement [] ∅ "")).
Proof.
  intros s.
  destruct (menu_closes_on_escape_or_outside s
              (mkElement ["nav__menu"; "open"] ∅ "")
              (mkElement ["nav__toggle"] {["aria-expanded" := of_string "true"]} "")
              "Tab" false false eq_refl eq_refl)
    as (_ & _ & Htoggle & Hopen & _).
  split; [exact (proj1 (Hopen eq_refl)) |].
  rewrite Htoggle. by vm_compute.
Defined.

(* ------------------------------------------------------------------ *)
(** ** Keyboard navigation *)
(* ------------------------------------------------------------------ *)

Lemma keyboard_next index length :
  (index < length)%nat →
  KeyboardNav.onKeydown "ArrowRight" index length
  = Some (if bool_decide (S index = length) then 0%nat else S index).
Proof.
  intros H. unfold KeyboardNav.onKeydown. cbn [bool_decide orb]. f_equal.
  rewrite Z.rem_mod_nonneg by lia. case_bool_decide as E.
  - replace (Z.of_nat index + 1) with (1 * Z.of_nat length) by lia.
    by rewrite Z.mod_mul by lia.
  - rewrite Z.mod_small by lia. lia.
Qed.

Lemma keyboard_prev index length :
  (index < length)%nat →
  KeyboardNav.onKeydown "ArrowLeft" index length
  = Some (if bool_decide (index = 0%nat) then (length - 1)%nat else (index - 1)%nat).
Proof.
  intros H. unfold KeyboardNav.onKeydown. cbn [bool_decide orb]. f_equal.
  rewrite Z.rem_mod_nonneg by lia. case_bool_decide as E.
  - subst index. rewrite Z.mod_small by lia. lia.
  - replace (Z.of_nat index - 1 + Z.of_nat length)
      with (Z.of_nat index - 1 + 1 * Z.of_nat length) by lia.
    rewrite Z.mod_add by lia. rewrite Z.mod_small by lia. lia.
Qed.

(** X13. Arrow keys walk the navigation links in a ring: from a link's
    position the next and the previous position are positions of
    links, the first follows the last, moving on and back (or back and
    on) returns to the same link, the down and up arrows do as right
    and left, and any other key moves nothing. *)
Theorem keyboard_ring (index length : nat) (key : string) :
  (index < length)%nat →
  ∃ next prev,
    KeyboardNav.onKeydown "ArrowRight" index length = Some next
    ∧ KeyboardNav.onKeydown "ArrowLeft" index length = Some prev
    ∧ (next < length)%nat ∧ (prev < length)%nat
    ∧ (S index = length → next = 0%nat)
    ∧ (index = 0%nat → S prev = length)
    ∧ KeyboardNav.onKeydown "ArrowLeft" next length = Some index
    ∧ KeyboardNav.onKeydown "ArrowRight" prev length = Some index
    ∧ KeyboardNav.onKeydown "ArrowDown" index length = Some next
    ∧ KeyboardNav.onKeydown "ArrowUp" index length = Some prev
    ∧ (key ∉ ["ArrowRight"; "ArrowDown"; "ArrowLeft"; "ArrowUp"] →
       KeyboardNav.onKeydown key index length = None).
Proof.
  intros H. eexists _, _.
  split; [by apply keyboard_next |]. split; [by apply keyboard_prev |].
  split; [case_bool_decide; lia |]. split; [case_bool_decide; lia |].
  split; [intros E; by rewrite bool_decide_eq_true_2 |].
  split; [intros E; rewrite bool_decide_eq_true_2 by done; lia |].
  split.
  { rewrite keyboard_prev by (case_bool_decide; lia). f_equal.
    repeat case_bool_decide; lia. }
  split.
  { rewrite keyboard_next by (case_bool_decide; lia). f_equal.
    repeat case_bool_decide; lia. }
  split; [by rewrite <- keyboard_next |]. split; [by rewrite <- keyboard_prev |].
  intros Hk. unfold KeyboardNav.onKeydown.
  rewrite !not_elem_of_cons in Hk. destruct Hk as (H1 & H2 & H3 & H4 & _).
  by rewrite !bool_decide_eq_false_2.
Qed.

Lemma keyboard_ring_witness :
  (4 < 5)%nat
  ∧ KeyboardNav.onKeydown "ArrowRight" 4 5 = Some 0%nat
  ∧ KeyboardNav.onKeydown "ArrowLeft" 0 5 = Some 4%nat.
Proof.
  assert (H : (4 < 5)%nat) by lia.
  destruct (keyboard_ring 4 5 "Tab" H)
    as (next & prev & Hn & _ & _ & _ & Hwrap & _ & Hback & _).
  split; [exact H |]. rewrite (Hwrap eq_refl) in Hn, Hback.
  split; [exact Hn | reflexivity].
Defined.

(* ------------------------------------------------------------------ *)
(** ** Parallax *)
(* ------------------------------------------------------------------ *)

Lemma parallax_step_invariant (s : Parallax.state) (e : Parallax.event) :
  Parallax.requested s = (if Parallax.ticking s then 1 else 0)%nat →
  Parallax.requested (Parallax.step s e)
  = (if Parallax.ticking (Parallax.step s e) then 1 else 0)%nat.
Proof.
  intros H. destruct e as [| y]; cbn [Parallax.step].
  - unfold Parallax.onScroll. destruct (Parallax.ticking s) eqn:E; cbn; [by rewrite E |].
    by rewrite H.
  - unfold Parallax.onFrame. destruct (Parallax.requested s) eqn:E; [| done].
    by rewrite E.
Qed.

(** X14. The parallax listener never has more than one animation frame
    requested, however many scroll events arrive and however they mix
    with frames: one is requested exactly while [ticking] is set.  A
    frame that follows scroll events moves the particles for the offset
    read in that frame, and every scroll event before the frame after
    the first is dropped. *)
Theorem parallax_one_frame (events : list Parallax.event) (n : nat) (y : Q) :
  let s := Parallax.run events Parallax.init in
  Parallax.requested s = (if Parallax.ticking s then 1 else 0)%nat
  ∧ (Parallax.requested s ≤ 1)%nat
  ∧ Parallax.run (replicate (S n) Parallax.Scroll) s
    = Parallax.mkState true 1 (Parallax.moved_for s)
  ∧ Parallax.run (replicate (S n) Parallax.Scroll ++ [Parallax.Frame y]) s
    = Parallax.mkState false 0 (Some y).
Proof.
  intros s.
  assert (Hinv : Parallax.requested s = (if Parallax.ticking s then 1 else 0)%nat).
  { subst s. unfold Parallax.run.
    induction events as [| e events IH] using rev_ind; [done |].
    rewrite foldl_app. cbn [foldl]. by apply parallax_step_invariant. }
  clearbody s.
  assert (Hscroll : ∀ k, Parallax.run (replicate (S k) Parallax.Scroll) s
                         = Parallax.mkState true 1 (Parallax.moved_for s)).
  { induction k as [| k IH].
    - cbn. unfold Parallax.onScroll. destruct s as [[] r m]; cbn in *; by subst.
    - rewrite replicate_S_end. unfold Parallax.run in *. rewrite foldl_app, IH. done. }
  split; [exact Hinv |]. split; [rewrite Hinv; destruct (Parallax.ticking s); lia |].
  split; [apply Hscroll |].
  unfold Parallax.run in *. by rewrite foldl_app, Hscroll.
Qed.

(* ------------------------------------------------------------------ *)
(** ** Active navigation link, further *)
(* ------------------------------------------------------------------ *)

Lemma hits_hrefs scrollY headerHeight sections (l1 l2 : list Element) :
  (getAttribute "href" <$> l1) = (getAttribute "href" <$> l2) →
  ActiveLink.hits scrollY headerHeight l1 sections
  = ActiveLink.hits scrollY headerHeight l2 sections.
Proof.
  intros H. unfold ActiveLink.hits. apply list_filter_iff. intros sec.
  unfold ActiveLink.hit. by rewrite (first_link_hrefs _ l1 l2 H).
Qed.

Lemma visit_preserves engine scrollY headerHeight k (l l' : list Element) sec :
  ActiveLink.visit engine scrollY headerHeight k l sec = Normal l' →
  Forall2 (λ e e', attributes e' = attributes e
                   ∧ textContent e' = textContent e
                   ∧ ∀ c, c ≠ "active" → has_class c e' = has_class c e) l l'.
Proof.
  assert (Hrefl : Forall2 (λ e e', attributes e' = attributes e
                   ∧ textContent e' = textContent e
                   ∧ ∀ c, c ≠ "active" → has_class c e' = has_class c e) l l).
  { by apply Forall_Forall2_diag, Forall_true. }
  assert (Hstrip : Forall2 (λ e e', attributes e' = attributes e
                   ∧ textContent e' = textContent e
                   ∧ ∀ c, c ≠ "active" → has_class c e' = has_class c e)
                     l (classList_remove "active" <$> l)).
  { apply Forall2_fmap_r. eapply Forall2_impl; [exact Hrefl |].
    intros e e' (Ha & Ht & Hc). cbn. split; [done |]. split; [done |].
    intros c Hne. rewrite has_class_remove_ne by done. by apply Hc. }
  unfold ActiveLink.visit.
  destruct (ActiveLink.querySelector engine k (ActiveLink.id sec) l) as [[i | |] |];
    cbn; [| | | done].
  - destruct (ActiveLink.in_span _ _ _); intros [= <-]; [| done].
    apply Forall2_alter_r; [done |].
    intros e e' _ _ (Ha & Ht & Hc). cbn. split; [done |]. split; [done |].
    intros c Hne. rewrite has_class_add_ne by done. by apply Hc.
  - by destruct (ActiveLink.in_span _ _ _); intros [= <-].
  - by intros [= <-].
Qed.

(** X15. [updateActiveLink] changes nothing on a link but its [active]
    class, whether it runs through or ends in an exception: the links
    keep their number and order, and each keeps its attributes, its
    text and every other class. *)
Theorem updateActiveLink_preserves (engine : nat → completion ActiveLink.found)
    (scrollY : Q) (headerHeight : Z)
    (sections : list ActiveLink.section) (navLinks : list Element) :
  Forall2 (λ e e', attributes e' = attributes e
                   ∧ textContent e' = textContent e
                   ∧ ∀ c, c ≠ "active" → has_class c e' = has_class c e)
    navLinks
    (ActiveLink.updateActiveLink engine scrollY headerHeight sections navLinks).1.
Proof.
  unfold ActiveLink.updateActiveLink. generalize 0%nat. revert navLinks.
  induction sections as [| sec sections IH]; intros l k.
  - by apply Forall_Forall2_diag, Forall_true.
  - cbn [ActiveLink.forEach].
    destruct (ActiveLink.visit engine scrollY headerHeight k l sec) as [l' |] eqn:E.
    + apply visit_preserves in E. specialize (IH l' (S k)).
      eapply Forall2_trans; [| exact E | exact IH].
      intros e1 e2 e3 (Ha & Ht & Hc) (Ha' & Ht' & Hc').
      split; [congruence |]. split; [congruence |].
      intros c Hne. by rewrite Hc', Hc.
    + by apply Forall_Forall2_diag, Forall_true.
Qed.

(** X16. For sections whose ids can stand in the selector as they are:
    when some section with a link matches the offset, the outcome of
    [updateActiveLink] does not depend on which links were active
    before; and in every case a second update at the same offset
    changes nothing. *)
Theorem updateActiveLink_idempotent (engine : nat → completion ActiveLink.found)
    (scrollY : Q) (headerHeight : Z)
    (sections : list ActiveLink.section) (navLinks others : list Element) :
  ActiveLink.plain sections →
  (ActiveLink.hits scrollY headerHeight navLinks sections ≠ [] →
   (getAttribute "href" <$> others) = (getAttribute "href" <$> navLinks) →
   (classList_remove "active" <$> others) = (classList_remove "active" <$> navLinks) →
   ActiveLink.updateActiveLink engine scrollY headerHeight sections others
   = ActiveLink.updateActiveLink engine scrollY headerHeight sections navLinks)
  ∧ ActiveLink.updateActiveLink engine scrollY headerHeight sections
      (ActiveLink.updateActiveLink engine scrollY headerHeight sections navLinks).1
    = ActiveLink.updateActiveLink engine scrollY headerHeight sections navLinks.
Proof.
  intros Hp. unfold ActiveLink.updateActiveLink.
  assert (Hdep : ∀ l1 l2 : list Element,
    ActiveLink.hits scrollY headerHeight l2 sections ≠ [] →
    (getAttribute "href" <$> l1) = (getAttribute "href" <$> l2) →
    (classList_remove "active" <$> l1) = (classList_remove "active" <$> l2) →
    ActiveLink.forEach engine scrollY headerHeight 0 sections l1
    = ActiveLink.forEach engine scrollY headerHeight 0 sections l2).
  { intros l1 l2 Hne Hh Hs. rewrite !forEach_closed_form by done.
    rewrite (hits_hrefs scrollY headerHeight sections l1 l2 Hh).
    destruct (last _) as [sec |] eqn:El; [| by apply last_None in El].
    rewrite (first_link_hrefs _ l1 l2 Hh), Hs.
    destruct (ActiveLink.first_link _ l2) as [i |] eqn:Eq; [done |].
    apply last_Some_elem_of in El. unfold ActiveLink.hits in El.
    apply list_elem_of_filter in El as [El _]. unfold ActiveLink.hit in El.
    rewrite Eq in El. rewrite bool_decide_eq_false_2 in El by (by intros [? ?]).
    done. }
  split; [apply Hdep |].
  destruct (decide (ActiveLink.hits scrollY headerHeight navLinks sections = []))
    as [Hnone | Hsome].
  - assert (E : ActiveLink.forEach engine scrollY headerHeight 0 sections navLinks
                = (navLinks, false)).
    { rewrite forEach_closed_form by done. by rewrite Hnone. }
    by rewrite !E.
  - destruct (forEach_invariant engine scrollY headerHeight sections 0 navLinks)
      as [Hh Hs].
    by apply Hdep.
Qed.

(* ------------------------------------------------------------------ *)
(** ** Observers, further *)
(* ------------------------------------------------------------------ *)

(** X17. The reveal observer acts on an element only through an
    intersecting entry for it.  For elements that start without the
    [visible] class, after any batches an element is visible exactly
    when such an entry was delivered, and exactly then it is no longer
    observed; an element without such an entry is as [initScrollReveal]
    left it: tagged [reveal] and observed. *)
Theorem reveal_iff_triggered (els : list Element) (batches : list (list entry))
    (i : nat) (el : Element) :
  els !! i = Some el →
  has_class "visible" el = false →
  let s := Reveal.run batches (Reveal.initScrollReveal els) in
  let triggered := ∃ e, e ∈ concat batches ∧ target e = i ∧ isIntersecting e = true in
  (Reveal.visible i s = true ↔ triggered)
  ∧ (i ∉ Reveal.observed s ↔ triggered)
  ∧ (¬ triggered →
     Reveal.revealElements s !! i = Some (classList_add "reveal" el)).
Proof.
  intros Hel Hv s triggered.
  assert (Hlt : (i < length els)%nat) by (by eapply lookup_lt_Some).
  assert (Hno : ¬ triggered →
            Reveal.revealElements s !! i = Some (classList_add "reveal" el)
            ∧ i ∈ Reveal.observed s).
  { intros Hn. subst s. rewrite run_callback.
    destruct (callback_other i (concat batches) (Reveal.initScrollReveal els))
      as [H1 H2].
    { apply Forall_forall. intros e Hin [Ht Hi]. apply Hn. by exists e. }
    rewrite H1, H2. cbn. rewrite list_lookup_fmap, Hel. split; [done |].
    apply elem_of_list_to_set, elem_of_seq. lia. }
  assert (Hyes : triggered → Reveal.visible i s = true ∧ i ∉ Reveal.observed s).
  { intros Ht. subst s. rewrite run_callback. apply callback_trigger; [| done].
    cbn. by rewrite length_fmap. }
  assert (Hdec : triggered ∨ ¬ triggered).
  { subst triggered. 
    destruct (decide (Exists (λ e, target e = i ∧ isIntersecting e = true)
                        (concat batches))) as [H | H].
    - left. apply Exists_exists in H as (e & Hin & H). by exists e.
    - right. intros (e & Hin & H'). apply H, Exists_exists. by exists e. }
  split; [| split].
  - split; [| by intros Ht; apply Hyes].
    intros Hvis. destruct Hdec as [Ht | Hn]; [done |].
    destruct (Hno Hn) as [Hl _]. unfold Reveal.visible in Hvis. rewrite Hl in Hvis.
    rewrite has_class_add_ne in Hvis by done. congruence.
  - split; [| by intros Ht; apply Hyes].
    intros Hobs. destruct Hdec as [Ht | Hn]; [done |]. by destruct (Hno Hn).
  - intros Hn. by destruct (Hno Hn).
Qed.

Lemma reveal_iff_triggered_witness :
  let els := [mkElement ["feature"] ∅ ""; mkElement ["feature"] ∅ ""] in
  let batches := [[mkEntry 0 false; mkEntry 1 true]; [mkEntry 0 false]] in
  els !! 0%nat = Some (mkElement ["feature"] ∅ "")
  ∧ Reveal.visible 0 (Reveal.run batches (Reveal.initScrollReveal els)) = false
  ∧ Reveal.visible 1 (Reveal.run batches (Reveal.initScrollReveal els)) = true.
Proof.
  intros els batches.
  assert (H0 : els !! 0%nat = Some (mkElement ["feature"] ∅ "")) by reflexivity.
  assert (H1 : els !! 1%nat = Some (mkElement ["feature"] ∅ "")) by reflexivity.
  split; [exact H0 |]. split.
  - apply not_true_is_false. intros Hv.
    apply (proj1 (reveal_iff_triggered els batches 0 _ H0 eq_refl)) in Hv.
    destruct Hv as (e & Hin & Ht & Hi). cbn in Hin.
    repeat (apply elem_of_cons in Hin as [-> | Hin]; [done |]).
    by apply elem_of_nil in Hin.
  - apply (proj1 (reveal_iff_triggered els batches 1 _ H1 eq_refl)).
    exists (mkEntry 1 true). split; [| done]. cbn. right. left.
Defined.

Section stats_facts.
Implicit Types (s : StatsCounter.state) (e : entry) (i : nat).

Abbreviation stats_inv := Delivery.stats_inv.

Lemma stats_on_entry_inv els now s e :
  stats_inv els s → target e ∈ StatsCounter.observed s →
  stats_inv els (StatsCounter.on_entry now s e)
  ∧ StatsCounter.observed (StatsCounter.on_entry now s e) ⊆ StatsCounter.observed s
  ∧ (∀ i, i ≠ target e → i ∈ StatsCounter.observed s →
          i ∈ StatsCounter.observed (StatsCounter.on_entry now s e)).
Proof.
  intros (Hels & Hobs & Hone & Htgt) Hin. unfold StatsCounter.on_entry.
  destruct (isIntersecting e); [| by repeat split].
  destruct (StatsCounter.statNumbers s !! target e) as [el |] eqn:El;
    [| by repeat split].
  split; [| split].
  - split; [done |]. unfold Delivery.started in *. cbn. split; [| split].
    + intros i Hi. apply elem_of_difference in Hi as [Hi Hne].
      rewrite elem_of_singleton in Hne.
      rewrite filter_app, (Hobs i Hi), filter_cons_False by (cbn; congruence).
      done.
    + intros i. rewrite filter_app, length_app.
      destruct (decide (target e = i)) as [<- | Hne].
      * rewrite (Hobs _ Hin). cbn. rewrite decide_True by done. cbn. lia.
      * rewrite filter_cons_False by (cbn; congruence). cbn.
        specialize (Hone i). lia.
    + apply Forall_app. split; [done |]. constructor; [| constructor].
      exists el. cbn. by rewrite <- Hels.
  - cbn. intros i Hi. by apply elem_of_difference in Hi as [Hi _].
  - cbn. intros i Hne Hi. apply elem_of_difference. split; [done |].
    rewrite elem_of_singleton. done.
Qed.

Lemma stats_callback_inv els now entries : ∀ s,
  stats_inv els s → Delivery.deliverable (StatsCounter.observed s) entries →
  stats_inv els (StatsCounter.callback now entries s).
Proof.
  unfold StatsCounter.callback, Delivery.deliverable.
  induction entries as [| e rest IH]; intros s Hinv [Hnd Hall]; [done |].
  cbn [foldl]. apply Forall_cons in Hall as [He Hrest].
  rewrite fmap_cons in Hnd. apply NoDup_cons in Hnd as [Hfresh Hnd].
  destruct (stats_on_entry_inv els now s e Hinv He) as (Hinv' & _ & Hkeep).
  apply IH; [done |]. split; [done |].
  rewrite Forall_forall in *. intros e' Hin. apply Hkeep; [| by apply Hrest].
  intros Heq. apply Hfresh. rewrite <- Heq. by apply list_elem_of_fmap_2.
Qed.

Lemma stats_run_inv els batches : ∀ s,
  stats_inv els s → Delivery.stats_wellformed batches s →
  stats_inv els (Delivery.stats_run batches s).
Proof.
  induction batches as [| [now b] rest IH]; intros s Hinv Hwf; [done |].
  destruct Hwf as [Hb Hrest]. cbn [Delivery.stats_run].
  apply IH; [| done]. by apply stats_callback_inv.
Qed.

End stats_facts.

(** X18. Each statistic animates at most once.  Over any batches the
    observer delivers (entries only for observed targets, one entry for
    a target in a batch), no element has more than one count animation
    started, an element that is still observed has none, and every
    animation started aims at what [parseInt] reads in the element's
    [data-count] attribute. *)
Theorem stats_animate_once (els : list Element) (s0 : StatsCounter.state)
    (batches : list (Q * list entry)) (i : nat) :
  StatsCounter.initStatsCounter els = Some s0 →
  Delivery.stats_wellformed batches s0 →
  let s := Delivery.stats_run batches s0 in
  (length (Delivery.started i s) ≤ 1)%nat
  ∧ (i ∈ StatsCounter.observed s → Delivery.started i s = [])
  ∧ Forall (λ a, ∃ el, els !! StatsCounter.element a = Some el
                       ∧ StatsCounter.anim_target a
                         = parseInt (attribute_string (getAttribute "data-count" el)))
      (StatsCounter.animations s).
Proof.
  intros Hinit Hwf s.
  assert (H0 : Delivery.stats_inv els s0).
  { unfold StatsCounter.initStatsCounter in Hinit. case_bool_decide; [done |].
    injection Hinit as <-. split; [done |]. split; [done |].
    split; [intros j; cbn; lia | constructor]. }
  destruct (stats_run_inv els batches s0 H0 Hwf) as (_ & Hobs & Hone & Htgt).
  split; [apply Hone |]. split; [apply Hobs | exact Htgt].
Qed.

Lemma stats_animate_once_witness :
  let els := [mkElement ["stat__number"] {["data-count" := of_string "150"]} "0";
              mkElement ["stat__number"] {["data-count" := of_string "98%"]} "0"] in
  let batches := [(0%Q, [mkEntry 0 false; mkEntry 1 true]);
                  (900%Q, [mkEntry 0 true])] in
  ∃ s0, StatsCounter.initStatsCounter els = Some s0
        ∧ Delivery.stats_wellformed batches s0
        ∧ StatsCounter.animations (Delivery.stats_run batches s0)
          = [StatsCounter.mkAnimation 1 (Int 98) 0;
             StatsCounter.mkAnimation 0 (Int 150) 900]
        ∧ (length (Delivery.started 0 (Delivery.stats_run batches s0)) ≤ 1)%nat.
Proof.
  intros els batches.
  destruct (StatsCounter.initStatsCounter els) as [s0 |] eqn:E; [| by vm_compute in E].
  exists s0. split; [reflexivity |].
  assert (Hwf : Delivery.stats_wellformed batches s0).
  { vm_compute in E. injection E as <-. cbn.
    repeat split; repeat constructor;
      try (apply (bool_decide_unpack _); by vm_compute). }
  split; [exact Hwf |]. split.
  - vm_compute in E. injection E as <-. reflexivity.
  - exact (proj1 (stats_animate_once els s0 batches 0 E Hwf)).
Defined.

(* ------------------------------------------------------------------ *)
(** ** Contact form, further *)
(* ------------------------------------------------------------------ *)

(** A quantified class followed by a continuation matches when the
    input splits into a run over the class, of an allowed length, and
    a rest that the continuation matches. *)
Lemma rep_spec (p : code_unit → bool) (k : jsstring → bool) (s : jsstring) :
  ∀ lo hi,
    Regex.rep p lo hi k s = true
    ↔ ∃ pre post, s = pre ++ post
                  ∧ (lo ≤ length pre)%nat ∧ FormEvents.allowed (length pre) hi
                  ∧ Forall (λ c, p c = true) pre ∧ k post = true.
Proof.
  induction s as [| c s IH]; intros lo hi.
  - cbn [Regex.rep]. rewrite andb_true_iff, bool_decide_eq_true. split.
    + intros [-> Hk]. exists [], []. repeat split; [done | | constructor | done].
      destruct hi; cbn; lia.
    + intros (pre & post & Heq & Hlo & _ & _ & Hk).
      symmetry in Heq. apply app_eq_nil in Heq as [-> ->]. cbn in Hlo.
      split; [lia | done].
  - cbn [Regex.rep].
    assert (Hstop : bool_decide (lo = 0%nat) && k (c :: s) = true
                    ↔ ∃ post, c :: s = [] ++ post ∧ (lo ≤ 0)%nat ∧ k post = true).
    { rewrite andb_true_iff, bool_decide_eq_true. split.
      - intros [-> Hk]. exists (c :: s). by repeat split.
      - intros (post & Heq & Hlo & Hk). cbn in Heq. subst post. split; [lia | done]. }
    destruct (p c && Regex.may_take hi) eqn:Etake.
    + apply andb_true_iff in Etake as [Hp Hmay].
      rewrite orb_true_iff, IH, Hstop. split.
      * intros [(pre & post & Heq & Hlo & Hhi & Hall & Hk) | (post & Heq & Hlo & Hk)].
        -- exists (c :: pre), post. subst s. split; [done |]. cbn [length].
           split; [lia |]. split; [| split; [by constructor | done]].
           destruct hi as [[| h] |]; cbn in *; [done | lia | done].
        -- exists [], post. repeat split; [done | cbn; lia | | constructor | done].
           destruct hi; cbn; lia.
      * intros (pre & post & Heq & Hlo & Hhi & Hall & Hk).
        destruct pre as [| c' pre].
        -- right. exists post. by repeat split.
        -- left. injection Heq as <- ->. apply Forall_cons in Hall as [_ Hall].
           exists pre, post. split; [done |]. cbn [length] in *.
           split; [lia |]. split; [| done].
           destruct hi as [[| h] |]; cbn in *; [lia | lia | done].
    + rewrite Hstop. split.
      * intros (post & Heq & Hlo & Hk).
        exists [], post. repeat split; [done | cbn; lia | | constructor | done].
        destruct hi; cbn; lia.
      * intros (pre & post & Heq & Hlo & Hhi & Hall & Hk).
        destruct pre as [| c' pre]; [exists post; by repeat split |].
        exfalso. injection Heq as <- ->. apply Forall_cons in Hall as [Hp _].
        rewrite Hp in Etake. cbn in Etake.
        destruct hi as [[| h] |]; cbn in *; (done || lia).
Qed.

Lemma single_char (a : N) (pre : jsstring) :
  (1 ≤ length pre)%nat → FormEvents.allowed (length pre) (Some 1%nat) →
  Forall (λ c, Regex.char a c = true) pre → pre = [a].
Proof.
  intros Hlo Hhi Hall. destruct pre as [| c [| c' pre]]; cbn in *; [lia | | lia].
  apply Forall_cons in Hall as [Hc _]. unfold Regex.char in Hc.
  apply N.eqb_eq in Hc. by subst.
Qed.

Lemma test_email_pattern (v : jsstring) :
  Regex.test ContactForm.email_pattern v = true ↔ FormEvents.email_shape v.
Proof.
  unfold Regex.test, ContactForm.email_pattern, FormEvents.email_shape.
  cbn [Regex.matches Regex.class Regex.lo Regex.hi]. rewrite rep_spec. split.
  - intros (loc & p1 & -> & Hl1 & _ & Hloc & H1).
    apply rep_spec in H1 as (at_ & p2 & -> & Ha1 & Ha2 & Hat & H2).
    apply (single_char 64) in Hat as ->; [| done..].
    apply rep_spec in H2 as (dom & p3 & -> & Hd1 & _ & Hdom & H3).
    apply rep_spec in H3 as (dot & p4 & -> & Hp1 & Hp2 & Hdot & H4).
    apply (single_char 46) in Hdot as ->; [| done..].
    apply rep_spec in H4 as (tld & p5 & -> & Ht1 & _ & Htld & H5).
    apply bool_decide_eq_true in H5 as ->.
    exists loc, dom, tld. rewrite app_nil_r.
    split; [done |]. split; [intros ->; cbn in Hl1; lia |]. split; [done |].
    split; [intros ->; cbn in Hd1; lia |]. done.
  - intros (loc & dom & tld & -> & Hl & Hloc & Hd & Hdom & Ht & Htld).
    exists loc, ([64%N] ++ dom ++ [46%N] ++ tld). split; [done |].
    split; [destruct loc; [done | cbn; lia] |]. split; [done |]. split; [done |].
    apply rep_spec. exists [64%N], (dom ++ [46%N] ++ tld).
    split; [done |]. split; [done |]. split; [cbn; lia |].
    split; [by repeat constructor |].
    apply rep_spec. exists dom, ([46%N] ++ tld). split; [done |].
    split; [destruct dom; [done | cbn; lia] |]. split; [done |]. split; [done |].
    apply rep_spec. exists [46%N], tld.
    split; [done |]. split; [done |]. split; [cbn; lia |].
    split; [by repeat constructor |].
    apply rep_spec. exists tld, []. rewrite app_nil_r.
    split; [done |]. split; [done |]. split; [done |]. split; [done |].
    by apply bool_decide_eq_true.
Qed.

(** A field whose name has a pattern of its own is valid exactly when
    the pattern matches its trimmed value. *)
Lemma validateField_on_pattern (field : ContactForm.Field) (r : list Regex.item) :
  ContactForm.name field ≠ "subject" →
  ContactForm.patterns (ContactForm.name field) = ContactForm.Own r →
  ∃ field',
    ContactForm.validateField field
    = Normal (Regex.test r (trim (ContactForm.value field)), field').
Proof.
  intros Hn Hp. unfold ContactForm.validateField.
  rewrite bool_decide_eq_false_2 by done. rewrite Hp.
  unfold mret, completion_ret. rewrite bind_Normal.
  destruct (Regex.test _ _); eexists; reflexivity.
Qed.

(** X19. On the field named [email], [validateField] returns true
    exactly when the trimmed value has the shape [local@domain.tld]: a
    nonempty local part over letters, digits and [._%+-], an at sign,
    a nonempty domain over letters, digits, dots and hyphens, a dot,
    and at least two letters.  A value without an at sign, or without a
    dot, never validates. *)
Theorem validateField_email (field : ContactForm.Field) :
  ContactForm.name field = "email" →
  ∃ isValid field',
    ContactForm.validateField field = Normal (isValid, field')
    ∧ (isValid = true ↔ FormEvents.email_shape (trim (ContactForm.value field)))
    ∧ (64%N ∉ trim (ContactForm.value field) → isValid = false)
    ∧ (46%N ∉ trim (ContactForm.value field) → isValid = false).
Proof.
  intros Hn.
  destruct (validateField_on_pattern field ContactForm.email_pattern)
    as [field' Hv]; [by rewrite Hn | by rewrite Hn |].
  eexists _, field'. split; [exact Hv |].
  split; [apply test_email_pattern |].
  split; intros Hnot; apply not_true_is_false; rewrite test_email_pattern;
    intros (loc & dom & tld & Heq & _); apply Hnot; rewrite Heq;
    rewrite !elem_of_app, !list_elem_of_singleton; tauto.
Qed.

Lemma validateField_email_witness :
  let field := ContactForm.mkField "email" (of_string " a@b.co ") true
                 (mkElement ["form__input"; "error"] ∅ "") None in
  ContactForm.name field = "email"
  ∧ ∃ field', ContactForm.validateField field = Normal (true, field').
Proof.
  intros field.
  assert (H : ContactForm.name field = "email") by reflexivity.
  split; [exact H |].
  destruct (validateField_email field H) as (isValid & field' & Hv & Hiff & _).
  exists field'. rewrite Hv. do 2 f_equal. apply Hiff.
  exists (of_string "a"), (of_string "b"), (of_string "co").
  split; [reflexivity |]. repeat split; try done; repeat constructor.
Defined.

Lemma test_message_pattern (v : jsstring) :
  Regex.test ContactForm.message_pattern v = true
  ↔ (10 ≤ length v ≤ 1000)%nat ∧ Forall (λ c, Regex.dot c = true) v.
Proof.
  unfold Regex.test, ContactForm.message_pattern.
  cbn [Regex.matches Regex.class Regex.lo Regex.hi]. apply rep_bounded.
Qed.

(** X20. On the field named [message], [validateField] returns true
    exactly when the trimmed value has 10 to 1000 code units, none of
    them a line terminator.  So a message made of several lines never
    validates, whatever its length, and neither does one that is long
    enough only through the white space around it. *)
Theorem validateField_message (field : ContactForm.Field) :
  ContactForm.name field = "message" →
  ∃ isValid field',
    ContactForm.validateField field = Normal (isValid, field')
    ∧ (isValid = true
       ↔ (10 ≤ length (trim (ContactForm.value field)) ≤ 1000)%nat
         ∧ Forall (λ c, c ≠ 10%N ∧ c ≠ 13%N ∧ c ≠ 8232%N ∧ c ≠ 8233%N)
             (trim (ContactForm.value field)))
    ∧ (10%N ∈ trim (ContactForm.value field) → isValid = false).
Proof.
  intros Hn.
  destruct (validateField_on_pattern field ContactForm.message_pattern)
    as [field' Hv]; [by rewrite Hn | by rewrite Hn |].
  eexists _, field'. split; [exact Hv |].
  assert (Hdot : ∀ c, Regex.dot c = true
                      ↔ c ≠ 10%N ∧ c ≠ 13%N ∧ c ≠ 8232%N ∧ c ≠ 8233%N).
  { intros c. unfold Regex.dot. rewrite negb_true_iff, !orb_false_iff, !N.eqb_neq.
    tauto. }
  assert (Hiff : Regex.test ContactForm.message_pattern (trim (ContactForm.value field))
                 = true
                 ↔ (10 ≤ length (trim (ContactForm.value field)) ≤ 1000)%nat
                   ∧ Forall (λ c, c ≠ 10%N ∧ c ≠ 13%N ∧ c ≠ 8232%N ∧ c ≠ 8233%N)
                       (trim (ContactForm.value field))).
  { rewrite test_message_pattern. rewrite !Forall_forall.
    split; intros [Hl Hall]; (split; [exact Hl |]); intros c Hc;
      apply Hdot; by apply Hall. }
  split; [exact Hiff |].
  intros Hin. apply not_true_is_false. rewrite Hiff. intros [_ Hall].
  rewrite Forall_forall in Hall. by destruct (Hall _ Hin) as [H _].
Qed.

Lemma validateField_message_witness :
  let field := ContactForm.mkField "message"
                 (of_string "Buongiorno," ++ [10%N] ++ of_string "vorrei un preventivo.")
                 true (mkElement ["form__textarea"] ∅ "") None in
  ContactForm.name field = "message"
  ∧ (21 ≤ length (trim (ContactForm.value field)))%nat
  ∧ ∃ field', ContactForm.validateField field = Normal (false, field').
Proof.
  intros field.
  assert (H : ContactForm.name field = "message") by reflexivity.
  split; [exact H |]. split; [vm_compute; lia |].
  destruct (validateField_message field H) as (isValid & field' & Hv & _ & Hlf).
  exists field'. rewrite Hv. do 2 f_equal. apply Hlf.
  apply (bool_decide_unpack _). by vm_compute.
Defined.

Section field_facts.
Import ContactForm.

Abbreviation validated := FormEvents.validated.

Lemma validateField_shape (f f' : Field) ok :
  name f ≠ "subject" → validateField f = Normal (ok, f') → f' = validated ok f.
Proof.
  intros Hn. unfold validateField. rewrite bool_decide_eq_false_2 by done.
  destruct (patterns (name f)) as [r | |]; unfold mret, completion_ret;
    rewrite ?bind_Normal; [| done |].
  - destruct (Regex.test r _); cbn [negb]; intros Hv; by injection Hv as <- <-.
  - destruct (negb (required f && _)); cbn [negb]; intros Hv; by injection Hv as <- <-.
Qed.

Lemma validateField_same_input (f g : Field) ok f' :
  name g = name f → value g = value f → required g = required f →
  name f ≠ "subject" →
  validateField f = Normal (ok, f') →
  validateField g = Normal (ok, validated ok g).
Proof.
  intros Hn Hv Hr Hs. unfold validateField.
  rewrite Hn, Hv, Hr. rewrite bool_decide_eq_false_2 by done.
  destruct (patterns (name f)) as [r | |]; unfold mret, completion_ret;
    rewrite ?bind_Normal; [| done |].
  - destruct (Regex.test r _); cbn [negb]; intros H; injection H as <- _;
      unfold FormEvents.validated; by rewrite ?Hn.
  - destruct (negb (required f && _)); cbn [negb]; intros H; injection H as <- _;
      unfold FormEvents.validated; by rewrite ?Hn.
Qed.

Lemma error_text_idem (add : bool) c txt (e : Element) :
  let f := λ e, (if add then classList_add c else classList_remove c)
                  (set_textContent txt e) in
  f (f e) = f e.
Proof.
  destruct e as [cl ats tc]. cbn zeta.
  unfold set_textContent, classList_add, classList_remove, set_classList.
  destruct add; cbn [classList attributes textContent]; f_equal.
  - unfold DOMTokenList.add at 1. by rewrite contains_add.
  - apply remove_absent. rewrite elem_of_remove. tauto.
Qed.

Lemma validated_validated ok (f : Field) : validated ok (validated ok f) = validated ok f.
Proof.
  unfold FormEvents.validated, set_node.
  destruct ok; cbn [name value required node errorElement];
    rewrite ?classList_add_idem, ?classList_remove_idem; f_equal;
    destruct (errorElement f) as [e |]; try done; cbn [fmap option_fmap option_map];
    f_equal.
  - apply (error_text_idem false "visible" "" e).
  - apply (error_text_idem true "visible" (errorMessages (name f)) e).
Qed.

End field_facts.

(** X21. A field without a pattern of its own is judged by presence
    alone: it is invalid exactly when it is required and its value is
    empty or all white space.  The field named [subject] is always
    valid, and validating it changes nothing. *)
Theorem validateField_without_pattern (field subject : ContactForm.Field) :
  ContactForm.name field
    ∉ (["subject"; "name"; "email"; "message"] ++ ContactForm.Object_prototype) →
  (∃ isValid field',
     ContactForm.validateField field = Normal (isValid, field')
     ∧ (isValid = false
        ↔ ContactForm.required field = true
          ∧ Forall (λ c, is_whitespace c = true) (ContactForm.value field)))
  ∧ (ContactForm.name subject = "subject" →
     ContactForm.validateField subject = Normal (true, subject)).
Proof.
  intros Hn. split.
  - apply not_elem_of_app in Hn as [Hown H5].
    rewrite !not_elem_of_cons in Hown. destruct Hown as (H1 & H2 & H3 & H4 & _).
    unfold ContactForm.validateField, ContactForm.patterns.
    rewrite !bool_decide_eq_false_2 by done.
    unfold mret, completion_ret. rewrite bind_Normal.
    pose proof (trim_facts (ContactForm.value field)) as (_ & _ & _ & _ & Hnil).
    destruct (ContactForm.required field && bool_decide _) eqn:E; cbn [negb];
      eexists _, _; (split; [reflexivity |]).
    + split; [| done]. intros _.
      apply andb_true_iff in E as [Hr He].
      apply bool_decide_eq_true in He. split; [done | by apply Hnil].
    + split; [done |]. intros [Hr Hws]. rewrite Hr in E.
      rewrite bool_decide_eq_true_2 in E by (by apply Hnil). done.
  - intros Hs. unfold ContactForm.validateField.
    by rewrite bool_decide_eq_true_2.
Qed.

Lemma validateField_without_pattern_witness :
  let field := ContactForm.mkField "phone" (of_string "   ") true
                 (mkElement ["form__input"] ∅ "") None in
  (ContactForm.name field
     ∉ (["subject"; "name"; "email"; "message"] ++ ContactForm.Object_prototype))
  ∧ (∃ field', ContactForm.validateField field = Normal (false, field')).
Proof.
  intros field.
  assert (H : ContactForm.name field
                ∉ (["subject"; "name"; "email"; "message"]
                   ++ ContactForm.Object_prototype)).
  { apply (bool_decide_unpack _). by vm_compute. }
  split; [exact H |].
  destruct (proj1 (validateField_without_pattern field field H))
    as (isValid & field' & Hv & Hiff).
  exists field'. rewrite Hv. do 2 f_equal. apply Hiff.
  split; [reflexivity | repeat constructor].
Defined.

(** X22. After [validateField] the field shows what was found, whatever
    it showed before: it carries the [error] class exactly when it is
    invalid, its error element (if any) is visible with the field's
    message exactly then and is hidden and empty otherwise; the name,
    the value, the [required] flag and every other class are as before. *)
Theorem validateField_shows_validity (field field' : ContactForm.Field)
    (isValid : bool) :
  ContactForm.name field ≠ "subject" →
  ContactForm.validateField field = Normal (isValid, field') →
  has_class "error" (ContactForm.node field') = negb isValid
  ∧ (∀ c, c ≠ "error" →
       has_class c (ContactForm.node field') = has_class c (ContactForm.node field))
  ∧ ContactForm.name field' = ContactForm.name field
  ∧ ContactForm.value field' = ContactForm.value field
  ∧ ContactForm.required field' = ContactForm.required field
  ∧ match ContactForm.errorElement field, ContactForm.errorElement field' with
    | Some e, Some e' =>
        has_class "visible" e' = negb isValid
        ∧ textContent e'
          = (if isValid then "" else ContactForm.errorMessages (ContactForm.name field))
    | None, None => True
    | _, _ => False
    end.
Proof.
  intros Hn Hv. rewrite (validateField_shape field field' isValid Hn Hv).
  unfold FormEvents.validated, ContactForm.set_node.
  destruct isValid;
    cbn [ContactForm.node ContactForm.name ContactForm.value ContactForm.required
         ContactForm.errorElement negb].
  - split; [apply has_class_remove |].
    split; [intros c Hc; by apply has_class_remove_ne |].
    split; [done |]. split; [done |]. split; [done |].
    destruct (ContactForm.errorElement field) as [e |]; [| done].
    cbn [fmap option_fmap option_map]. split; [apply has_class_remove | done].
  - split; [apply has_class_add |].
    split; [intros c Hc; by apply has_class_add_ne |].
    split; [done |]. split; [done |]. split; [done |].
    destruct (ContactForm.errorElement field) as [e |]; [| done].
    cbn [fmap option_fmap option_map]. split; [apply has_class_add | done].
Qed.

Lemma validateField_shows_validity_witness :
  let field := ContactForm.mkField "email" (of_string "a@b.co") true
                 (mkElement ["form__input"; "error"] ∅ "")
                 (Some (mkElement ["form__error"; "visible"] ∅ "old")) in
  ∃ field', ContactForm.validateField field = Normal (true, field')
            ∧ has_class "error" (ContactForm.node field') = false.
Proof.
  intros field.
  destruct (ContactForm.validateField field) as [[ok field'] |] eqn:E;
    [| by vm_compute in E].
  assert (Hok : ok = true) by (vm_compute in E; by injection E as <- _).
  subst ok. exists field'. split; [reflexivity |].
  assert (Hn : ContactForm.name field ≠ "subject") by done.
  exact (proj1 (validateField_shows_validity field field' true Hn E)).
Defined.

(** X23. Validating a field again, with its value unchanged, gives the
    same verdict and leaves the field exactly as the first validation
    left it. *)
Theorem validateField_idempotent (field field' : ContactForm.Field) (isValid : bool) :
  ContactForm.validateField field = Normal (isValid, field') →
  ContactForm.validateField field' = Normal (isValid, field').
Proof.
  intros Hv. destruct (decide (ContactForm.name field = "subject")) as [Hs | Hn].
  - unfold ContactForm.validateField in Hv.
    rewrite bool_decide_eq_true_2 in Hv by done. injection Hv as <- <-.
    unfold ContactForm.validateField. by rewrite bool_decide_eq_true_2.
  - pose proof (validateField_shape field field' isValid Hn Hv) as ->.
    pose proof (validateField_same_input field (FormEvents.validated isValid field)
                  isValid (FormEvents.validated isValid field)) as Hagain.
    rewrite Hagain; [by rewrite validated_validated | ..]; try done;
      unfold FormEvents.validated; by destruct isValid.
Qed.

Lemma validateField_idempotent_witness :
  let field := ContactForm.mkField "name" (of_string "A") true
                 (mkElement ["form__input"] ∅ "")
                 (Some (mkElement ["form__error"] ∅ "")) in
  ∃ field', ContactForm.validateField field = Normal (false, field')
            ∧ ContactForm.validateField field' = Normal (false, field').
Proof.
  intros field.
  destruct (ContactForm.validateField field) as [[ok field'] |] eqn:E;
    [| by vm_compute in E].
  assert (Hok : ok = false) by (vm_compute in E; by injection E as <- _).
  subst ok. exists field'. split; [reflexivity |].
  exact (validateField_idempotent field field' false E).
Defined.

(** X24. While a control shows no error, [input] events leave it alone:
    typing never raises an error, only [blur] and [submit] validate.
    Once it shows one, every [input] event validates it again, so the
    error goes with the first keystroke that makes the value valid. *)
Theorem onInput_revalidates_errors (field field' : ContactForm.Field)
    (isValid : bool) :
  ContactForm.validateField field = Normal (isValid, field') →
  FormEvents.onBlur field = Normal field'
  ∧ (has_class "error" (ContactForm.node field) = false →
     FormEvents.onInput field = Normal field)
  ∧ (has_class "error" (ContactForm.node field) = true →
     FormEvents.onInput field = Normal field'
     ∧ (ContactForm.name field ≠ "subject" →
        has_class "error" (ContactForm.node field') = negb isValid)).
Proof.
  intros Hv. unfold FormEvents.onBlur, FormEvents.onInput.
  rewrite Hv, bind_Normal. split; [done |]. split; [by intros -> |].
  intros ->. split; [done |]. intros Hn.
  rewrite (validateField_shape field field' isValid Hn Hv).
  unfold FormEvents.validated.
  destruct isValid; cbn; [apply has_class_remove | apply has_class_add].
Qed.

Lemma onInput_revalidates_errors_witness :
  let field := ContactForm.mkField "name" (of_string "Al") true
                 (mkElement ["form__input"; "error"] ∅ "") None in
  ∃ field', ContactForm.validateField field = Normal (true, field')
            ∧ FormEvents.onInput field = Normal field'
            ∧ has_class "error" (ContactForm.node field') = false.
Proof.
  intros field.
  destruct (ContactForm.validateField field) as [[ok field'] |] eqn:E;
    [| by vm_compute in E].
  assert (Hok : ok = true) by (vm_compute in E; by injection E as <- _).
  subst ok. exists field'. split; [reflexivity |].
  destruct (proj2 (proj2 (onInput_revalidates_errors field field' true E)) eq_refl)
    as [Hi He].
  split; [exact Hi |]. by apply He.
Defined.

Section form_facts.
Import ContactForm.

Lemma validateForm_from_all_valid (fs : list Field) :
  Forall (λ f, ∃ f', validateField f = Normal (true, f')) fs →
  ∃ fs', validateForm_from true fs = Normal (true, fs')
         ∧ Forall2 (λ f f', validateField f = Normal (true, f')) fs fs'.
Proof.
  induction fs as [| f fs IH]; intros H.
  - exists []. split; [done | constructor].
  - apply Forall_cons in H as [[f' Hf] Hfs].
    destruct (IH Hfs) as (fs' & Hv & Hall).
    exists (f' :: fs'). cbn [validateForm_from].
    rewrite Hf, bind_Normal. cbn [negb]. rewrite Hv, bind_Normal.
    split; [done | by constructor].
Qed.

Lemma validateForm_from_throws (fs : list Field) : ∀ b,
  Exists (λ f, validateField f = Throw) fs → validateForm_from b fs = Throw.
Proof.
  induction fs as [| f fs IH]; intros b H; [by apply Exists_nil in H |].
  cbn [validateForm_from]. apply Exists_cons in H as [H | H].
  - by rewrite H.
  - destruct (validateField f) as [[ok f'] |]; [| done].
    rewrite bind_Normal. by rewrite (IH _ H).
Qed.

Lemma validateField_inherited (f : Field) :
  name f ∈ Object_prototype → validateField f = Throw.
Proof.
  intros H. unfold validateField, patterns.
  assert (Hne : ∀ s, s ∈ ["subject"; "name"; "email"; "message"] → name f ≠ s).
  { intros s Hs Heq. rewrite Heq in H. revert H.
    repeat (apply elem_of_cons in Hs as [-> | Hs];
            [apply (bool_decide_unpack _); by vm_compute |]).
    by apply elem_of_nil in Hs. }
  rewrite !bool_decide_eq_false_2
    by (apply Hne; apply (bool_decide_unpack _); by vm_compute).
  by rewrite bool_decide_eq_true_2.
Qed.

End form_facts.

(** X25. The form is valid exactly when every field is, and every field
    is validated whatever the verdict on those before it: there is no
    short cut, so each field ends up showing its own verdict. *)
Theorem validateForm_conjunction (fs fs' : list ContactForm.Field) (v : bool) :
  ContactForm.validateForm fs = Normal (v, fs') →
  (v = true
   ↔ Forall (λ f, ∃ f', ContactForm.validateField f = Normal (true, f')) fs)
  ∧ Forall2 (λ f f', ∃ ok, ContactForm.validateField f = Normal (ok, f')
                           ∧ (ContactForm.name f ≠ "subject" →
                              has_class "error" (ContactForm.node f') = negb ok))
      fs fs'.
Proof.
  intros Hv. unfold ContactForm.validateForm in Hv.
  destruct (validateForm_from_spec fs true v fs' Hv) as [Hall Hfalse]. split.
  - split.
    + intros ->. apply Forall_forall. intros f Hin.
      apply list_elem_of_lookup in Hin as [i Hi].
      destruct (Forall2_lookup_l _ _ _ _ _ Hall Hi) as (f' & _ & ok & Hok).
      destruct ok; [by exists f' |].
      assert (Hcontra : true = false); [| done].
      apply Hfalse. right. apply Exists_exists. exists f.
      split; [by eapply list_elem_of_lookup_2 | by exists f'].
    + intros Hvalid. apply not_false_iff_true. intros Hf.
      apply Hfalse in Hf as [Hf | Hex]; [done |].
      apply Exists_exists in Hex as (f & Hin & f' & Hinv).
      rewrite Forall_forall in Hvalid. destruct (Hvalid f Hin) as [f'' Hval].
      congruence.
  - eapply Forall2_impl; [exact Hall |]. intros f f' [ok Hok]. exists ok.
    split; [done |]. intros Hn.
    rewrite (validateField_shape f f' ok Hn Hok). unfold FormEvents.validated.
    destruct ok; cbn; [apply has_class_remove | apply has_class_add].
Qed.

Lemma validateForm_conjunction_witness :
  let input := mkElement ["form__input"] ∅ "" in
  let fs := [ContactForm.mkField "name" (of_string "A") true input None;
             ContactForm.mkField "email" (of_string "x") true input None] in
  ∃ fs', ContactForm.validateForm fs = Normal (false, fs')
         ∧ Forall (λ f, has_class "error" (ContactForm.node f) = true) fs'.
Proof.
  intros input fs.
  destruct (ContactForm.validateForm fs) as [[v fs'] |] eqn:E; [| by vm_compute in E].
  destruct (validateForm_conjunction fs fs' v E) as [_ Hall].
  assert (Hv : v = false) by (vm_compute in E; by injection E as <- _).
  subst v. exists fs'. split; [reflexivity |].
  vm_compute in E. injection E as <-. repeat constructor.
Defined.

(** X26. A valid form goes through the whole simulated submission and
    the button always comes back.  On submit the button gets the
    [loading] class and is disabled, and the submission starts; when
    the delay is over the button has lost [loading] and is enabled
    again, whether or not the success message exists.  With a success
    message, it is shown; if [form.reset] is the form's own method,
    every control is then back to its default value and the timer that
    hides the message is set, and when that timer fires the message is
    no longer visible; if a control named [reset] stands in its place,
    the call throws, the failure is reported by an alert, the values
    stay and no timer is set.  Without a success message the failure
    is reported by an alert and the values stay. *)
Theorem submit_valid_form (fm : ContactForm.form) (btn : ContactForm.Button)
    (defaults : nat → jsstring) (others : bool) :
  Forall (λ f, ∃ f', ContactForm.validateField f = Normal (true, f'))
    (ContactForm.fields fm) →
  ContactForm.submitBtn fm = Some btn →
  ∃ fm1 out btn1 btn2,
    ContactForm.onSubmit fm = Normal fm1
    ∧ ContactForm.submitBtn fm1 = Some btn1
    ∧ has_class "loading" (ContactForm.button btn1) = true
    ∧ ContactForm.disabled btn1 = true
    ∧ ContactForm.submitting fm1 = true
    ∧ ContactForm.focused fm1 = ContactForm.focused fm
    ∧ FormEvents.onSubmitResume defaults others fm1 = Normal out
    ∧ ContactForm.submitBtn (FormEvents.after out) = Some btn2
    ∧ has_class "loading" (ContactForm.button btn2) = false
    ∧ ContactForm.disabled btn2 = false
    ∧ ContactForm.submitting (FormEvents.after out) = false
    ∧ match ContactForm.successMessage fm with
      | Some msg =>
          (has_class "visible" <$> ContactForm.successMessage (FormEvents.after out))
          = Some true
          ∧ if FormEvents.reset_shadowed others fm1
            then FormEvents.alerted out = true
                 ∧ FormEvents.hide_scheduled out = false
                 ∧ ContactForm.fields (FormEvents.after out) = ContactForm.fields fm1
            else FormEvents.alerted out = false
                 ∧ FormEvents.hide_scheduled out = true
                 ∧ (∀ i f, ContactForm.fields (FormEvents.after out) !! i = Some f →
                           ContactForm.value f = defaults i)
                 ∧ ∃ fm3, FormEvents.onHideSuccess (FormEvents.after out) = Normal fm3
                          ∧ (has_class "visible" <$> ContactForm.successMessage fm3)
                            = Some false
      | None =>
          FormEvents.alerted out = true
          ∧ FormEvents.hide_scheduled out = false
          ∧ ContactForm.fields (FormEvents.after out) = ContactForm.fields fm1
      end.
Proof.
  intros Hvalid Hbtn.
  destruct (validateForm_from_all_valid _ Hvalid) as (fs' & Hv & _).
  unfold ContactForm.onSubmit, ContactForm.validateForm.
  rewrite Hv, bind_Normal. cbn [negb]. rewrite Hbtn. cbn [deref].
  rewrite bind_Normal. unfold mret, completion_ret.
  unfold FormEvents.onSubmitResume.
  destruct (ContactForm.successMessage fm) as [msg |] eqn:Emsg.
  - destruct (FormEvents.reset_shadowed others
                (ContactForm.mkForm fs'
                   (Some (ContactForm.mkButton
                            (classList_add "loading" (ContactForm.button btn)) true))
                   (Some msg) (ContactForm.focused fm) true)) eqn:Esh.
    + eexists _, _, _, _. split; [reflexivity |].
      cbn [ContactForm.submitBtn ContactForm.submitting ContactForm.focused
           ContactForm.successMessage ContactForm.fields].
      split; [reflexivity |]. cbn [ContactForm.button ContactForm.disabled].
      split; [apply has_class_add |]. split; [done |]. split; [done |].
      split; [done |]. rewrite !Esh.
      cbn [deref ContactForm.submitBtn]. rewrite bind_Normal. split; [reflexivity |].
      cbn [FormEvents.after FormEvents.alerted FormEvents.hide_scheduled
           ContactForm.submitBtn ContactForm.submitting ContactForm.fields
           ContactForm.successMessage].
      split; [reflexivity |]. cbn [ContactForm.button ContactForm.disabled].
      split; [apply has_class_remove |]. split; [done |]. split; [done |].
      split; [cbn [fmap option_fmap option_map]; by rewrite has_class_add |].
      done.
    + eexists _, _, _, _. split; [reflexivity |].
      cbn [ContactForm.submitBtn ContactForm.submitting ContactForm.focused
           ContactForm.successMessage ContactForm.fields].
      split; [reflexivity |]. cbn [ContactForm.button ContactForm.disabled].
      split; [apply has_class_add |]. split; [done |]. split; [done |].
      split; [done |]. rewrite !Esh.
      cbn [deref ContactForm.submitBtn]. rewrite bind_Normal. split; [reflexivity |].
      cbn [FormEvents.after FormEvents.alerted FormEvents.hide_scheduled
           ContactForm.submitBtn ContactForm.submitting ContactForm.fields
           ContactForm.successMessage].
      split; [reflexivity |]. cbn [ContactForm.button ContactForm.disabled].
      split; [apply has_class_remove |]. split; [done |]. split; [done |].
      split; [cbn [fmap option_fmap option_map]; by rewrite has_class_add |].
      split; [done |]. split; [done |].
      split.
      { intros i f Hi. unfold FormEvents.reset in Hi.
        rewrite list_lookup_imap in Hi.
        destruct (fs' !! i) as [g |]; [| done]. by injection Hi as <-. }
      unfold FormEvents.onHideSuccess. cbn [ContactForm.successMessage deref].
      rewrite bind_Normal. eexists. split; [reflexivity |].
      cbn [ContactForm.successMessage fmap option_fmap option_map].
      by rewrite has_class_remove.
  - eexists _, _, _, _. split; [reflexivity |].
    cbn [ContactForm.submitBtn ContactForm.submitting ContactForm.focused
         ContactForm.successMessage ContactForm.fields].
    split; [reflexivity |]. cbn [ContactForm.button ContactForm.disabled].
    split; [apply has_class_add |]. split; [done |]. split; [done |]. split; [done |].
    cbn [deref]. rewrite bind_Normal. split; [reflexivity |].
    cbn [FormEvents.after FormEvents.alerted FormEvents.hide_scheduled
         ContactForm.submitBtn ContactForm.submitting ContactForm.fields
         ContactForm.successMessage].
    split; [reflexivity |]. cbn [ContactForm.button ContactForm.disabled].
    split; [apply has_class_remove |]. done.
Qed.

Lemma submit_valid_form_witness :
  let input := mkElement ["form__input"] ∅ "" in
  let fm := ContactForm.mkForm
    [ContactForm.mkField "name" (of_string "Al") true input None;
     ContactForm.mkField "email" (of_string "a@b.co") true input None;
     ContactForm.mkField "message" (of_string "fifteen chars..") true input None]
    (Some (ContactForm.mkButton (mkElement ["btn"] ∅ "Invia") false))
    (Some (mkElement ["form__success"] ∅ "Grazie")) None false in
  Forall (λ f, ∃ f', ContactForm.validateField f = Normal (true, f'))
    (ContactForm.fields fm)
  ∧ ∃ fm1 out,
      ContactForm.onSubmit fm = Normal fm1
      ∧ FormEvents.onSubmitResume (λ _, []) false fm1 = Normal out
      ∧ Forall (λ f, ContactForm.value f = []) (ContactForm.fields (FormEvents.after out)).
Proof.
  intros input fm.
  assert (H1 : Forall (λ f, ∃ f', ContactForm.validateField f = Normal (true, f'))
                 (ContactForm.fields fm)).
  { repeat constructor; eexists; by vm_compute. }
  split; [exact H1 |].
  destruct (submit_valid_form fm _ (λ _, []) false H1 eq_refl)
    as (fm1 & out & btn1 & btn2 & Hs & _ & _ & _ & _ & _ & Hr & _ & _ & _ & _ & Hm).
  exists fm1, out. split; [exact Hs |]. split; [exact Hr |].
  vm_compute in Hs. injection Hs as <-.
  cbn in Hm. destruct Hm as (_ & _ & _ & Hvals & _).
  apply Forall_forall. intros f Hin.
  apply list_elem_of_lookup in Hin as [i Hi]. exact (Hvals i f Hi).
Defined.

(** A message field named [reset] keeps the form from being cleared:
    the message is shown and stays, and the visitor is told of an
    error. *)
Lemma submit_reset_shadowed :
  let input := mkElement ["form__input"] ∅ "" in
  let fm := ContactForm.mkForm
    [ContactForm.mkField "reset" (of_string "Al") true input None]
    (Some (ContactForm.mkButton (mkElement ["btn"; "loading"] ∅ "Invia") true))
    (Some (mkElement ["form__success"] ∅ "Grazie")) None true in
  FormEvents.onSubmitResume (λ _, []) false fm
  = Normal (FormEvents.mkOutcome
              (ContactForm.mkForm
                 [ContactForm.mkField "reset" (of_string "Al") true input None]
                 (Some (ContactForm.mkButton (mkElement ["btn"] ∅ "Invia") false))
                 (Some (mkElement ["form__success"; "visible"] ∅ "Grazie"))
                 None false)
              true false).
Proof. by vm_compute. Qed.

(** X27. Two ways the [submit] listener throws instead of returning.  A
    control named after a member of [Object.prototype] makes
    [validateField] throw, since that member has no [test] method; the
    validation of the form and the listener throw with it, before any
    loading state.  And when the submit button is missing, a form that
    is valid makes the listener throw after the validation. *)
Theorem onSubmit_throws (fm : ContactForm.form) :
  (Exists (λ f, ContactForm.name f ∈ ContactForm.Object_prototype)
     (ContactForm.fields fm) →
   ContactForm.validateForm (ContactForm.fields fm) = Throw
   ∧ ContactForm.onSubmit fm = Throw)
  ∧ (Forall (λ f, ∃ f', ContactForm.validateField f = Normal (true, f'))
       (ContactForm.fields fm) →
     ContactForm.submitBtn fm = None →
     ContactForm.onSubmit fm = Throw).
Proof.
  split.
  - intros Hex.
    assert (Ht : ContactForm.validateForm (ContactForm.fields fm) = Throw).
    { apply validateForm_from_throws. eapply Exists_impl; [exact Hex |].
      intros f. apply validateField_inherited. }
    split; [exact Ht |]. unfold ContactForm.onSubmit. by rewrite Ht.
  - intros Hvalid Hbtn.
    destruct (validateForm_from_all_valid _ Hvalid) as (fs' & Hv & _).
    unfold ContactForm.onSubmit, ContactForm.validateForm.
    rewrite Hv, bind_Normal. cbn [negb]. by rewrite Hbtn.
Qed.

(* ------------------------------------------------------------------ *)
(** ** Concrete runs of the further properties *)
(* ------------------------------------------------------------------ *)

Lemma scroll_handlers_touch_one_class_witness :
  "header" ≠ "scrolled"
  ∧ has_class "header"
      (handleHeaderScroll 250 (mkElement ["header"] {["id" := of_string "header"]} ""))
    = true.
Proof.
  assert (H : "header" ≠ "scrolled") by done.
  split; [exact H |].
  rewrite (proj1 (scroll_handlers_touch_one_class 250
                    (mkElement ["header"] {["id" := of_string "header"]} "")
                    "header") H).
  reflexivity.
Defined.

Lemma updateActiveLink_idempotent_witness :
  let engine := λ _ : nat, @Throw ActiveLink.found in
  let home := ActiveLink.mkSection (of_string "home") 0 600 in
  let about := ActiveLink.mkSection (of_string "about") 600 800 in
  let link id cls := mkElement cls {["href" := of_string id]} "" in
  let before := [link "#home" ["nav__link"; "active"]; link "#about" ["nav__link"]] in
  let others := [link "#home" ["nav__link"]; link "#about" ["nav__link"; "active"]] in
  ActiveLink.plain [home; about]
  ∧ ActiveLink.hits 700 80 before [home; about] ≠ []
  ∧ ActiveLink.updateActiveLink engine 700 80 [home; about] others
    = ActiveLink.updateActiveLink engine 700 80 [home; about] before
  ∧ ActiveLink.active_links
      (ActiveLink.updateActiveLink engine 700 80 [home; about] before).1
    = [1%nat].
Proof.
  intros engine home about link before others.
  assert (H0 : ActiveLink.plain [home; about]) by (repeat constructor).
  assert (H1 : ActiveLink.hits 700 80 before [home; about] ≠ []) by (by vm_compute).
  split; [exact H0 |]. split; [exact H1 |]. split; [| by vm_compute].
  exact (proj1 (updateActiveLink_idempotent engine 700 80 [home; about] before others H0)
           H1 eq_refl eq_refl).
Defined.

Lemma onSubmit_throws_witness :
  let input := mkElement ["form__input"] ∅ "" in
  let fm := ContactForm.mkForm
    [ContactForm.mkField "name" (of_string "Al") true input None;
     ContactForm.mkField "constructor" (of_string "x") false input None]
    (Some (ContactForm.mkButton (mkElement ["btn"] ∅ "Invia") false))
    None None false in
  Exists (λ f, ContactForm.name f ∈ ContactForm.Object_prototype)
    (ContactForm.fields fm)
  ∧ ContactForm.onSubmit fm = Throw.
Proof.
  intros input fm.
  assert (H : Exists (λ f, ContactForm.name f ∈ ContactForm.Object_prototype)
                (ContactForm.fields fm)).
  { apply Exists_cons_tl, Exists_cons_hd. apply (bool_decide_unpack _). by vm_compute. }
  split; [exact H |].
  exact (proj2 (proj1 (onSubmit_throws fm) H)).
Defined.
